(** * Steady-state Lindblad master equation solver (LindbladMasterEq.py)

    A shallow embedding of the numerical core of [LindbladMasterEq.py]:
    the [beam] class, the construction checks of [atomicSystem], the rate
    matrices and Lindblad operators of [generateMatrices], the linear system
    of [generate_linear_system], the post-processing of [solve], the Doppler
    average of [solve_w_doppler] and [propagated_transmission]; besides, the
    isotope table of [get_spectra], the temperatures and the transit time
    ([getTransitTime], [update], [update_transit]), the velocity
    distributions and the map from the susceptibility to the transmission.

    Python floats are read as real numbers and complex floats as pairs of
    reals; numpy arrays are lists (one axis) or shaped index functions
    (several axes); sympy expressions are functions of the symbols they
    mention.  Exceptions are a [result] type; the warnings and the
    information the code logs and the calls of the solver are events of a
    trace, the [log.debug] calls are left out. *)

From Stdlib Require Import Reals Lra Lia List Arith Bool String Ascii.
From Stdlib Require Import FunctionalExtensionality.
From Stdlib Require DecimalString.
Import ListNotations.

Local Open Scope R_scope.

(** ** Complex numbers *)

Definition C : Type := (R * R)%type.

Definition RtoC (x : R) : C := (x, 0).
Definition Ci : C := (0, 1).
Definition Re (z : C) : R := fst z.
Definition Im (z : C) : R := snd z.

Definition Cadd (a b : C) : C := (fst a + fst b, snd a + snd b).
Definition Copp (a : C) : C := (- fst a, - snd a).
Definition Csub (a b : C) : C := Cadd a (Copp b).
Definition Cmul (a b : C) : C :=
  (fst a * fst b - snd a * snd b, fst a * snd b + snd a * fst b).
(** Division of a complex number by a real one. *)
Definition Cdivr (a : C) (r : R) : C := (fst a / r, snd a / r).

Declare Scope C_scope.
Delimit Scope C_scope with C.
Bind Scope C_scope with C.
Infix "+" := Cadd : C_scope.
Infix "-" := Csub : C_scope.
Infix "*" := Cmul : C_scope.
Notation "- x" := (Copp x) : C_scope.
Notation "0" := (RtoC 0) : C_scope.
Notation "1" := (RtoC 1) : C_scope.

(** ** Physical constants ([scipy.constants], imported as [c]) *)

Module c.
Definition pi : R := PI.
(** speed of light in vacuum, m/s *)
Definition c : R := 299792458.
(** vacuum electric permittivity, F/m *)
Definition epsilon_0 : R := 8.8541878128e-12.
(** Planck constant, J s *)
Definition h : R := 6.62607015e-34.
(** Boltzmann constant, J/K *)
Definition k : R := 1.380649e-23.
End c.

(** ** Exceptions, logging and the trace monad *)

Inductive exn : Type :=
| KeyError (msg : string)
| ValueError (msg : string)
| IndexError (msg : string)
| AttributeError (msg : string)
| TypeError (msg : string)
| ZeroDivisionError (msg : string).

Inductive result (A : Type) : Type :=
| Ok (a : A)
| Raise (e : exn).
Arguments Ok {A} a.
Arguments Raise {A} e.

Inductive level : Type := DEBUG | INFO | WARNING.

(** A scalar or a one-dimensional numpy array. *)
Inductive num : Type :=
| Scalar (x : R)
| Array (xs : list R).

Definition nmap (f : R -> R) (n : num) : num :=
  match n with
  | Scalar x => Scalar (f x)
  | Array xs => Array (map f xs)
  end.

(** [np.atleast_1d] *)
Definition atleast_1d (n : num) : list R :=
  match n with
  | Scalar x => [x]
  | Array xs => xs
  end.

(** The attributes of a [beam] object. *)
Record beam : Type := mkbeam {
  w : num;
  profile : string;
  D : num;
  A : num;
  P : num;
  E : num
}.

Inductive event : Type :=
| Log (lvl : level) (msg : string)
| SolveCall (beams : list beam).

Definition M (X : Type) : Type := list event -> result X * list event.

Definition ret {X} (x : X) : M X := fun tr => (Ok x, tr).
Definition raise {X} (e : exn) : M X := fun tr => (Raise e, tr).
Definition bind {X Y} (m : M X) (f : X -> M Y) : M Y :=
  fun tr => match m tr with
            | (Ok x, tr') => f x tr'
            | (Raise e, tr') => (Raise e, tr')
            end.
Definition emit (ev : event) : M unit := fun tr => (Ok tt, tr ++ [ev]).
Definition lift {X} (v : result X) : M X := fun tr => (v, tr).

(** A [for] loop that threads the loop state through the trace monad. *)
Fixpoint foldM {X S} (f : S -> X -> M S) (l : list X) (s : S) : M S :=
  match l with
  | [] => ret s
  | x :: l' => bind (f s x) (foldM f l')
  end.

Notation "x <- m ;; k" := (bind m (fun x => k))
  (at level 61, m at next level, right associativity).
Notation "m ;;; k" := (bind m (fun _ => k))
  (at level 61, right associativity).

Definition log_warning (msg : string) : M unit := emit (Log WARNING msg).
Definition log_info (msg : string) : M unit := emit (Log INFO msg).
Definition log_debug (msg : string) : M unit := emit (Log DEBUG msg).

(** [d[key]] on a keyword dictionary: [KeyError] when the key is absent. *)
Definition getitem {X} (key : string) (v : option X) : M X :=
  match v with
  | Some x => ret x
  | None => raise (KeyError key)
  end.

(** Entrywise arithmetic of two scalars or one-dimensional arrays, with
    numpy's broadcasting of a scalar or a one-entry array. *)
Definition nlift2 (f : R -> R -> R) (a b : num) : M num :=
  match a, b with
  | Scalar x, Scalar y => ret (Scalar (f x y))
  | Scalar x, Array ys => ret (Array (map (f x) ys))
  | Array xs, Scalar y => ret (Array (map (fun x => f x y) xs))
  | Array xs, Array ys =>
      if (List.length xs =? List.length ys)%nat then
        ret (Array (map (fun xy => f (fst xy) (snd xy)) (combine xs ys)))
      else match xs, ys with
           | [x], _ => ret (Array (map (f x) ys))
           | _, [y] => ret (Array (map (fun x => f x y) xs))
           | _, _ => raise (ValueError
                              "operands could not be broadcast together")
           end
  end.

(** ** class beam *)

(** The keyword arguments [beam.__init__] reads; [None] is an absent key. *)
Record kwargs : Type := mkkwargs {
  kw_w : option num;
  kw_profile : option string;
  kw_D : option num;
  kw_A : option num;
  kw_E : option num;
  kw_P : option num
}.

(** [beam.setP]: an exception abandons the update. *)
Definition setP (self : beam) (P : num) : M beam :=
  log_info ("Beam profile used: " ++ profile self) ;;;
  I <- (if String.eqb (profile self) "flat" then
          nlift2 Rdiv P (A self)
        else if String.eqb (profile self) "gaussian" then
          nlift2 Rdiv (nmap (Rmult 2) P) (A self)
        else raise (KeyError "no beam profile specified")) ;;
  ret (mkbeam (w self) (profile self) (D self) (A self) P
         (nmap (fun i => sqrt (2 * i / c.c / c.epsilon_0)) I)).

(** [beam.setE] *)
Definition setE (self : beam) (E : num) : M beam :=
  P <- nlift2 Rmult (nmap (fun a => a / 4 * c.c * c.epsilon_0) (A self))
         (nmap (fun e => e ^ 2) E) ;;
  ret (mkbeam (w self) (profile self) (D self) (A self) P E).

(** [beam.__init__]; the attributes [P] and [E] do not exist before
    [setE] or [setP] assigns them, the record holds the keyword value until
    then. *)
Definition beam_init (kw : kwargs) : M beam :=
  w <- getitem "w" (kw_w kw) ;;
  profile <- match kw_profile kw with
             | Some p => ret p
             | None => log_warning "Use Gaussian intensity profile" ;;;
                       ret "gaussian"%string
             end ;;
  DA <- match kw_D kw with
        | Some d => ret (d, nmap (fun d => c.pi * d ^ 2 / 4) d)
        | None => a <- getitem "A" (kw_A kw) ;;
                  ret (nmap (fun a => 2 * sqrt (a / c.pi)) a, a)
        end ;;
  match kw_E kw with
  | Some e => setE (mkbeam w profile (fst DA) (snd DA) e e) e
  | None => p <- getitem "P" (kw_P kw) ;;
            setP (mkbeam w profile (fst DA) (snd DA) p p) p
  end.

(** [beam.__iter__]: the iterator over the tuple [(w, P, D)]. *)
Definition beam_iter (self : beam) : list num :=
  [w self; P self; D self].

(** Unpacking an iterable into three or into four targets. *)
Definition unpack3 {X} (l : list X) : M (X * X * X) :=
  match l with
  | [a; b; c] => ret (a, b, c)
  | _ => raise (ValueError "wrong number of values to unpack (expected 3)")
  end.
Definition unpack4 {X} (l : list X) : M (X * X * X * X) :=
  match l with
  | [a; b; c; d] => ret (a, b, c, d)
  | _ => raise (ValueError "wrong number of values to unpack (expected 4)")
  end.

(** ** class state and the construction checks of atomicSystem *)

Record state : Type := mkstate {
  st_n : nat;
  st_l : nat;
  st_j : R;
  st_f : option R
}.

(** The [arc] atom classes [atomicSystem.__init__] can instantiate. *)
Inductive arc_atom : Type :=
| Lithium6 | Lithium7 | Sodium
| Potassium39 | Potassium40 | Potassium41
| Rubidium85 | Rubidium87 | Caesium.

(** The entries of [p_dict] the constructor reads before the atomic data
    are looked up; [None] is an absent key. *)
Record p_dict : Type := mkp_dict {
  K40frac : option R;
  K41frac : option R;
  rb85frac : option R;
  Dline : option string
}.

Definition set_Dline (p : p_dict) (d : string) : p_dict :=
  mkp_dict (K40frac p) (K41frac p) (rb85frac p) (Some d).

(** [str.lower] on ASCII letters; other characters are left as they are
    (Python also lowers letters outside ASCII). *)
Definition lower_ascii (a : ascii) : ascii :=
  let k := nat_of_ascii a in
  if (65 <=? k)%nat && (k <=? 90)%nat then ascii_of_nat (k + 32) else a.

Fixpoint lower (s : string) : string :=
  match s with
  | EmptyString => EmptyString
  | String a s' => String (lower_ascii a) (lower s')
  end.

(** [x in [...]] for a list of strings. *)
Definition str_in (x : string) (l : list string) : bool :=
  existsb (String.eqb x) l.

Local Open Scope string_scope.

(** The [if]/[elif] chain on [element.lower()]: the atom object and, where
    the branch sets it, the attribute [abundance]. *)
Definition select_atom (element : string) (p : p_dict)
  : M (arc_atom * option R) :=
  let e := lower element in
  if str_in e ["li6"; "lithium6"] then ret (Lithium6, None)
  else if str_in e ["li7"; "lithium7"] then ret (Lithium7, None)
  else if str_in e ["na"; "na23"; "sodium"; "sodium23"] then ret (Sodium, None)
  else if str_in e ["k39"; "potassium39"] then
    k40 <- getitem "K40frac" (K40frac p) ;;
    k41 <- getitem "K41frac" (K41frac p) ;;
    ret (Potassium39, Some (1 - (k40 + k41) / 100))
  else if str_in e ["k40"; "potassium40"] then
    k40 <- getitem "K40frac" (K40frac p) ;;
    ret (Potassium40, Some (k40 / 100))
  else if str_in e ["k41"; "potassium41"] then
    k41 <- getitem "K41frac" (K41frac p) ;;
    ret (Potassium41, Some (k41 / 100))
  else if str_in e ["rb85"; "rubidium85"] then
    f <- getitem "rb85frac" (rb85frac p) ;;
    ret (Rubidium85, Some (f / 100))
  else if str_in e ["rb87"; "rubidium87"] then
    f <- getitem "rb85frac" (rb85frac p) ;;
    ret (Rubidium87, Some (1 - f / 100))
  else if str_in e ["cs"; "cs133"; "caesium"; "caesium133"] then
    ret (Caesium, None)
  else raise (ValueError "").

Local Close Scope string_scope.

(** [l[i]] on a Python list. *)
Definition list_getitem {X} (l : list X) (i : nat) : M X :=
  match nth_error l i with
  | Some x => ret x
  | None => raise (IndexError "list index out of range")
  end.

Section Construction.

(** [arc]'s [groundStateN] attribute of each atom class. *)
Variable groundStateN : arc_atom -> nat.

(** The branch on [states] of [atomicSystem.__init__]: the attribute
    [states] and the dictionary with its possibly overridden [Dline]. *)
Definition select_states (atom : arc_atom) (p : p_dict)
           (states : option (list state)) : M (list state * p_dict) :=
  match states with
  | None =>
      let groundState := mkstate (groundStateN atom) 0 (1 / 2) None in
      d <- getitem "Dline" (Dline p) ;;
      excitedState <-
        (if String.eqb d "D1" then
           ret (mkstate (groundStateN atom) 1 (1 / 2) None)
         else if String.eqb d "D2" then
           ret (mkstate (groundStateN atom) 1 (3 / 2) None)
         else raise (ValueError "")) ;;
      ret ([groundState; excitedState], p)
  | Some states =>
      log_warning
        "States have been explicitly given, override Dline parameter" ;;;
      s1 <- list_getitem states 1 ;;
      s1' <- list_getitem states 1 ;;
      if Rlt_dec (st_j s1 - st_j s1') 0.9 then
        ret (states, set_Dline p "D1")
      else
        s1 <- list_getitem states 1 ;;
        s1' <- list_getitem states 1 ;;
        if Rlt_dec (st_j s1 - st_j s1') 1.1 then
          ret (states, set_Dline p "D2")
        else raise (ValueError "Unsupported Dline")
  end.

(** [atomicSystem.__init__] up to the assignment of [self.n_states]: the
    atom, the abundance where set, the states and the dictionary. *)
Definition atomicSystem_init (element : string) (p : p_dict)
           (states : option (list state))
  : M (arc_atom * option R * list state * p_dict) :=
  aa <- select_atom element p ;;
  sp <- select_states (fst aa) p states ;;
  ret (fst aa, snd aa, fst sp, snd sp).

End Construction.

(** ** Matrices *)

(** A two-dimensional array or sympy matrix: the entry at a row and a
    column.  Entries are real ([numpy] rate matrices) or complex (values of
    the sympy expressions). *)
Definition RMat : Type := nat -> nat -> R.
Definition Mat : Type := nat -> nat -> C.

(** [slice(start, stop)] *)
Definition slice : Type := (nat * nat)%type.
Definition in_slice (s : slice) (i : nat) : bool :=
  (fst s <=? i)%nat && (i <? snd s)%nat.

(** [m[rows, cols] = block]: the block is indexed from its own origin. *)
Definition set_block {T} (m : nat -> nat -> T) (rows cols : slice)
           (block : nat -> nat -> T) : nat -> nat -> T :=
  fun i j => if in_slice rows i && in_slice cols j
             then block (i - fst rows)%nat (j - fst cols)%nat
             else m i j.

(** [m[i, j] = v] *)
Definition set_entry {T} (m : nat -> nat -> T) (i j : nat) (v : T)
  : nat -> nat -> T :=
  fun i' j' => if (i' =? i)%nat && (j' =? j)%nat then v else m i' j'.

Definition Rzeros : RMat := fun _ _ => 0.
Definition zeros : Mat := fun _ _ => RtoC 0.
Definition const {T} (v : T) : nat -> nat -> T := fun _ _ => v.
Definition transpose {T} (m : nat -> nat -> T) : nat -> nat -> T :=
  fun i j => m j i.
Definition Radd (a b : RMat) : RMat := fun i j => a i j + b i j.
Definition Madd (a b : Mat) : Mat := fun i j => (a i j + b i j)%C.
Definition Msub (a b : Mat) : Mat := fun i j => (a i j - b i j)%C.
Definition Mscale (z : C) (a : Mat) : Mat := fun i j => (z * a i j)%C.

(** The sum of [f 0], ..., [f (n-1)]. *)
Fixpoint Csum (n : nat) (f : nat -> C) : C :=
  match n with
  | O => RtoC 0
  | S n' => (Csum n' f + f n')%C
  end.

(** Product and trace of square matrices of size [N]. *)
Definition Mmul (N : nat) (a b : Mat) : Mat :=
  fun i j => Csum N (fun k => (a i k * b k j)%C).
Definition trace (N : nat) (a : Mat) : C := Csum N (fun i => a i i).

(** ** atomicSystem: the attributes the master equation is built from *)

Record atomicSystem : Type := mkatomicSystem {
  (** [self.n[0]], [self.n[1]]: sublevels of the ground and excited states *)
  n0 : nat;
  n1 : nat;
  (** [self.energySeparation[0]], [self.energySeparation[1]] *)
  energySeparation0 : list R;
  energySeparation1 : list R;
  (** [self.dme] and [self.Gammas], of shape [(n[0], n[1])] *)
  dme : RMat;
  Gammas : RMat;
  transit_time : R;
  abundance : R;
  (** [self.atom.mass], [self.DoppT], [self.f_resonance] *)
  mass : R;
  DoppT : R;
  f_resonance : R;
  (** [p_dict['GammaBuf']], [p_dict['collisions']] when the key is there,
      ['symbolic_transit' in p_dict] *)
  GammaBuf : R;
  collisions : option string;
  symbolic_transit : bool
}.

Definition total_levels (self : atomicSystem) : nat := (n0 self + n1 self)%nat.

(** [self.slices[0]] and [self.slices[1]] *)
Definition slices0 (self : atomicSystem) : slice := (O, n0 self).
Definition slices1 (self : atomicSystem) : slice :=
  (n0 self, (n0 self + n1 self)%nat).

(** ** generateMatrices *)

Section GenerateMatrices.

Variable self : atomicSystem.
(** The values of the symbols [w_01], [Efield_01], [tau_t] and of the
    matrix of symbols [self.r]. *)
Variables (wL Efield tau_t : R) (r : Mat).

Let N := total_levels self.

Definition H_rabi : Mat :=
  let H0 := set_block zeros (slices0 self) (slices1 self)
              (fun i j => RtoC (0.5e-6 / c.h * dme self i j * Efield)) in
  Madd H0 (transpose H0).

(** [np.concatenate([-energySeparation[0], wL - energySeparation[1]])] *)
Definition detunings : list R :=
  map Ropp (energySeparation0 self)
  ++ map (fun e => wL - e) (energySeparation1 self).

(** [sy.diag( *detunings )] *)
Definition H_energylevels : Mat :=
  fun i j => if (i =? j)%nat then RtoC (nth i detunings 0) else RtoC 0.

Definition H : Mat := Madd H_rabi H_energylevels.

(** The body of the loop over [k] in [Lindblad_decay]. *)
Definition decay_k (rates : RMat) (i j : nat) (L : Mat) (k : nat) : Mat :=
  set_entry L i j
    (L i j - RtoC (0.5 * (rates i k + rates j k)) * r i j)%C.

(** The body of the loop over [j] in [Lindblad_decay]. *)
Definition decay_j (rates : RMat) (i : nat) (L : Mat) (j : nat) : Mat :=
  let L := set_entry L i i
             (L i i + (RtoC (rates j i) * r j j
                       - RtoC (rates i j) * r i i))%C in
  if negb (i =? j)%nat then fold_left (decay_k rates i j) (seq 0 N) L
  else L.

Definition Lindblad_decay (rates : RMat) : Mat :=
  fold_left (fun L i => fold_left (decay_j rates i) (seq 0 N) L)
            (seq 0 N) zeros.

(** The body of the loop over [j] in [Lindblad_dephase]. *)
Definition dephase_j (rates : RMat) (i : nat) (L : Mat) (j : nat) : Mat :=
  if negb (i =? j)%nat then
    set_entry L i j (L i j - RtoC (0.5 * rates i j) * r i j)%C
  else L.

Definition Lindblad_dephase (rates : RMat) : Mat :=
  fold_left (fun L i => fold_left (dephase_j rates i) (seq 0 N) L)
            (seq 0 N) zeros.

Definition g_dec : RMat :=
  set_block Rzeros (slices1 self) (slices0 self) (transpose (Gammas self)).

(** [g_transit] as first built, from the number [self.transit_time]. *)
Definition g_transit_numeric : RMat :=
  let g := set_block Rzeros (slices0 self) (slices0 self)
             (const (1 / transit_time self / INR (n0 self) / 2)) in
  set_block g (slices1 self) (slices0 self)
    (const (1 / transit_time self / INR (n0 self) / 2)).

(** [g_transit] as rebuilt from the symbol [tau_t] when
    ['symbolic_transit'] is in [p_dict]. *)
Definition g_transit_symbolic : RMat :=
  let g := set_block Rzeros (slices0 self) (slices0 self)
             (fun i j => 1 / tau_t / INR (n0 self) / 2 * const 1 i j) in
  set_block g (slices1 self) (slices0 self)
    (fun i j => 1 / tau_t / INR (n0 self) / 2 * const 1 i j).

Definition g_transit : RMat :=
  if symbolic_transit self then g_transit_symbolic else g_transit_numeric.

(** The collision model in force: ['decay'] when the key is absent. *)
Definition collisions_or_default : string :=
  match collisions self with
  | Some s => s
  | None => "decay"%string
  end.

(** [-sy.I * (H*r - r*H)] *)
Definition coherent : Mat :=
  Mscale (- Ci)%C (Msub (Mmul N H r) (Mmul N r H)).

End GenerateMatrices.

(** A sympy matrix over the symbols [w_01], [Efield_01], [tau_t] and the
    entries of [self.r]: its value at a value of the symbols. *)
Definition SMat : Type := R -> R -> R -> Mat -> Mat.

(** The attribute [self.master_equation] that [generateMatrices] assigns;
    [None] when neither branch on [p_dict['collisions']] is taken and the
    attribute stays unset. *)
Definition master_equation (self : atomicSystem) : option SMat :=
  if String.eqb (collisions_or_default self) "decay" then
    Some (fun wL Efield tau_t r =>
      let g_col := set_block Rzeros (slices1 self) (slices0 self)
                     (const (GammaBuf self / INR (n0 self))) in
      let L_dec := Lindblad_decay self r
                     (Radd (Radd (g_dec self) (g_transit self tau_t)) g_col) in
      Msub (coherent self wL Efield r) L_dec)
  else if String.eqb (collisions_or_default self) "dephase" then
    Some (fun wL Efield tau_t r =>
      let g_col := set_block Rzeros (slices1 self) (slices0 self)
                     (const (GammaBuf self)) in
      let g_col := set_block g_col (slices0 self) (slices1 self)
                     (const (GammaBuf self)) in
      let L_dec := Lindblad_decay self r
                     (Radd (g_dec self) (g_transit self tau_t)) in
      let L_deph := Lindblad_dephase self r g_col in
      Msub (Msub (coherent self wL Efield r) L_dec) L_deph)
  else None.

(** ** The system matrix and generate_linear_system *)

(** [self.system_matrix] as [__init__] leaves it: the master equation with
    [tau_t] replaced by [self.transit_time] and its first entry (flat index
    0) overwritten with [-1 + self.r.trace()]. *)
Definition system_matrix (self : atomicSystem)
  : result (R -> R -> Mat -> Mat) :=
  match master_equation self with
  | None => Raise (AttributeError "master_equation")
  | Some me =>
      if (total_levels self =? 0)%nat then
        Raise (IndexError "Index out of range: a[0]")
      else
        Ok (fun wL Efield r =>
              set_entry (me wL Efield (transit_time self) r) 0 0
                (RtoC (-1) + trace (total_levels self) r)%C)
  end.

(** [atomicSystem.matrix2list] on a square matrix of size [N]. *)
Definition matrix2list {T} (N : nat) (mat : nat -> nat -> T) : list T :=
  let l1 := flat_map (fun i => map (fun j => mat i j)
                                   (seq (i + 1) (N - (i + 1)))) (seq 0 N) in
  let l2 := flat_map (fun i => map (fun j => mat j i)
                                   (seq (i + 1) (N - (i + 1)))) (seq 0 N) in
  map (fun i => mat i i) (seq 0 N) ++ l1 ++ l2.

(** [self.r_list]: the symbol [\rho_{i/j}] is named by its index pair. *)
Definition r_list (self : atomicSystem) : list (nat * nat) :=
  matrix2list (total_levels self) (fun i j => (i, j)).

(** [self.transition_list[0]] and [self.transition_list2[0]] *)
Definition transition_list (self : atomicSystem) : list bool :=
  matrix2list (total_levels self)
    (set_block (const false) (slices0 self) (slices1 self) (const true)).
Definition transition_list2 (self : atomicSystem) : list bool :=
  matrix2list (total_levels self)
    (set_block (const false) (slices1 self) (slices0 self) (const true)).

(** The value of the symbols in which one symbol is 1 and the others 0,
    and the one in which all are 0. *)
Definition unit_at (s : nat * nat) : Mat :=
  fun i j => if (i =? fst s)%nat && (j =? snd s)%nat then RtoC 1 else RtoC 0.

(** [sy.linear_eq_to_matrix(eqs, symbols)] for equations linear in the
    symbols: the coefficient of a symbol in an equation is the equation's
    value at that symbol's unit assignment less its value at zero.  The
    equations are the entries of an [N] by [N] matrix taken row by row. *)
Definition linear_eq_to_matrix (N : nat) (eqs : Mat -> Mat)
           (symbols : list (nat * nat)) : (nat -> nat -> C) * (nat -> C) :=
  (fun row col =>
     match nth_error symbols col with
     | Some s => (eqs (unit_at s) (row / N) (row mod N)
                  - eqs zeros (row / N) (row mod N))%C
     | None => RtoC 0
     end,
   fun row => (- eqs zeros (row / N) (row mod N))%C)%nat.

(** [generate_linear_system]: the compiled [A(wL, Efield)] and the vector
    [b] with first entry 1. *)
Definition generate_linear_system (self : atomicSystem)
  : result ((R -> R -> nat -> nat -> C) * (nat -> C)) :=
  match system_matrix self with
  | Raise e => Raise e
  | Ok sm =>
      let A := fun wL Efield =>
                 fst (linear_eq_to_matrix (total_levels self) (sm wL Efield)
                        (r_list self)) in
      let b := fun row => if (row =? 0)%nat then RtoC 1 else RtoC 0 in
      Ok (A, b)
  end.

(** [x] solves [A x = b] for a square system of the given size. *)
Definition solves (size : nat) (A : nat -> nat -> C) (b x : nat -> C) : Prop :=
  forall row, (row < size)%nat ->
    Csum size (fun col => (A row col * x col)%C) = b row.

(** ** numpy arrays with several axes *)

(** An array is its shape and its entry at a multi-index; the operations
    below are the ones [solve] applies, with numpy's index arithmetic. *)
Record ndarray (T : Type) : Type := mkarray {
  shape : list nat;
  item : list nat -> T
}.
Arguments mkarray {T} shape item.
Arguments shape {T} _.
Arguments item {T} _ _.

Module np.

(** The index into an array of shape [sh] that an index into its
    squeezed form stands for: 0 on each axis of length one. *)
Fixpoint unsqueeze (sh idx : list nat) : list nat :=
  match sh with
  | [] => []
  | d :: sh' =>
      if (d =? 1)%nat then O :: unsqueeze sh' idx
      else match idx with
           | i :: idx' => i :: unsqueeze sh' idx'
           | [] => O :: unsqueeze sh' []
           end
  end.

Definition squeeze {T} (a : ndarray T) : ndarray T :=
  mkarray (filter (fun d => negb (d =? 1)%nat) (shape a))
          (fun idx => item a (unsqueeze (shape a) idx)).

(** [np.moveaxis(a, -1, 0)] *)
Definition moveaxis_last_first {T} (a : ndarray T) : ndarray T :=
  mkarray (match shape a with
           | [] => []
           | _ => last (shape a) O :: removelast (shape a)
           end)
          (fun idx => match idx with
                      | i :: rest => item a (rest ++ [i])
                      | [] => item a []
                      end).

(** [np.expand_dims(a, axis=1)] *)
Definition expand_dims_1 {T} (a : ndarray T) : ndarray T :=
  mkarray (match shape a with
           | d :: rest => d :: 1%nat :: rest
           | [] => [1%nat]
           end)
          (fun idx => match idx with
                      | i :: _ :: rest => item a (i :: rest)
                      | _ => item a idx
                      end).

(** [a[start:stop]], a slice of the first axis. *)
Definition getslice {T} (a : ndarray T) (s : slice) : ndarray T :=
  match shape a with
  | d :: rest =>
      mkarray ((Nat.min (snd s) d - Nat.min (fst s) d)%nat :: rest)
              (fun idx => match idx with
                          | i :: idx' => item a ((fst s + i)%nat :: idx')
                          | [] => item a []
                          end)
  | [] => a
  end.

(** The positions at which a list of booleans is true. *)
Fixpoint nonzero_from (k : nat) (mask : list bool) : list nat :=
  match mask with
  | [] => []
  | true :: m => k :: nonzero_from (S k) m
  | false :: m => nonzero_from (S k) m
  end.
Definition nonzero (mask : list bool) : list nat := nonzero_from 0 mask.

(** [a[mask]] for a list of booleans as long as the first axis. *)
Definition getmask {T} (a : ndarray T) (mask : list bool)
  : result (ndarray T) :=
  match shape a with
  | d :: rest =>
      if (List.length mask =? d)%nat then
        Ok (mkarray (List.length (nonzero mask) :: rest)
              (fun idx => match idx with
                          | i :: idx' =>
                              item a (nth i (nonzero mask) O :: idx')
                          | [] => item a []
                          end))
      else Raise (IndexError "boolean index did not match indexed array")
  | [] => Raise (IndexError "too many indices for array")
  end.

(** Broadcasting of two shapes, from the last axis backwards; the
    arguments are the reversed shapes. *)
Fixpoint broadcast_rev (ra rb : list nat) : option (list nat) :=
  match ra, rb with
  | [], _ => Some rb
  | _, [] => Some ra
  | da :: ra', db :: rb' =>
      match broadcast_rev ra' rb' with
      | None => None
      | Some r =>
          if (da =? db)%nat then Some (da :: r)
          else if (da =? 1)%nat then Some (db :: r)
          else if (db =? 1)%nat then Some (da :: r)
          else None
      end
  end.

Definition broadcast_shapes (sa sb : list nat) : option (list nat) :=
  option_map (@rev nat) (broadcast_rev (rev sa) (rev sb)).

(** The index into an operand of shape [sh] for an index into the
    broadcast result: its last axes, 0 on each axis of length one. *)
Definition broadcast_index (sh idx : list nat) : list nat :=
  map (fun di => if (fst di =? 1)%nat then O else snd di)
      (combine sh (skipn (List.length idx - List.length sh) idx)).

(** [a * b] *)
Definition multiply (a b : ndarray C) : result (ndarray C) :=
  match broadcast_shapes (shape a) (shape b) with
  | Some sh =>
      Ok (mkarray sh
            (fun idx => (item a (broadcast_index (shape a) idx)
                         * item b (broadcast_index (shape b) idx))%C))
  | None => Raise (ValueError "operands could not be broadcast together")
  end.

(** [np.sum(a, axis=0)] *)
Definition sum_axis0 (a : ndarray C) : ndarray C :=
  match shape a with
  | d :: rest => mkarray rest (fun idx => Csum d (fun m => item a (m :: idx)))
  | [] => a
  end.

(** Entrywise application, as in [a.real] or [s * a]. *)
Definition amap {T U} (f : T -> U) (a : ndarray T) : ndarray U :=
  mkarray (shape a) (fun idx => f (item a idx)).

Definition ndim {T} (a : ndarray T) : nat := List.length (shape a).

End np.

(** ** solve *)

Section Solve.

(** [np.linalg.solve] on a square system of the given size: the entries
    of the solution column. *)
Variable linalg_solve : nat -> (nat -> nat -> C) -> (nat -> C) -> nat -> C.

(** [self.dme.ravel()] *)
Definition dme_ravel (self : atomicSystem) (m : nat) : R :=
  dme self (m / n1 self)%nat (m mod n1 self)%nat.

(** [np.divide.outer(self.dme.ravel(), E_list[0]) / c.epsilon_0] *)
Definition k_alt (self : atomicSystem) (E_list0 : list R) : ndarray C :=
  mkarray [(n0 self * n1 self)%nat; List.length E_list0]
    (fun idx => RtoC (dme_ravel self (nth 0 idx O)
                      / nth (nth 1 idx O) E_list0 0 / c.epsilon_0)).

(** The array [res] of [solve] before it is reshaped: one solution
    column per detuning and field amplitude. *)
Definition solve_grid (self : atomicSystem)
           (A : R -> R -> nat -> nat -> C) (b : nat -> C)
           (w_ge E_list0 : list R) : ndarray C :=
  let size := (total_levels self * total_levels self)%nat in
  mkarray [List.length w_ge; List.length E_list0; size; 1%nat]
    (fun idx => linalg_solve size
                  (A (nth (nth 0 idx O) w_ge 0) (nth (nth 1 idx O) E_list0 0))
                  b (nth 2 idx O)).

(** The reshaping of [res] in [solve]: the axis of the density matrix
    coordinates of the squeezed array is moved to the front, and an array
    left with one axis is given a second one. *)
Definition density_axis_first (res : ndarray C) : ndarray C :=
  let res := np.moveaxis_last_first (np.squeeze res) in
  if (np.ndim res =? 1)%nat then np.expand_dims_1 res else res.

(** The part of [solve] under "Extract relevant information": from the
    array of solutions to the pair of [state_population[1].squeeze()] and
    [chi[0].squeeze()]. *)
Definition extract (self : atomicSystem) (E_list0 : list R)
           (res : ndarray C) : result (ndarray R * ndarray C) :=
  let res := density_axis_first res in
  let state_population1 :=
    np.amap Re (np.sum_axis0 (np.getslice res (slices1 self))) in
  match np.getmask res (transition_list self) with
  | Raise e => Raise e
  | Ok coherences =>
      match np.multiply coherences (k_alt self E_list0) with
      | Raise e => Raise e
      | Ok weighted =>
          let chi0 :=
            np.amap (fun z => (RtoC (abundance self * 2) * z)%C)
                    (np.sum_axis0 weighted) in
          Ok (np.squeeze state_population1, np.squeeze chi0)
      end
  end.

(** [atomicSystem.solve] *)
Definition solve (self : atomicSystem) (beams : list beam)
  : result (ndarray R * ndarray C) :=
  match beams with
  | [] => Raise (ValueError "not enough values to unpack (expected 3, got 0)")
  | beam0 :: _ =>
      let E_list0 := atleast_1d (E beam0) in
      let w_ge := atleast_1d (w beam0) in
      match generate_linear_system self with
      | Raise e => Raise e
      | Ok Ab =>
          extract self E_list0
                  (solve_grid self (fst Ab) (snd Ab) w_ge E_list0)
      end
  end.

End Solve.

(** ** One-dimensional numpy helpers *)

(** The sum of [f 0], ..., [f (n-1)] over the reals. *)
Fixpoint Rsum (n : nat) (f : nat -> R) : R :=
  match n with
  | O => 0
  | S n' => Rsum n' f + f n'
  end.

(** [a.min()] and [a.max()]: numpy raises on an empty array. *)
Definition amin (a : list R) : M R :=
  match a with
  | [] => raise (ValueError "zero-size array to reduction operation minimum")
  | x :: a' => ret (fold_left Rmin a' x)
  end.
Definition amax (a : list R) : M R :=
  match a with
  | [] => raise (ValueError "zero-size array to reduction operation maximum")
  | x :: a' => ret (fold_left Rmax a' x)
  end.

(** The least integer not below [x]. *)
Definition ceil (x : R) : Z := (1 - up (- x))%Z.

(** [np.arange(start, stop, step)]: [ceil((stop - start) / step)] points
    from [start] on, [step] apart. *)
Definition arange (start stop step : R) : list R :=
  map (fun i => start + INR i * step)
      (seq 0 (Z.to_nat (ceil ((stop - start) / step)))).

(** [enumerate] *)
Definition enumerate {X} (l : list X) : list (nat * X) :=
  combine (seq 0 (List.length l)) l.

(** [a[:, i] = col] on an array of two axes. *)
Definition set_col {T} (a : nat -> nat -> T) (i : nat) (col : nat -> T)
  : nat -> nat -> T :=
  fun d p => if (p =? i)%nat then col d else a d p.

(** The array of two axes with the given lengths and entries. *)
Definition array2 {T} (rows cols : nat) (a : nat -> nat -> T) : ndarray T :=
  mkarray [rows; cols] (fun idx => a (nth 0 idx O) (nth 1 idx O)).

(** [np.sum(m * a, axis=1)] for an array [m] of two axes with [cols]
    columns and a one-dimensional array [a], with numpy's broadcasting:
    [a] runs along the columns when it is as long as a row, a single entry
    is repeated along the row, a single column is repeated along [a], and
    any other length raises. *)
Definition sum_product_axis1 (cols : nat) (m : nat -> nat -> R) (a : list R)
  : M (nat -> R) :=
  if (List.length a =? cols)%nat then
    ret (fun d => Rsum cols (fun iv => m d iv * nth iv a 0))
  else if (List.length a =? 1)%nat then
    ret (fun d => Rsum cols (fun iv => m d iv * nth 0 a 0))
  else if (cols =? 1)%nat then
    ret (fun d => Rsum (List.length a) (fun j => m d O * nth j a 0))
  else raise (ValueError "operands could not be broadcast together").

(** The same for a complex array [a]. *)
Definition Csum_product_axis1 (cols : nat) (m : nat -> nat -> R) (a : list C)
  : M (nat -> C) :=
  if (List.length a =? cols)%nat then
    ret (fun d => Csum cols (fun iv => (RtoC (m d iv) * nth iv a (RtoC 0))%C))
  else if (List.length a =? 1)%nat then
    ret (fun d => Csum cols (fun iv => (RtoC (m d iv) * nth 0 a (RtoC 0))%C))
  else if (cols =? 1)%nat then
    ret (fun d => Csum (List.length a)
                    (fun j => (RtoC (m d O) * nth j a (RtoC 0))%C))
  else raise (ValueError "operands could not be broadcast together").

(** ** solve_w_doppler *)

Section Doppler.

Variable self : atomicSystem.

(** [self.solve] as [solve_w_doppler] uses it: for one beam with a
    single power, the excited population and the susceptibility along
    the beam's detuning array. *)
Variable solve1 : list beam -> result (list R * list C).

(** A call of [self.solve] leaves an event in the trace. *)
Definition call_solve (beams : list beam) : M (list R * list C) :=
  emit (SolveCall beams) ;;; lift (solve1 beams).

Definition v_dist (v : R) : R :=
  sqrt (mass self / (2 * c.pi * c.k * DoppT self))
  * exp (- mass self * v ^ 2 / (2 * c.k * DoppT self)).

(** The body of the loop over [enumerate(P_ge)]. *)
Definition doppler_step (beam_ge : beam) (D_ge : num) (k_ge : R)
           (v : list R) (v_distribution : nat -> nat -> R) (resolution : R)
           (st : (nat -> nat -> R) * (nat -> nat -> C)) (iP : nat * R)
  : M ((nat -> nat -> R) * (nat -> nat -> C)) :=
  b <- beam_init (mkkwargs (Some (Array (map (Rmult k_ge) v)))
                    (Some (profile beam_ge)) (Some D_ge) None None
                    (Some (Scalar (snd iP)))) ;;
  EC <- call_solve [b] ;;
  pop <- sum_product_axis1 (List.length v) v_distribution (fst EC) ;;
  let exci_state := set_col (fst st) (fst iP) (fun d => pop d * resolution) in
  sus <- Csum_product_axis1 (List.length v) v_distribution (snd EC) ;;
  let chi := set_col (snd st) (fst iP)
               (fun d => (sus d * RtoC resolution)%C) in
  ret (exci_state, chi).

Definition solve_w_doppler (beams : list beam)
  : M (ndarray R * ndarray C) :=
  beam_ge <- list_getitem beams 0 ;;
  t <- unpack3 (beam_iter beam_ge) ;;
  let w_ge := atleast_1d (fst (fst t)) in
  let P_ge := atleast_1d (snd (fst t)) in
  let D_ge := snd t in
  let k_ge := f_resonance self / c.c / 1e6 in
  let exci_state : nat -> nat -> R := const 1 in
  let chi : nat -> nat -> C := const (RtoC 0) in
  let resolution := 2 in
  wmin <- amin w_ge ;;
  wmax <- amax w_ge ;;
  let v := arange (wmin / k_ge - 1000) (wmax / k_ge + 1000) resolution in
  let v_distribution :=
    fun d iv => v_dist (nth d w_ge 0 / k_ge - nth iv v 0) in
  st <- foldM (doppler_step beam_ge D_ge k_ge v v_distribution resolution)
              (enumerate P_ge) (exci_state, chi) ;;
  ret (np.squeeze (array2 (List.length w_ge) (List.length P_ge) (fst st)),
       np.squeeze (array2 (List.length w_ge) (List.length P_ge) (snd st))).

End Doppler.

(** ** propagated_transmission *)

(** [len(w)] *)
Definition len (a : num) : M nat :=
  match a with
  | Array xs => ret (List.length xs)
  | Scalar _ => raise (TypeError "object of type 'float' has no len()")
  end.

(** The row of length [n] that an assignment [a[i] = v] stores. *)
Definition as_row (n : nat) (v : num) : M (list R) :=
  match v with
  | Scalar x => ret (repeat x n)
  | Array [x] => ret (repeat x n)
  | Array xs => if (List.length xs =? n)%nat then ret xs
                else raise (ValueError "could not broadcast input array")
  end.

(** [a[i] = row] on a list of rows. *)
Fixpoint set_row {T} (a : list (list T)) (i : nat) (row : list T)
  : list (list T) :=
  match a, i with
  | [], _ => []
  | _ :: a', O => row :: a'
  | r :: a', S i' => r :: set_row a' i' row
  end.

(** [np.product(T, axis=0)] on rows of length [n]. *)
Definition product_axis0 (n : nat) (T : list (list R)) : list R :=
  map (fun j => fold_left (fun acc row => acc * nth j row 1) T 1) (seq 0 n).

Section Propagation.

(** [self.transmission(beams, z=, doppler=, transit_type=)] *)
Variable transmission : list beam -> R -> bool -> string -> M num.

(** The body of the loop over [range(1, steps+1)]. *)
Definition propagation_step (beams : list beam) (w D : num) (n : nat)
           (dz : R) (doppler : bool) (transit_type : string)
           (PT : list (list R) * list (list R)) (i : nat)
  : M (list (list R) * list (list R)) :=
  Pmin <- amin (nth (i - 1) (fst PT) []) ;;
  beam0 <- list_getitem beams 0 ;;
  b <- beam_init (mkkwargs (Some w) (Some (profile beam0)) (Some D) None
                    None (Some (Scalar Pmin))) ;;
  t <- transmission [b] dz doppler transit_type ;;
  Ti <- as_row n t ;;
  let T := set_row (snd PT) i Ti in
  let Pi := map (fun tp => fst tp * snd tp)
                (combine Ti (nth (i - 1) (fst PT) [])) in
  ret (set_row (fst PT) i Pi, T).

Definition propagated_transmission (beams : list beam) (z : R)
           (doppler : bool) (steps : nat) (transit_type : string)
  : M (list R) :=
  beam0 <- list_getitem beams 0 ;;
  t <- unpack4 (beam_iter beam0) ;;
  let w := fst (fst (fst t)) in
  let P0 := snd (fst (fst t)) in
  let D := snd (fst t) in
  (if (steps =? 0)%nat then raise (ZeroDivisionError "division by zero")
   else ret tt) ;;;
  let dz := z / INR steps in
  n <- len w ;;
  let P := repeat (repeat 0 n) (steps + 1) in
  let T := repeat (repeat 1 n) (steps + 1) in
  row0 <- as_row n P0 ;;
  let P := set_row P 0 row0 in
  PT <- foldM (propagation_step beams w D n dz doppler transit_type)
              (seq 1 steps) (P, T) ;;
  ret (product_axis0 n (snd PT)).

End Propagation.

(** ** get_spectra: the isotopes *)

(** [f'{mass_number}'] *)
Definition str_of_nat (n : nat) : string :=
  DecimalString.NilEmpty.string_of_uint (Nat.to_uint n).

(** [{**p_dict_defaults, **p_dict}] on the entries [atomicSystem.__init__]
    reads first: the defaults hold the three fractions, and no ['Dline']. *)
Definition merge_defaults (p : p_dict) : p_dict :=
  mkp_dict (Some (match K40frac p with Some x => x | None => 0.01 end))
           (Some (match K41frac p with Some x => x | None => 6.73 end))
           (Some (match rb85frac p with Some x => x | None => 72.17 end))
           (Dline p).

Local Open Scope string_scope.

(** The five [if] statements on [Elem] of [get_spectra], for a merged
    dictionary: [mass_numbers] and [fractions], or [None] when no
    statement binds the two names (the loop then fails with
    [UnboundLocalError]). *)
Definition isotope_table (Elem : string) (p : p_dict)
  : M (option (list nat * list R)) :=
  let t := None in
  t <- (if String.eqb Elem "Li" then ret (Some ([6; 7]%nat, [7.4; 92.6]))
        else ret t) ;;
  t <- (if String.eqb Elem "Na" then ret (Some ([23]%nat, [100]))
        else ret t) ;;
  t <- (if String.eqb Elem "K" then
          k40 <- getitem "K40frac" (K40frac p) ;;
          k41 <- getitem "K41frac" (K41frac p) ;;
          k40' <- getitem "K40frac" (K40frac p) ;;
          k41' <- getitem "K41frac" (K41frac p) ;;
          ret (Some ([39; 40; 41]%nat, [100 - k40 - k41; k40'; k41']))
        else ret t) ;;
  t <- (if String.eqb Elem "Rb" then
          f <- getitem "rb85frac" (rb85frac p) ;;
          f' <- getitem "rb85frac" (rb85frac p) ;;
          ret (Some ([85; 87]%nat, [f; 100 - f']))
        else ret t) ;;
  t <- (if String.eqb Elem "Cs" then ret (Some ([133]%nat, [100]))
        else ret t) ;;
  ret t.

Local Close Scope string_scope.

(** The loop of [get_spectra] over [zip(mass_numbers, fractions)]: for
    each positive fraction, the element name passed to [atomicSystem] and
    the abundance assigned to the atom built. *)
Definition spectra_isotopes (Elem : string) (p : p_dict)
  : M (option (list (string * R))) :=
  t <- isotope_table Elem (merge_defaults p) ;;
  ret (option_map
         (fun t =>
            map (fun mf => ((Elem ++ str_of_nat (fst mf))%string,
                            snd mf / 100))
                (filter (fun mf => if Rlt_dec 0 (snd mf) then true else false)
                        (combine (fst t) (snd t))))
         t).

(** The sum of a list of numbers. *)
Definition Rlist_sum (l : list R) : R := fold_right Rplus 0 l.

(** ** Temperatures and the transit time *)

(** The entries of [p_dict] that [__init__], [initSystemProperties] and
    [update] read for the temperatures, the beam diameter and the transit
    time; [None] is an absent key. *)
Record thermal_dict : Type := mkthermal_dict {
  pd_T : option R;
  pd_Constrain : option bool;
  pd_DoppTemp : option R;
  pd_laserWaist : option R;
  pd_Gammat : option R
}.

(** The attributes [T], [DoppT] and [beam_diameter]. *)
Record thermal : Type := mkthermal {
  th_T : R;
  th_DoppT : R;
  th_beam_diameter : R
}.

(** The assignments of [self.T], [self.DoppT] and [self.beam_diameter],
    the same statements in [__init__] and in [update]; an exception leaves
    the method. *)
Definition set_thermal (p : thermal_dict) : M thermal :=
  T0 <- getitem "T" (pd_T p) ;;
  let T := T0 + 273.15 in
  constrain <- getitem "Constrain" (pd_Constrain p) ;;
  DoppT <- (if constrain : bool then ret T
            else d <- getitem "DoppTemp" (pd_DoppTemp p) ;;
                 ret (d + 273.15)) ;;
  d <- getitem "laserWaist" (pd_laserWaist p) ;;
  ret (mkthermal T DoppT d).

(** [atomicSystem.getTransitTime]; [None] is the default argument. *)
Definition getTransitTime (mass DoppT beam_diameter : R)
           (mean_speed_2d : option R) : R :=
  let mean_speed_2d :=
    match mean_speed_2d with
    | Some v => v
    | None => sqrt (PI * c.k * DoppT / 2 / mass)
    end in
  let mean_path := PI / 4 * beam_diameter in
  mean_path / Rabs mean_speed_2d.

(** [self.transit_time] as [initSystemProperties] assigns it. *)
Definition init_transit_time (mass : R) (th : thermal) (p : thermal_dict)
  : R :=
  let transit_time :=
    getTransitTime mass (th_DoppT th) (th_beam_diameter th) None * 1e6 in
  match pd_Gammat p with
  | Some g => g * 1e6
  | None => transit_time
  end.

(** [__init__] from the temperatures to the transit time: the attributes
    and [self.transit_time]. *)
Definition init_thermal (mass : R) (p : thermal_dict) : M (thermal * R) :=
  th <- set_thermal p ;;
  ret (th, init_transit_time mass th p).

(** [atomicSystem.update]: the attributes and [self.transit_time]. *)
Definition update (mass : R) (p : thermal_dict) : M (thermal * R) :=
  th <- set_thermal p ;;
  ret (th, getTransitTime mass (th_DoppT th) (th_beam_diameter th) None).

(** ** update_transit *)

(** An [atomicSystem] object after [__init__]: the attributes, the sympy
    matrix [self.master_equation] that [generateMatrices] stored, and
    [self.A], [self.b]. *)
Record instance : Type := mkinstance {
  attrs : atomicSystem;
  beam_diameter : R;
  stored_master_equation : SMat;
  stored_A : R -> R -> nat -> nat -> C;
  stored_b : nat -> C
}.

(** The assignment [self.transit_time = t]. *)
Definition set_transit_time (self : atomicSystem) (t : R) : atomicSystem :=
  mkatomicSystem (n0 self) (n1 self) (energySeparation0 self)
    (energySeparation1 self) (dme self) (Gammas self) t
    (abundance self) (mass self) (DoppT self) (f_resonance self)
    (GammaBuf self) (collisions self) (symbolic_transit self).

(** The end of [__init__], from [generateMatrices] on. *)
Definition init_matrices (self : atomicSystem) (beam_diameter : R)
  : result instance :=
  match master_equation self with
  | None => Raise (AttributeError "master_equation")
  | Some me =>
      match generate_linear_system self with
      | Raise e => Raise e
      | Ok Ab => Ok (mkinstance self beam_diameter me (fst Ab) (snd Ab))
      end
  end.

(** [atomicSystem.update_transit]; the [log.info] record with the
    formatted number is left out. *)
Definition update_transit (inst : instance) (mean_speed : R)
  : result instance :=
  let self :=
    set_transit_time (attrs inst)
      (getTransitTime (mass (attrs inst)) (DoppT (attrs inst))
                      (beam_diameter inst) (Some mean_speed) * 1e6) in
  let me := stored_master_equation inst in
  if (total_levels self =? 0)%nat then
    Raise (IndexError "Index out of range: a[0]")
  else
    let system_matrix := fun wL Efield r =>
      set_entry (me wL Efield (transit_time self) r) 0 0
        (RtoC (-1) + trace (total_levels self) r)%C in
    let A := fun wL Efield =>
      fst (linear_eq_to_matrix (total_levels self)
             (system_matrix wL Efield) (r_list self)) in
    let b := fun row => if (row =? 0)%nat then RtoC 1 else RtoC 0 in
    Ok (mkinstance self (beam_diameter inst) me A b).

(** ** Velocity distributions *)

(** [atomicSystem.rayleigh] *)
Definition rayleigh (self : atomicSystem) (v : R) : R :=
  2 * c.pi * mass self / (2 * c.pi * c.k * DoppT self)
  * exp (- mass self * v ^ 2 / (2 * c.k * DoppT self)) * v.

Section Cdf.

(** [sp.special.erf] and [sp.special.erfinv] *)
Variables erf erfinv : R -> R.

(** [atomicSystem.cdf] *)
Definition cdf (self : atomicSystem) (v : R) : R :=
  let o := sqrt (c.k * DoppT self / mass self) * sqrt 2 in
  0.5 * (1 + erf (v / o)).

(** [atomicSystem.cdfinv] *)
Definition cdfinv (self : atomicSystem) (p : R) : R :=
  let o := sqrt (c.k * DoppT self / mass self) * sqrt 2 in
  o * erfinv (2 * p - 1).

End Cdf.

(** ** From the susceptibility to the transmission *)

(** [np.sqrt] on a complex number: the root with a real part that is not
    negative; on the negative real axis the one with a positive imaginary
    part. *)
Definition csqrt (z : C) : C :=
  let m := sqrt (Re z ^ 2 + Im z ^ 2) in
  (sqrt ((m + Re z) / 2),
   (if Rle_dec 0 (Im z) then 1 else -1) * sqrt ((m - Re z) / 2)).

(** The last two statements of [optical_depth] on one entry [chi] of the
    susceptibility, for the number density [n] that [arc] returns. *)
Definition optical_depth_entry (self : atomicSystem) (n : R) (chi : C) : R :=
  let n_imag := Im (csqrt (RtoC 1 + chi * RtoC n)%C) in
  4 * c.pi * f_resonance self / c.c * n_imag.

(** [transmission] and [absorption] on one entry of the optical depth. *)
Definition transmission_entry (alpha z : R) : R := exp (alpha * z).
Definition absorption_entry (alpha z : R) : R := 1 - transmission_entry alpha z.

(** ** Vocabulary of the statements *)

(** What one pass of the loop over [j] of [Lindblad_decay] adds to
    [L[i,i]], and what the whole loop over [k] takes from [L[i,j]]. *)
Definition population_flow (r : Mat) (rates : RMat) (i j : nat) : C :=
  (RtoC (rates j i) * r j j - RtoC (rates i j) * r i i)%C.
Definition coherence_loss (self : atomicSystem) (r : Mat) (rates : RMat)
           (i j : nat) : C :=
  Csum (total_levels self)
       (fun k => (RtoC (0.5 * (rates i k + rates j k)) * r i j)%C).

(** Power to amplitude and back: a beam is built from the power [p], and a
    second one from the amplitude the first one holds. *)
Definition power_roundtrip (prof : string) (wv a p : num) : M num :=
  b1 <- beam_init (mkkwargs (Some wv) (Some prof) None (Some a) None (Some p)) ;;
  b2 <- beam_init (mkkwargs (Some wv) (Some prof) None (Some a) (Some (E b1))
                     None) ;;
  ret (P b2).

(** The records the code logs at the level WARNING. *)
Definition gaussian_warning : event :=
  Log WARNING "Use Gaussian intensity profile".

(** The element names the [if]/[elif] chain accepts, in lower case. *)
Definition supported_elements : list string :=
  ["li6"; "lithium6"; "li7"; "lithium7"; "na"; "na23"; "sodium"; "sodium23";
   "k39"; "potassium39"; "k40"; "potassium40"; "k41"; "potassium41";
   "rb85"; "rubidium85"; "rb87"; "rubidium87";
   "cs"; "cs133"; "caesium"; "caesium133"]%string.

Definition states_warning : event :=
  Log WARNING "States have been explicitly given, override Dline parameter".


(** A system with one ground and one excited sublevel. *)
Definition two_level : atomicSystem :=
  mkatomicSystem 1 1 [0] [0] (const 1) (const 1) 1 1 1 1 1 0
                 (Some "decay"%string) false.

(** All rates 1, and the state with the whole population in level 1. *)
Definition unit_rates : RMat := const 1.
Definition excited_state : Mat := unit_at (1, 1)%nat.

(** The system with [p_dict['collisions']] set to the given model. *)
Definition with_collisions (self : atomicSystem) (model : string)
  : atomicSystem :=
  mkatomicSystem (n0 self) (n1 self) (energySeparation0 self)
    (energySeparation1 self) (dme self) (Gammas self) (transit_time self)
    (abundance self) (mass self) (DoppT self) (f_resonance self)
    (GammaBuf self) (Some model) (symbolic_transit self).

(** The whole population in level 0. *)
Definition ground_population (k : nat) : C :=
  if (k =? 0)%nat then RtoC 1 else RtoC 0.

(** The calls of [self.solve] a trace records, in order. *)
Fixpoint solve_calls (tr : list event) : list (list beam) :=
  match tr with
  | [] => []
  | SolveCall beams :: tr' => beams :: solve_calls tr'
  | Log _ _ :: tr' => solve_calls tr'
  end.

(** The intensity [setP] derives from a scalar power. *)
Definition intensity (prof : string) (P : R) (A : num) : num :=
  let P' := if String.eqb prof "flat" then P else 2 * P in
  match A with
  | Scalar a => Scalar (P' / a)
  | Array xs => Array (map (Rdiv P') xs)
  end.

(** The beam [solve_w_doppler] builds for the power [P]. *)
Definition grid_beam (beam_ge : beam) (k_ge : R) (v : list R) (P : R) : beam :=
  let A := nmap (fun d => c.pi * d ^ 2 / 4) (D beam_ge) in
  mkbeam (Array (map (Rmult k_ge) v)) (profile beam_ge) (D beam_ge) A
         (Scalar P)
         (nmap (fun i => sqrt (2 * i / c.c / c.epsilon_0))
               (intensity (profile beam_ge) P A)).




(** Two ground sublevels and one excited sublevel, with dipole matrix
    elements 1 and 3. *)
Definition three_level : atomicSystem :=
  mkatomicSystem 2 1 [0; 0] [0]
                 (fun i _ => if (i =? 0)%nat then 1 else 3) (const 1)
                 1 1 1 1 1 0 (Some "decay"%string) false.

(** The mask of the ground-excited block on an index pair. *)
Definition transition_mask (self : atomicSystem) (s : nat * nat) : bool :=
  set_block (const false) (slices0 self) (slices1 self) (const true)
            (fst s) (snd s).

(** A string of ASCII characters: on these [str.lower] changes the
    letters A to Z and nothing else. *)
Fixpoint is_ascii (s : string) : bool :=
  match s with
  | EmptyString => true
  | String a s' => (nat_of_ascii a <? 128)%nat && is_ascii s'
  end.

(** Amplitude to power and back: a beam is built from the amplitude [e],
    and a second one from the power the first one holds. *)
Definition amplitude_roundtrip (prof : string) (wv a e : num) : M num :=
  b1 <- beam_init (mkkwargs (Some wv) (Some prof) None (Some a) (Some e) None) ;;
  b2 <- beam_init (mkkwargs (Some wv) (Some prof) None (Some a) None
                     (Some (P b1))) ;;
  ret (E b2).

(** All index pairs of a square matrix, row by row. *)
Definition all_pairs (N : nat) : list (nat * nat) :=
  flat_map (fun i => map (fun j => (i, j)) (seq 0 N)) (seq 0 N).

(** The value of the symbols in which the symbol number [c] of [r_list]
    is 1 and the others 0. *)
Definition symbol_at (self : atomicSystem) (c : nat) : Mat :=
  match nth_error (r_list self) c with
  | Some s => unit_at s
  | None => zeros
  end.

(** The density matrix with the coordinate vector [x]. *)
Definition density_of (self : atomicSystem) (x : nat -> C) : Mat :=
  fun i j => Csum (total_levels self * total_levels self)
               (fun c => (x c * symbol_at self c i j)%C).

(** Maps of matrices that respect sums and multiples. *)
Definition additive (F : Mat -> Mat) : Prop :=
  forall r s i j, F (Madd r s) i j = (F r i j + F s i j)%C.
Definition homogeneous (F : Mat -> Mat) : Prop :=
  forall z r i j, F (Mscale z r) i j = (z * F r i j)%C.

(** The mask of the excited-ground block on an index pair. *)
Definition transition_mask2 (self : atomicSystem) (s : nat * nat) : bool :=
  set_block (const false) (slices1 self) (slices0 self) (const true)
            (fst s) (snd s).

(** The complex conjugate. *)
Definition Cconj (z : C) : C := (fst z, - snd z).

(** A matrix that is its own conjugate transpose on the levels below [N]. *)
Definition hermitian (N : nat) (m : Mat) : Prop :=
  forall i j, (i < N)%nat -> (j < N)%nat -> m i j = Cconj (m j i).

(** The system with [p_dict['GammaBuf']] set to the given rate. *)
Definition set_GammaBuf (self : atomicSystem) (G : R) : atomicSystem :=
  mkatomicSystem (n0 self) (n1 self) (energySeparation0 self)
    (energySeparation1 self) (dme self) (Gammas self) (transit_time self)
    (abundance self) (mass self) (DoppT self) (f_resonance self)
    G (collisions self) (symbolic_transit self).

(** [GammaBuf] for an excited sublevel, 0 for a ground sublevel. *)
Definition excited_rate (self : atomicSystem) (k : nat) : R :=
  if (n0 self <=? k)%nat then GammaBuf self else 0.

(** * Properties *)

(** ** Complex arithmetic *)

Lemma C_eq (a b : C) : fst a = fst b -> snd a = snd b -> a = b.
Proof. destruct a, b; simpl; intros -> ->; reflexivity. Qed.

Ltac csimpl :=
  unfold Csub, Cadd, Cmul, Copp, Cdivr, RtoC, Ci, Re, Im in *; simpl in *.
Ltac cring := intros; apply C_eq; csimpl; ring.

Lemma C_ring_theory :
  ring_theory (RtoC 0) (RtoC 1) Cadd Cmul Csub Copp (@eq C).
Proof. constructor; try reflexivity; cring. Qed.

Add Ring C_ring : C_ring_theory.

Lemma c_pos : 0 < c.c.
Proof. unfold c.c; lra. Qed.

Lemma epsilon_0_pos : 0 < c.epsilon_0.
Proof. unfold c.epsilon_0; lra. Qed.

(** ** The beam class *)

Lemma amplitude_sq (i : R) :
  0 <= i ->
  sqrt (2 * i / c.c / c.epsilon_0) * (sqrt (2 * i / c.c / c.epsilon_0) * 1)
  = 2 * i / c.c / c.epsilon_0.
Proof.
  intros Hi. rewrite Rmult_1_r. apply sqrt_sqrt.
  pose proof c_pos. pose proof epsilon_0_pos.
  unfold Rdiv.
  repeat apply Rmult_le_pos; try lra; left; now apply Rinv_0_lt_compat.
Qed.

(** The gaussian round trip gives the power back. *)
Lemma power_roundtrip_gaussian (wv : num) (a p : R) (tr : list event) :
  0 < a -> 0 <= p ->
  fst (power_roundtrip "gaussian" wv (Scalar a) (Scalar p) tr)
  = Ok (Scalar p).
Proof.
  intros Ha Hp.
  pose proof c_pos as Hc. pose proof epsilon_0_pos as He.
  cbn. do 2 f_equal. rewrite amplitude_sq.
  - unfold Rdiv. field. lra.
  - unfold Rdiv. apply Rmult_le_pos; [lra|].
    left; now apply Rinv_0_lt_compat.
Qed.

(** The flat round trip gives half of it. *)
Lemma power_roundtrip_flat (wv : num) (a p : R) (tr : list event) :
  0 < a -> 0 <= p ->
  fst (power_roundtrip "flat" wv (Scalar a) (Scalar p) tr)
  = Ok (Scalar (p / 2)).
Proof.
  intros Ha Hp.
  pose proof c_pos as Hc. pose proof epsilon_0_pos as He.
  cbn. do 2 f_equal. rewrite amplitude_sq.
  - field. lra.
  - unfold Rdiv. apply Rmult_le_pos; [lra|].
    left; now apply Rinv_0_lt_compat.
Qed.

(** C4: on real numbers the round trip power, amplitude, power returns the
    power for the gaussian profile, and half the power for the flat one:
    [setE] divides the area by 4 whatever the profile. *)
Theorem power_roundtrip_profiles (wv : num) (a p : R) (tr : list event) :
  0 < a -> 0 <= p ->
  fst (power_roundtrip "gaussian" wv (Scalar a) (Scalar p) tr)
    = Ok (Scalar p)
  /\ fst (power_roundtrip "flat" wv (Scalar a) (Scalar p) tr)
    = Ok (Scalar (p / 2)).
Proof.
  intros Ha Hp. split.
  - apply power_roundtrip_gaussian; assumption.
  - apply power_roundtrip_flat; assumption.
Qed.

Lemma power_roundtrip_profiles_witness :
  fst (power_roundtrip "gaussian" (Array [0]) (Scalar 1) (Scalar 1) [])
    = Ok (Scalar 1)
  /\ fst (power_roundtrip "flat" (Array [0]) (Scalar 1) (Scalar 1) [])
    = Ok (Scalar (1 / 2)).
Proof.
  apply (power_roundtrip_profiles (Array [0]) 1 1 []); lra.
Defined.

(** The flat round trip does not give the power back. *)
Lemma power_roundtrip_flat_differs :
  fst (power_roundtrip "flat" (Array [0]) (Scalar 1) (Scalar 1) [])
    <> Ok (Scalar 1).
Proof.
  rewrite power_roundtrip_flat by lra.
  intros Heq. injection Heq. lra.
Qed.

Lemma nlift2_trace f x y tr v tr' : nlift2 f x y tr = (v, tr') -> tr' = tr.
Proof.
  unfold nlift2, ret, raise.
  destruct x as [x|xs], y as [y|ys]; try (intros [= _ <-]; reflexivity).
  destruct (_ =? _)%nat; [intros [= _ <-]; reflexivity|].
  destruct xs as [|x [|x' xs]]; destruct ys as [|y [|y' ys]];
    intros [= _ <-]; reflexivity.
Qed.

(** C10: a beam built from keyword arguments without ['profile'] has the
    profile ['gaussian'] and the warning is in the log; [setP] on a beam
    whose profile is neither ['flat'] nor ['gaussian'] raises [KeyError]. *)
Theorem beam_profile_default_and_KeyError :
  (forall kw tr b tr',
      kw_profile kw = None ->
      beam_init kw tr = (Ok b, tr') ->
      profile b = "gaussian"%string /\
      exists tr'', tr' = tr ++ gaussian_warning :: tr'')
  /\
  (forall self P tr,
      profile self <> "flat"%string ->
      profile self <> "gaussian"%string ->
      exists tr',
        setP self P tr = (Raise (KeyError "no beam profile specified"), tr')).
Proof.
  split.
  - intros kw tr b tr' Hprof Hinit.
    unfold beam_init in Hinit. rewrite Hprof in Hinit.
    destruct (kw_w kw) as [wv|]; [|discriminate].
    cbn in Hinit.
    destruct (kw_D kw) as [d|]; [|destruct (kw_A kw) as [a|]; [|discriminate]];
      cbn in Hinit.
    all: destruct (kw_E kw) as [e|]; [|destruct (kw_P kw) as [p|]; [|discriminate]].
    all: unfold setE, setP, bind in Hinit; cbn in Hinit.
    all: repeat match type of Hinit with
           | context [nlift2 ?f ?x ?y ?t] =>
               destruct (nlift2 f x y t) as [[?|?] ?] eqn:?
           end; try discriminate.
    all: injection Hinit as <- <-.
    all: split; [reflexivity|].
    all: repeat match goal with
           | H : nlift2 _ _ _ _ = _ |- _ =>
               apply nlift2_trace in H; subst
           end.
    all: try (eexists; rewrite <- app_assoc; reflexivity).
    all: eexists; reflexivity.
  - intros self P0 tr Hf Hg.
    unfold setP, bind, log_info, emit.
    apply String.eqb_neq in Hf. apply String.eqb_neq in Hg.
    rewrite Hf, Hg. eexists. reflexivity.
Qed.

Lemma beam_profile_default_and_KeyError_witness :
  (exists b tr',
      beam_init (mkkwargs (Some (Array [0])) None (Some (Scalar 1)) None None
                   (Some (Scalar 1))) [] = (Ok b, tr')
      /\ profile b = "gaussian"%string
      /\ exists tr'', tr' = [] ++ gaussian_warning :: tr'')
  /\ exists tr',
      setP (mkbeam (Array [0]) "tophat" (Scalar 1) (Scalar 1) (Scalar 1)
              (Scalar 1)) (Scalar 1) []
      = (Raise (KeyError "no beam profile specified"), tr').
Proof.
  destruct beam_profile_default_and_KeyError as [Hdefault Hkey].
  split.
  - eexists; eexists; split; [reflexivity|].
    exact (Hdefault (mkkwargs (Some (Array [0])) None (Some (Scalar 1)) None
                       None (Some (Scalar 1))) [] _ _ eq_refl eq_refl).
  - apply Hkey; simpl; discriminate.
Defined.

(** ** Construction of an atomicSystem *)

(** An element outside the supported names raises [ValueError]. *)
Lemma select_atom_unsupported (element : string) (p : p_dict) tr :
  str_in (lower element) supported_elements = false ->
  select_atom element p tr = (Raise (ValueError ""), tr).
Proof.
  unfold select_atom, str_in, supported_elements. cbn [existsb].
  intros H.
  repeat (apply orb_false_elim in H; destruct H as [?H H]).
  repeat match goal with
         | H : String.eqb _ _ = false |- _ => rewrite H; clear H
         end.
  reflexivity.
Qed.

(** Without custom states a line other than ['D1'] and ['D2'] raises
    [ValueError]. *)
Lemma select_states_unsupported_line gsN atom (p : p_dict) (d : string) tr :
  Dline p = Some d -> d <> "D1"%string -> d <> "D2"%string ->
  select_states gsN atom p None tr = (Raise (ValueError ""), tr).
Proof.
  intros Hd H1 H2. unfold select_states. rewrite Hd. cbn.
  apply String.eqb_neq in H1. apply String.eqb_neq in H2.
  unfold bind, ret. cbn. rewrite H1, H2. reflexivity.
Qed.

(** C8: for every custom list of at least two states, whatever their total
    angular momenta, the branch on [states] sets [Dline] to ['D1'] and
    returns: the difference it tests is [states[1].j - states[1].j], so the
    [ValueError] for an unsupported difference is never raised. *)
Theorem select_states_custom_never_raises
        gsN atom (p : p_dict) (s0 s1 : state) (rest : list state) tr :
  select_states gsN atom p (Some (s0 :: s1 :: rest)) tr
  = (Ok (s0 :: s1 :: rest, set_Dline p "D1"), tr ++ [states_warning]).
Proof.
  unfold select_states, bind, log_warning, emit, list_getitem, ret. cbn.
  destruct (Rlt_dec (st_j s1 - st_j s1) 0.9) as [_|Hn]; [reflexivity|].
  exfalso. apply Hn. lra.
Qed.

(** Rubidium 87 with a 5S1/2 and a 5D5/2 level: the difference of the
    total angular momenta is 2 and the construction goes on with ['D1']. *)
Example atomicSystem_init_J_difference_2 gsN :
  fst (atomicSystem_init gsN "Rb87"
         (mkp_dict None None (Some 72.17) (Some "D2"%string))
         (Some [mkstate 5 0 (1 / 2) None; mkstate 5 2 (5 / 2) None]) [])
  = Ok (Rubidium87, Some (1 - 72.17 / 100),
        [mkstate 5 0 (1 / 2) None; mkstate 5 2 (5 / 2) None],
        mkp_dict None None (Some 72.17) (Some "D1"%string)).
Proof.
  unfold atomicSystem_init, bind.
  change (select_atom "Rb87"
            (mkp_dict None None (Some 72.17) (Some "D2"%string)) [])
    with (@Ok (arc_atom * option R) (Rubidium87, Some (1 - 72.17 / 100)),
          @nil event).
  unfold select_states, bind, log_warning, emit, list_getitem, ret. cbn.
  destruct (Rlt_dec (5 / 2 - 5 / 2) 0.9) as [_|Hn]; [reflexivity|].
  exfalso. apply Hn. lra.
Qed.

(** ** propagated_transmission *)

(** C5: [propagated_transmission] raises [ValueError] for every beam, step
    count and path length: the iterator of a beam yields three values and
    the first statement unpacks four. *)
Theorem propagated_transmission_raises
        transmission (b : beam) (beams : list beam) (z : R) (doppler : bool)
        (steps : nat) (transit_type : string) tr :
  propagated_transmission transmission (b :: beams) z doppler steps
    transit_type tr
  = (Raise (ValueError "wrong number of values to unpack (expected 4)"), tr).
Proof. reflexivity. Qed.

(** ** The transit-time rate matrix *)



(** ** The Lindblad operators *)

Ltac nat_cases :=
  repeat match goal with
         | |- context [(?a =? ?b)%nat] => destruct (Nat.eqb_spec a b)
         | |- context [(?a <? ?b)%nat] => destruct (Nat.ltb_spec a b)
         | |- context [(?a <=? ?b)%nat] => destruct (Nat.leb_spec a b)
         end;
  subst; cbn [andb orb negb]; try lia.

Lemma Csum_ext (n : nat) (f g : nat -> C) :
  (forall k, (k < n)%nat -> f k = g k) -> Csum n f = Csum n g.
Proof.
  induction n as [|n IH]; intros Hfg; [reflexivity|].
  cbn. rewrite IH by (intros; apply Hfg; lia).
  rewrite Hfg by lia. reflexivity.
Qed.

Lemma Csum_zero (n : nat) (f : nat -> C) :
  (forall k, (k < n)%nat -> f k = RtoC 0) -> Csum n f = RtoC 0.
Proof.
  induction n as [|n IH]; intros Hf; [reflexivity|].
  cbn. rewrite IH by (intros; apply Hf; lia).
  rewrite Hf by lia. ring.
Qed.

Lemma Csum_scale (n : nat) (c0 : R) (f : nat -> R) (z : C) :
  Csum n (fun k => (RtoC (c0 * f k) * z)%C) = (RtoC (c0 * Rsum n f) * z)%C.
Proof.
  induction n as [|n IH]; cbn.
  - cring.
  - rewrite IH. cring.
Qed.

Section LindbladClosedForms.

Variables (self : atomicSystem) (r : Mat) (rates : RMat).
Let N := total_levels self.

Lemma decay_k_loop (i j n : nat) (L : Mat) (a b : nat) :
  fold_left (decay_k r rates i j) (seq 0 n) L a b
  = if (a =? i)%nat && (b =? j)%nat
    then (L i j - Csum n (fun k =>
               RtoC (0.5 * (rates i k + rates j k)) * r i j))%C
    else L a b.
Proof.
  revert a b; induction n as [|n IH]; intros a b.
  - cbn. nat_cases; try reflexivity; ring.
  - rewrite seq_S, fold_left_app. cbn [fold_left Nat.add].
    unfold decay_k at 1, set_entry. rewrite !IH.
    rewrite !Nat.eqb_refl. cbn [andb Csum].
    nat_cases; try reflexivity; ring.
Qed.

Lemma decay_j_loop (i n : nat) (L : Mat) (a b : nat) :
  fold_left (decay_j self r rates i) (seq 0 n) L a b
  = if (a =? i)%nat then
      if (b =? i)%nat then (L i i + Csum n (population_flow r rates i))%C
      else if (b <? n)%nat then (L i b - coherence_loss self r rates i b)%C
           else L i b
    else L a b.
Proof.
  revert a b; induction n as [|n IH]; intros a b.
  - cbn. nat_cases; try reflexivity; ring.
  - rewrite seq_S, fold_left_app. cbn [fold_left Nat.add].
    unfold decay_j at 1. fold N.
    destruct (Nat.eqb_spec i n) as [->|Hin]; cbn [negb].
    + unfold set_entry. rewrite !IH. rewrite !Nat.eqb_refl.
      cbn [Csum]. unfold population_flow.
      nat_cases; try reflexivity; ring.
    + rewrite decay_k_loop. unfold set_entry. rewrite !IH.
      rewrite !Nat.eqb_refl. cbn [Csum]. fold (coherence_loss self r rates i n).
      unfold population_flow.
      nat_cases; try reflexivity; ring.
Qed.

Lemma decay_i_loop (n : nat) (L : Mat) (a b : nat) :
  fold_left (fun L i => fold_left (decay_j self r rates i) (seq 0 N) L)
            (seq 0 n) L a b
  = if (a <? n)%nat then
      if (b =? a)%nat then (L a a + Csum N (population_flow r rates a))%C
      else if (b <? N)%nat then (L a b - coherence_loss self r rates a b)%C
           else L a b
    else L a b.
Proof.
  revert a b; induction n as [|n IH]; intros a b.
  - reflexivity.
  - rewrite seq_S, fold_left_app. cbn [fold_left Nat.add].
    rewrite decay_j_loop. rewrite !IH.
    nat_cases; reflexivity.
Qed.

(** Every entry of the matrix [Lindblad_decay] returns. *)
Lemma Lindblad_decay_entry (a b : nat) :
  Lindblad_decay self r rates a b
  = if (a <? N)%nat then
      if (b =? a)%nat then Csum N (population_flow r rates a)
      else if (b <? N)%nat then (- coherence_loss self r rates a b)%C
           else RtoC 0
    else RtoC 0.
Proof.
  unfold Lindblad_decay. fold N. rewrite decay_i_loop.
  unfold zeros. nat_cases; try reflexivity; ring.
Qed.

Lemma dephase_j_loop (i n : nat) (L : Mat) (a b : nat) :
  fold_left (dephase_j r rates i) (seq 0 n) L a b
  = if (a =? i)%nat && (b <? n)%nat && negb (b =? i)%nat
    then (L i b - RtoC (0.5 * rates i b) * r i b)%C
    else L a b.
Proof.
  revert a b; induction n as [|n IH]; intros a b.
  - cbn. nat_cases; reflexivity.
  - rewrite seq_S, fold_left_app. cbn [fold_left Nat.add].
    unfold dephase_j at 1.
    destruct (Nat.eqb_spec i n) as [->|Hin]; cbn [negb].
    + rewrite IH. nat_cases; reflexivity.
    + unfold set_entry. rewrite !IH.
      nat_cases; reflexivity.
Qed.

Lemma dephase_i_loop (n : nat) (L : Mat) (a b : nat) :
  fold_left (fun L i => fold_left (dephase_j r rates i) (seq 0 N) L)
            (seq 0 n) L a b
  = if (a <? n)%nat && (b <? N)%nat && negb (b =? a)%nat
    then (L a b - RtoC (0.5 * rates a b) * r a b)%C
    else L a b.
Proof.
  revert a b; induction n as [|n IH]; intros a b.
  - reflexivity.
  - rewrite seq_S, fold_left_app. cbn [fold_left Nat.add].
    rewrite dephase_j_loop. rewrite !IH.
    nat_cases; reflexivity.
Qed.

(** Every entry of the matrix [Lindblad_dephase] returns. *)
Lemma Lindblad_dephase_entry (a b : nat) :
  Lindblad_dephase self r rates a b
  = if (a <? N)%nat && (b <? N)%nat && negb (b =? a)%nat
    then (- (RtoC (0.5 * rates a b) * r a b))%C
    else RtoC 0.
Proof.
  unfold Lindblad_dephase. fold N. rewrite dephase_i_loop.
  unfold zeros. nat_cases; try reflexivity; ring.
Qed.

End LindbladClosedForms.

(** C2: for levels [i], [j] of the system, [Lindblad_decay] holds the flow
    [sum_j (G[j,i] x_jj - G[i,j] x_ii)] on the diagonal and, off the
    diagonal, minus [0.5 sum_k (G[i,k] + G[j,k]) x_ij]; [Lindblad_dephase]
    holds minus [0.5 G[i,j] x_ij] off the diagonal and 0 on it. *)
Theorem Lindblad_operators_entries
        (self : atomicSystem) (r : Mat) (rates : RMat) (i j : nat) :
  (i < total_levels self)%nat -> (j < total_levels self)%nat ->
  Lindblad_decay self r rates i i
  = Csum (total_levels self)
      (fun j' => (RtoC (rates j' i) * r j' j' - RtoC (rates i j') * r i i)%C)
  /\ (i <> j ->
      Lindblad_decay self r rates i j
      = (- (RtoC (0.5 * Rsum (total_levels self)
                          (fun k => rates i k + rates j k)%R) * r i j))%C)
  /\ (i <> j ->
      Lindblad_dephase self r rates i j
      = (- (RtoC (0.5 * rates i j) * r i j))%C)
  /\ Lindblad_dephase self r rates i i = RtoC 0.
Proof.
  intros Hi Hj. rewrite !Lindblad_decay_entry, !Lindblad_dephase_entry.
  unfold coherence_loss, population_flow.
  repeat split; try intros Hij; nat_cases; try reflexivity.
  f_equal.
  apply (Csum_scale _ 0.5 (fun k => rates i k + rates j k)).
Qed.

Lemma Lindblad_operators_entries_witness :
  Lindblad_decay two_level excited_state unit_rates O O
  = Csum (total_levels two_level)
      (fun j' => (RtoC (unit_rates j' O) * excited_state j' j'
                  - RtoC (unit_rates O j') * excited_state O O)%C)
  /\ (O <> 1%nat ->
      Lindblad_decay two_level excited_state unit_rates O 1%nat
      = (- (RtoC (0.5 * Rsum (total_levels two_level)
                          (fun k => unit_rates O k + unit_rates 1%nat k)%R)
            * excited_state O 1%nat))%C)
  /\ (O <> 1%nat ->
      Lindblad_dephase two_level excited_state unit_rates O 1%nat
      = (- (RtoC (0.5 * unit_rates O 1%nat) * excited_state O 1%nat))%C)
  /\ Lindblad_dephase two_level excited_state unit_rates O O = RtoC 0.
Proof.
  apply (Lindblad_operators_entries two_level excited_state unit_rates
           O 1%nat); cbn; lia.
Defined.

(** ** The two collision models without buffer gas *)

Lemma Lindblad_dephase_zero_rates (self : atomicSystem) (r : Mat)
      (rates : RMat) :
  (forall a b, rates a b = 0) ->
  forall a b, Lindblad_dephase self r rates a b = RtoC 0.
Proof.
  intros Hz a b. rewrite Lindblad_dephase_entry, Hz.
  destruct (_ && _); cring.
Qed.

(** Apart from the model, the system is the one it was. *)
Lemma with_collisions_parts (self : atomicSystem) (model : string) :
  coherent (with_collisions self model) = coherent self
  /\ g_dec (with_collisions self model) = g_dec self
  /\ g_transit (with_collisions self model) = g_transit self
  /\ Lindblad_decay (with_collisions self model) = Lindblad_decay self
  /\ Lindblad_dephase (with_collisions self model) = Lindblad_dephase self
  /\ slices0 (with_collisions self model) = slices0 self
  /\ slices1 (with_collisions self model) = slices1 self
  /\ GammaBuf (with_collisions self model) = GammaBuf self
  /\ n0 (with_collisions self model) = n0 self
  /\ collisions_or_default (with_collisions self model) = model.
Proof. repeat split. Qed.

Lemma master_equation_models (self : atomicSystem) :
  GammaBuf self = 0 ->
  master_equation (with_collisions self "decay")
  = master_equation (with_collisions self "dephase").
Proof.
  intros HG. unfold master_equation.
  destruct (with_collisions_parts self "decay")
    as (-> & -> & -> & -> & -> & -> & -> & -> & -> & ->).
  destruct (with_collisions_parts self "dephase")
    as (-> & -> & -> & -> & -> & -> & -> & -> & -> & ->).
  rewrite HG.
  change (String.eqb "decay" "decay") with true.
  change (String.eqb "dephase" "decay") with false.
  change (String.eqb "dephase" "dephase") with true.
  cbv iota. f_equal.
  apply functional_extensionality; intros wL.
  apply functional_extensionality; intros Efield.
  apply functional_extensionality; intros tau_t.
  apply functional_extensionality; intros r.
  apply functional_extensionality; intros i.
  apply functional_extensionality; intros j.
  unfold Msub.
  rewrite Lindblad_dephase_zero_rates.
  - replace (Radd (Radd (g_dec self) (g_transit self tau_t)) _)
      with (Radd (g_dec self) (g_transit self tau_t)).
    + cring.
    + apply functional_extensionality; intros a.
      apply functional_extensionality; intros b.
      unfold Radd, set_block, const, Rzeros.
      destruct (_ && _); unfold Rdiv; ring.
  - intros a b. unfold set_block, const, Rzeros.
    repeat destruct (_ && _); reflexivity.
Qed.

(** C6: without buffer gas ([GammaBuf] 0) the decay model and the dephase
    model give the same master equation, the same [A] and [b], and the same
    results of [solve]. *)
Theorem collision_models_agree
        (self : atomicSystem) linalg_solve (beams : list beam) :
  GammaBuf self = 0 ->
  master_equation (with_collisions self "decay")
  = master_equation (with_collisions self "dephase")
  /\ generate_linear_system (with_collisions self "decay")
     = generate_linear_system (with_collisions self "dephase")
  /\ solve linalg_solve (with_collisions self "decay") beams
     = solve linalg_solve (with_collisions self "dephase") beams.
Proof.
  intros HG. pose proof (master_equation_models self HG) as Hme.
  assert (Hsm : system_matrix (with_collisions self "decay")
                = system_matrix (with_collisions self "dephase")).
  { unfold system_matrix. rewrite Hme. reflexivity. }
  assert (Hgls : generate_linear_system (with_collisions self "decay")
                 = generate_linear_system (with_collisions self "dephase")).
  { unfold generate_linear_system. rewrite Hsm. reflexivity. }
  repeat split; trivial.
  unfold solve. rewrite Hgls. reflexivity.
Qed.

Lemma collision_models_agree_witness :
  master_equation (with_collisions two_level "decay")
  = master_equation (with_collisions two_level "dephase")
  /\ generate_linear_system (with_collisions two_level "decay")
     = generate_linear_system (with_collisions two_level "dephase")
  /\ solve (fun _ _ b => b) (with_collisions two_level "decay") []
     = solve (fun _ _ b => b) (with_collisions two_level "dephase") [].
Proof.
  apply (collision_models_agree two_level (fun _ _ b => b) []). reflexivity.
Defined.

(** ** Trace normalization *)

Lemma nth_error_matrix2list_diag {T} (N : nat) (mat : nat -> nat -> T)
      (k : nat) :
  (k < N)%nat -> nth_error (matrix2list N mat) k = Some (mat k k).
Proof.
  intros Hk. unfold matrix2list.
  rewrite nth_error_app1 by (rewrite length_map, length_seq; exact Hk).
  rewrite nth_error_map, nth_error_seq.
  destruct (Nat.ltb_spec k N); [reflexivity|lia].
Qed.

Lemma nth_error_matrix2list_off {T} (N : nat) (mat : nat -> nat -> T)
      (k : nat) (v : T) :
  (N <= k)%nat -> nth_error (matrix2list N mat) k = Some v ->
  exists i j, i <> j /\ v = mat i j.
Proof.
  intros Hk Hn. unfold matrix2list in Hn.
  rewrite nth_error_app2 in Hn by (rewrite length_map, length_seq; exact Hk).
  apply nth_error_In in Hn. apply in_app_or in Hn.
  destruct Hn as [Hin|Hin]; apply in_flat_map in Hin;
    destruct Hin as (i & _ & Hin); apply in_map_iff in Hin;
    destruct Hin as (j & <- & Hj); apply in_seq in Hj.
  - exists i, j. split; [lia|reflexivity].
  - exists j, i. split; [lia|reflexivity].
Qed.

Lemma trace_unit_at (N i j : nat) :
  trace N (unit_at (i, j))
  = if (i =? j)%nat && (i <? N)%nat then RtoC 1 else RtoC 0.
Proof.
  unfold trace, unit_at. cbn [fst snd].
  induction N as [|N IH]; cbn [Csum].
  - rewrite andb_false_r. reflexivity.
  - rewrite IH. nat_cases; cring.
Qed.

Lemma trace_zeros (N : nat) : trace N zeros = RtoC 0.
Proof. apply Csum_zero. reflexivity. Qed.

(** A sum whose terms beyond the first [n] are 0. *)
Lemma Csum_prefix (n m : nat) (f g : nat -> C) :
  (n <= m)%nat ->
  (forall k, (k < n)%nat -> f k = g k) ->
  (forall k, (n <= k < m)%nat -> f k = RtoC 0) ->
  Csum m f = Csum n g.
Proof.
  intros Hnm Hlow Hhigh. induction m as [|m IH].
  - replace n with O by lia. reflexivity.
  - destruct (Nat.eq_dec n (S m)) as [->|Hne].
    + apply Csum_ext. exact Hlow.
    + cbn [Csum]. rewrite IH by (try lia; intros; apply Hhigh; lia).
      rewrite Hhigh by lia. ring.
Qed.

(** The first row of [A]: 1 on the population coordinates, 0 on the
    coherences. *)
Lemma first_row (self : atomicSystem) A b (wL Efield : R) (col : nat) :
  generate_linear_system self = Ok (A, b) ->
  A wL Efield O col
  = if (col <? total_levels self)%nat then RtoC 1 else RtoC 0.
Proof.
  unfold generate_linear_system, system_matrix.
  destruct (master_equation self) as [me|]; [|discriminate].
  destruct (Nat.eqb_spec (total_levels self) 0) as [|HN]; [discriminate|].
  intros [= <- _]. cbn [fst linear_eq_to_matrix].
  rewrite Nat.Div0.div_0_l, Nat.Div0.mod_0_l.
  unfold set_entry. cbn [Nat.eqb andb]. rewrite trace_zeros.
  destruct (Nat.ltb_spec col (total_levels self)) as [Hc|Hc].
  - unfold r_list. rewrite nth_error_matrix2list_diag by exact Hc.
    rewrite trace_unit_at. nat_cases; cring.
  - destruct (nth_error (r_list self) col) as [[i j]|] eqn:Hnth;
      [|reflexivity].
    apply nth_error_matrix2list_off in Hnth; [|exact Hc].
    destruct Hnth as (i' & j' & Hij & [= -> ->]).
    rewrite trace_unit_at. nat_cases; cring.
Qed.

(** C1: every solution [x] of [A(wL, Efield) x = b] has populations, its
    first [total_levels] coordinates, that sum to 1. *)
Theorem population_conservation
        (self : atomicSystem) A b (wL Efield : R) (x : nat -> C) :
  generate_linear_system self = Ok (A, b) ->
  solves (total_levels self * total_levels self) (A wL Efield) b x ->
  Csum (total_levels self) x = RtoC 1.
Proof.
  intros Hgls Hsol.
  assert (HN : total_levels self <> O).
  { unfold generate_linear_system, system_matrix in Hgls.
    destruct (master_equation self); [|discriminate].
    destruct (Nat.eqb_spec (total_levels self) 0); [discriminate|assumption]. }
  assert (Hb : b O = RtoC 1).
  { unfold generate_linear_system in Hgls.
    destruct (system_matrix self); [|discriminate].
    injection Hgls as _ <-. reflexivity. }
  rewrite <- Hb, <- (Hsol O) by nia.
  symmetry. apply Csum_prefix.
  - nia.
  - intros k Hk. rewrite (first_row self A b) by exact Hgls.
    nat_cases; cring.
  - intros k Hk. rewrite (first_row self A b) by exact Hgls.
    nat_cases; cring.
Qed.

Lemma population_conservation_witness :
  Csum (total_levels two_level) ground_population = RtoC 1.
Proof.
  eapply (population_conservation two_level _ _ 0 0 ground_population).
  - reflexivity.
  - intros row Hrow.
    destruct row as [|[|[|[|row]]]];
      [| | | |exfalso; cbn in Hrow; lia];
      cbv -[Rplus Rminus Rmult Rdiv Ropp Rinv Q2R IZR Z.pow_pos];
      f_equal; lra.
Defined.

(** ** solve_w_doppler *)

Lemma solve_calls_app (tr1 tr2 : list event) :
  solve_calls (tr1 ++ tr2) = solve_calls tr1 ++ solve_calls tr2.
Proof.
  induction tr1 as [|[lvl msg|beams] tr1 IH]; cbn; [reflexivity|exact IH|].
  rewrite IH. reflexivity.
Qed.




Lemma grid_beam_init (beam_ge : beam) (k_ge : R) (v : list R) (P : R) tr :
  profile beam_ge = "flat"%string \/ profile beam_ge = "gaussian"%string ->
  beam_init (mkkwargs (Some (Array (map (Rmult k_ge) v)))
               (Some (profile beam_ge)) (Some (D beam_ge)) None None
               (Some (Scalar P))) tr
  = (Ok (grid_beam beam_ge k_ge v P),
     tr ++ [Log INFO ("Beam profile used: " ++ profile beam_ge)]).
Proof.
  intros Hprof. unfold beam_init, grid_beam, intensity, setP, bind. cbn.
  destruct Hprof as [-> | ->]; cbn;
    destruct (D beam_ge) as [d|ds]; reflexivity.
Qed.

Lemma Rsum_ext (n : nat) (f g : nat -> R) :
  (forall k, (k < n)%nat -> f k = g k) -> Rsum n f = Rsum n g.
Proof.
  induction n as [|n IH]; intros Hfg; [reflexivity|].
  cbn. rewrite IH by (intros; apply Hfg; lia).
  rewrite Hfg by lia. reflexivity.
Qed.



Section DopplerLoop.

Variables (self : atomicSystem) (solve1 : list beam -> result (list R * list C)).
Variables (beam_ge : beam) (k_ge : R) (v : list R).
Variable v_distribution : nat -> nat -> R.
Variable out : beam -> list R * list C.

Hypothesis Hprofile :
  profile beam_ge = "flat"%string \/ profile beam_ge = "gaussian"%string.
Hypothesis Hsolve : forall b, solve1 [b] = Ok (out b).
Hypothesis Hlength :
  forall P, List.length (fst (out (grid_beam beam_ge k_ge v P)))
            = List.length v
            /\ List.length (snd (out (grid_beam beam_ge k_ge v P)))
               = List.length v.


End DopplerLoop.

Lemma ceil_spec (x : R) : IZR (ceil x) - 1 < x <= IZR (ceil x).
Proof.
  unfold ceil. rewrite minus_IZR.
  destruct (archimed (- x)) as [Hgt Hle]. lra.
Qed.


Lemma arange_bounds (start stop step x : R) :
  0 < step -> In x (arange start stop step) -> start <= x < stop.
Proof.
  intros Hstep Hin. unfold arange in Hin.
  apply in_map_iff in Hin. destruct Hin as (i & <- & Hi).
  apply in_seq in Hi. destruct Hi as [_ Hi]. rewrite Nat.add_0_l in Hi.
  pose proof (pos_INR i) as Hpos.
  split; [nra|].
  assert (Hlt : INR i < (stop - start) / step).
  { destruct (ceil_spec ((stop - start) / step)) as [Hc _].
    assert (Hz : (Z.of_nat i < ceil ((stop - start) / step))%Z) by lia.
    apply IZR_lt in Hz. rewrite <- INR_IZR_INZ in Hz.
    assert (Hz' : (Z.of_nat i + 1 <= ceil ((stop - start) / step))%Z) by lia.
    apply IZR_le in Hz'. rewrite plus_IZR, <- INR_IZR_INZ in Hz'. lra. }
  apply (Rmult_lt_compat_r step) in Hlt; [|exact Hstep].
  unfold Rdiv in Hlt. rewrite Rmult_assoc, Rinv_l, Rmult_1_r in Hlt by lra.
  lra.
Qed.








(** ** The susceptibility on a grid of detunings and amplitudes *)

(** The coordinates of the two coherences between a ground and the excited
    sublevel are 4 and 5. *)
Example three_level_transitions :
  r_list three_level
  = [(0, 0); (1, 1); (2, 2); (0, 1); (0, 2); (1, 2); (1, 0); (2, 0); (2, 1)]%nat
  /\ transition_list three_level
     = [false; false; false; false; true; true; false; false; false]
  /\ np.nonzero (transition_list three_level) = [4; 5]%nat.
Proof. repeat split. Qed.

(** On [three_level], two detunings and two amplitudes, the susceptibility
    [solve] returns at the detuning [iw] and the amplitude [ie] weights
    both coherences, the coordinates 4 and 5 of the solution, with the
    dipole matrix element number [iw]. *)
Example three_level_grid_weights
        linalg_solve (w0 w1 e0 e1 : R) (wv pv : num) (prof : string)
        (dv av : num) (beams : list beam) (iw ie : nat) :
  exists A b pop chi,
    generate_linear_system three_level = Ok (A, b)
    /\ solve linalg_solve three_level
         (mkbeam (Array [w0; w1]) prof dv av pv (Array [e0; e1]) :: beams)
       = Ok (pop, chi)
    /\ shape chi = [2; 2]%nat
    /\ let x := linalg_solve 9%nat
                  (A (nth iw [w0; w1] 0) (nth ie [e0; e1] 0)) b in
       let weight :=
         RtoC (dme_ravel three_level iw / nth ie [e0; e1] 0 / c.epsilon_0) in
       item chi [iw; ie]
       = (RtoC (abundance three_level * 2)
          * (RtoC 0 + x 4%nat * weight + x 5%nat * weight))%C.
Proof.
  do 4 eexists. split; [reflexivity|]. split; [reflexivity|].
  split; reflexivity.
Qed.

(** With a single amplitude each coherence has its own weight. *)
Example solve_line_weights
        linalg_solve (w0 w1 e0 : R) (wv pv : num) (prof : string)
        (dv av : num) (beams : list beam) (iw : nat) :
  exists A b pop chi,
    generate_linear_system three_level = Ok (A, b)
    /\ solve linalg_solve three_level
         (mkbeam (Array [w0; w1]) prof dv av pv (Array [e0]) :: beams)
       = Ok (pop, chi)
    /\ shape chi = [2]%nat
    /\ let x := linalg_solve 9%nat (A (nth iw [w0; w1] 0) e0) b in
       item chi [iw]
       = (RtoC (abundance three_level * 2)
          * (RtoC 0
             + x 4%nat * RtoC (dme_ravel three_level 0 / e0 / c.epsilon_0)
             + x 5%nat * RtoC (dme_ravel three_level 1 / e0 / c.epsilon_0)))%C
       /\ item pop [iw] = Re (RtoC 0 + x 2%nat).
Proof.
  do 4 eexists. split; [reflexivity|]. split; [reflexivity|].
  split; [reflexivity|]. split; reflexivity.
Qed.

(** Three detunings and two amplitudes cannot be broadcast at all. *)
Example solve_grid_raises
        linalg_solve (w0 w1 w2 e0 e1 : R) (wv pv : num) (prof : string)
        (dv av : num) (beams : list beam) :
  solve linalg_solve three_level
    (mkbeam (Array [w0; w1; w2]) prof dv av pv (Array [e0; e1]) :: beams)
  = Raise (ValueError "operands could not be broadcast together").
Proof. reflexivity. Qed.

(** ** The coordinates [solve] selects *)

Lemma map_flat_map_comm {X Y Z} (g : Y -> Z) (h : X -> list Y) (l : list X) :
  map g (flat_map h l) = flat_map (fun x => map g (h x)) l.
Proof.
  induction l as [|x l IH]; cbn; [reflexivity|].
  rewrite map_app, IH. reflexivity.
Qed.

(** [matrix2list] of a matrix of images is the list of the images. *)
Lemma matrix2list_map {T U} (N : nat) (g : T -> U) (mat : nat -> nat -> T) :
  matrix2list N (fun i j => g (mat i j)) = map g (matrix2list N mat).
Proof.
  unfold matrix2list. rewrite !map_app, !map_flat_map_comm, map_map.
  f_equal. f_equal; apply flat_map_ext; intros i; rewrite map_map; reflexivity.
Qed.

Lemma filter_none {X} (f : X -> bool) (l : list X) :
  (forall x, In x l -> f x = false) -> filter f l = [].
Proof.
  induction l as [|x l IH]; intros Hf; cbn; [reflexivity|].
  rewrite (Hf x) by (left; reflexivity). apply IH.
  intros y Hy. apply Hf. right. exact Hy.
Qed.

Lemma filter_all {X} (f : X -> bool) (l : list X) :
  (forall x, In x l -> f x = true) -> filter f l = l.
Proof.
  induction l as [|x l IH]; intros Hf; cbn; [reflexivity|].
  rewrite (Hf x) by (left; reflexivity). f_equal. apply IH.
  intros y Hy. apply Hf. right. exact Hy.
Qed.

Lemma filter_flat_map {X Y} (f : Y -> bool) (h : X -> list Y) (l : list X) :
  filter f (flat_map h l) = flat_map (fun x => filter f (h x)) l.
Proof.
  induction l as [|x l IH]; cbn; [reflexivity|].
  rewrite filter_app, IH. reflexivity.
Qed.

Lemma flat_map_nil {X Y} (h : X -> list Y) (l : list X) :
  (forall x, In x l -> h x = []) -> flat_map h l = [].
Proof.
  induction l as [|x l IH]; intros Hh; cbn; [reflexivity|].
  rewrite (Hh x) by (left; reflexivity). apply IH.
  intros y Hy. apply Hh. right. exact Hy.
Qed.

Lemma nonzero_from_ge (mask : list bool) (k p : nat) :
  In p (np.nonzero_from k mask) -> (k <= p)%nat.
Proof.
  revert k. induction mask as [|[|] mask IH]; intros k Hp; cbn in Hp.
  - tauto.
  - destruct Hp as [<-|Hp]; [lia|]. apply IH in Hp. lia.
  - apply IH in Hp. lia.
Qed.

(** The entries of a list at the true positions of its mask. *)
Lemma nonzero_from_filter {X} (f : X -> bool) (l : list X) (k : nat) :
  map (fun p => nth_error l (p - k)) (np.nonzero_from k (map f l))
  = map Some (filter f l).
Proof.
  revert k. induction l as [|x l IH]; intros k; cbn; [reflexivity|].
  assert (Htail : map (fun p => nth_error (x :: l) (p - k))
                      (np.nonzero_from (S k) (map f l))
                  = map Some (filter f l)).
  { rewrite <- (IH (S k)). apply map_ext_in. intros p Hp.
    apply nonzero_from_ge in Hp.
    replace (p - k)%nat with (S (p - S k)) by lia. reflexivity. }
  destruct (f x); cbn.
  - rewrite Nat.sub_diag. cbn. f_equal. exact Htail.
  - exact Htail.
Qed.

Lemma nonzero_filter {X} (f : X -> bool) (l : list X) :
  map (nth_error l) (np.nonzero (map f l)) = map Some (filter f l).
Proof.
  unfold np.nonzero. rewrite <- (nonzero_from_filter f l 0).
  apply map_ext. intros p. rewrite Nat.sub_0_r. reflexivity.
Qed.

Lemma filter_map_comm {X Y} (f : Y -> bool) (g : X -> Y) (l : list X) :
  filter f (map g l) = map g (filter (fun x => f (g x)) l).
Proof.
  induction l as [|x l IH]; cbn; [reflexivity|].
  destruct (f (g x)); cbn; rewrite IH; reflexivity.
Qed.

Lemma flat_map_ext_In {X Y} (h h' : X -> list Y) (l : list X) :
  (forall x, In x l -> h x = h' x) -> flat_map h l = flat_map h' l.
Proof.
  induction l as [|x l IH]; intros Hh; cbn; [reflexivity|].
  rewrite (Hh x) by (left; reflexivity). f_equal. apply IH.
  intros y Hy. apply Hh. right. exact Hy.
Qed.

Lemma transition_mask_spec (self : atomicSystem) (i j : nat) :
  transition_mask self (i, j)
  = (i <? n0 self)%nat && ((n0 self <=? j)%nat && (j <? n0 self + n1 self)%nat).
Proof.
  unfold transition_mask, set_block, const, in_slice, slices0, slices1.
  cbn [fst snd]. destruct (_ && _); reflexivity.
Qed.

(** The symbols the mask [transition_list[0]] keeps: the coherences
    between each ground sublevel and each excited sublevel, row by row. *)
Lemma transition_filter (self : atomicSystem) :
  filter (transition_mask self) (r_list self)
  = flat_map (fun i => map (fun j => (i, j)) (seq (n0 self) (n1 self)))
             (seq 0 (n0 self)).
Proof.
  unfold r_list, matrix2list, total_levels. rewrite !filter_app.
  rewrite (filter_none _ (map _ _)).
  2:{ intros [i j] Hin. apply in_map_iff in Hin.
      destruct Hin as (k & [= <- <-] & _).
      rewrite transition_mask_spec. nat_cases; reflexivity. }
  rewrite (filter_none _ (flat_map (fun i => map (fun j => (j, i)) _) _)).
  2:{ intros [i j] Hin. apply in_flat_map in Hin.
      destruct Hin as (k & _ & Hin). apply in_map_iff in Hin.
      destruct Hin as (k' & [= <- <-] & Hk'). apply in_seq in Hk'.
      rewrite transition_mask_spec. nat_cases; reflexivity. }
  rewrite app_nil_r. cbn [app].
  rewrite filter_flat_map, seq_app, flat_map_app. cbn [Nat.add].
  rewrite (flat_map_nil _ (seq (n0 self) (n1 self))).
  2:{ intros i Hi. apply in_seq in Hi. apply filter_none.
      intros [i' j] Hin. apply in_map_iff in Hin.
      destruct Hin as (k & [= <- <-] & _).
      rewrite transition_mask_spec. nat_cases; reflexivity. }
  rewrite app_nil_r. apply flat_map_ext_In. intros i Hi.
  apply in_seq in Hi. rewrite filter_map_comm. f_equal.
  replace (n0 self + n1 self - (i + 1))%nat
    with ((n0 self - (i + 1)) + n1 self)%nat by lia.
  rewrite seq_app, filter_app.
  replace (i + 1 + (n0 self - (i + 1)))%nat with (n0 self) by lia.
  rewrite filter_none, filter_all; [reflexivity| |].
  - intros j Hj. apply in_seq in Hj. rewrite transition_mask_spec.
    nat_cases; reflexivity.
  - intros j Hj. apply in_seq in Hj. rewrite transition_mask_spec.
    nat_cases; reflexivity.
Qed.

Lemma transition_list_mask (self : atomicSystem) :
  transition_list self = map (transition_mask self) (r_list self).
Proof.
  unfold transition_list, r_list, transition_mask.
  rewrite <- matrix2list_map. reflexivity.
Qed.

Lemma length_rows {X} (h : nat -> list X) (len rows : nat) :
  (forall i, List.length (h i) = len) ->
  List.length (flat_map h (seq 0 rows)) = (rows * len)%nat.
Proof.
  intros Hlen. induction rows as [|rows IH]; [reflexivity|].
  rewrite seq_S, flat_map_app, length_app, IH. cbn.
  rewrite app_nil_r, Hlen. lia.
Qed.

(** Row-major position in a list of rows of equal length. *)
Lemma nth_error_rows {X} (h : nat -> list X) (len rows m : nat) :
  (forall i, List.length (h i) = len) ->
  (m < rows * len)%nat ->
  nth_error (flat_map h (seq 0 rows)) m
  = nth_error (h (m / len)%nat) (m mod len).
Proof.
  intros Hlen. induction rows as [|rows IH]; intros Hm; [lia|].
  assert (Hpos : (0 < len)%nat) by nia.
  pose proof (length_rows h len rows Hlen) as Hl.
  rewrite seq_S, flat_map_app. cbn [Nat.add flat_map]. rewrite app_nil_r.
  destruct (Nat.lt_ge_cases m (rows * len)) as [Hlt|Hge].
  - rewrite nth_error_app1 by (rewrite Hl; exact Hlt). apply IH. exact Hlt.
  - rewrite nth_error_app2 by (rewrite Hl; exact Hge). rewrite Hl.
    assert (Hdiv : (m / len = rows)%nat).
    { symmetry. apply (Nat.div_unique m len rows (m - rows * len)); lia. }
    assert (Hmod : (m mod len = m - rows * len)%nat).
    { symmetry. apply (Nat.mod_unique m len rows (m - rows * len)); lia. }
    rewrite Hdiv, Hmod. reflexivity.
Qed.

(** The coordinate number [m] that the mask keeps is the coherence of the
    ground sublevel [m / n1] with the excited sublevel [m mod n1]. *)
Lemma transition_coordinates (self : atomicSystem) :
  List.length (np.nonzero (transition_list self)) = (n0 self * n1 self)%nat
  /\ forall m, (m < n0 self * n1 self)%nat ->
       nth_error (r_list self) (nth m (np.nonzero (transition_list self)) O)
       = Some ((m / n1 self)%nat, (n0 self + m mod n1 self)%nat).
Proof.
  pose proof (nonzero_filter (transition_mask self) (r_list self)) as Hnz.
  rewrite <- transition_list_mask, transition_filter in Hnz.
  assert (Hlen : List.length (np.nonzero (transition_list self))
                 = (n0 self * n1 self)%nat).
  { apply (f_equal (@List.length _)) in Hnz. rewrite !length_map in Hnz.
    rewrite Hnz. apply length_rows.
    intros i. rewrite length_map, length_seq. reflexivity. }
  split; [exact Hlen|]. intros m Hm.
  apply (f_equal (fun l => nth_error l m)) in Hnz.
  rewrite !nth_error_map in Hnz.
  rewrite (nth_error_rows _ (n1 self)) in Hnz;
    [|intros; rewrite length_map, length_seq; reflexivity|exact Hm].
  assert (Hn1 : (0 < n1 self)%nat) by nia.
  rewrite nth_error_map, nth_error_seq in Hnz.
  destruct (Nat.ltb_spec (m mod n1 self) (n1 self)) as [_|Hbad];
    [|pose proof (Nat.mod_upper_bound m (n1 self)); lia].
  rewrite (nth_error_nth' _ O) in Hnz by (rewrite Hlen; exact Hm).
  cbn in Hnz. injection Hnz as Hnz. exact Hnz.
Qed.

Lemma length_upper_triangle {X} (N n : nat) (h : nat -> nat -> X) :
  (n <= N)%nat ->
  (2 * List.length (flat_map (fun i => map (h i) (seq (i + 1) (N - (i + 1))))
                             (seq 0 n))
   + n * (n + 1) = 2 * n * N)%nat.
Proof.
  induction n as [|n IH]; intros Hn; [reflexivity|].
  rewrite seq_S, flat_map_app, length_app. cbn [Nat.add flat_map].
  rewrite app_nil_r, length_map, length_seq.
  specialize (IH ltac:(lia)). nia.
Qed.

Lemma length_matrix2list {T} (N : nat) (mat : nat -> nat -> T) :
  List.length (matrix2list N mat) = (N * N)%nat.
Proof.
  unfold matrix2list. rewrite !length_app, length_map, length_seq.
  pose proof (length_upper_triangle N N (fun i j => mat i j) (le_n N)) as H1.
  pose proof (length_upper_triangle N N (fun i j => mat j i) (le_n N)) as H2.
  nia.
Qed.

(** With a single amplitude the reshaped array has the coordinates on its
    first axis and the detunings on its second. *)
Lemma density_axis_first_line (g : ndarray C) (nw NN : nat) :
  shape g = [nw; 1; NN; 1]%nat -> (1 <= nw)%nat -> (2 <= NN)%nat ->
  shape (density_axis_first g) = [NN; nw]
  /\ forall m iw, (iw < nw)%nat ->
       item (density_axis_first g) [m; iw] = item g [iw; O; m; O].
Proof.
  destruct g as [sh it]. cbn [shape item]. intros -> Hnw HNN.
  unfold density_axis_first, np.squeeze, np.moveaxis_last_first, np.ndim,
    np.expand_dims_1.
  cbn [shape item filter np.unsqueeze Nat.eqb negb].
  destruct (Nat.eqb_spec nw 1) as [->|Hne], (Nat.eqb_spec NN 1) as [|_];
    try lia; cbn.
  - split; [reflexivity|]. intros m iw Hiw.
    replace iw with O by lia. reflexivity.
  - split; [reflexivity|]. intros m iw Hiw.
    destruct (Nat.eqb_spec nw 1); [lia|]. cbn.
    destruct (Nat.eqb_spec NN 1); [lia|]. reflexivity.
Qed.

Lemma extract_line (self : atomicSystem) (e : R) (g : ndarray C) (nw : nat) :
  (1 <= n0 self)%nat -> (1 <= n1 self)%nat -> (1 <= nw)%nat ->
  shape g = [nw; 1; total_levels self * total_levels self; 1]%nat ->
  exists pop chi,
    extract self [e] g = Ok (pop, chi)
    /\ forall iw, (iw < nw)%nat ->
         let idx := if (nw =? 1)%nat then [] else [iw] in
         item pop idx
         = Re (Csum (n1 self) (fun j => item g [iw; O; (n0 self + j)%nat; O]))
         /\ item chi idx
            = (RtoC (abundance self * 2)
               * Csum (n0 self * n1 self)
                   (fun m =>
                      item g [iw; O;
                              nth m (np.nonzero (transition_list self)) O; O]
                      * RtoC (dme_ravel self m / e / c.epsilon_0)))%C.
Proof.
  intros Hn0 Hn1 Hnw Hshape.
  destruct (transition_coordinates self) as [HK _].
  pose proof (length_matrix2list (total_levels self)
                (set_block (const false) (slices0 self) (slices1 self)
                           (const true))) as Hmask.
  fold (transition_list self) in Hmask.
  set (NN := (total_levels self * total_levels self)%nat) in *.
  assert (HNN : (n0 self + n1 self <= NN)%nat /\ (2 <= NN)%nat).
  { unfold NN, total_levels. nia. }
  destruct (density_axis_first_line g nw NN Hshape Hnw (proj2 HNN))
    as [Hsh Hit].
  unfold extract. set (r := density_axis_first g) in *.
  unfold np.getmask, np.getslice. rewrite Hsh, Hmask, Nat.eqb_refl.
  unfold np.multiply, k_alt. cbn [shape List.length].
  rewrite HK. unfold np.broadcast_shapes.
  cbn [rev app np.broadcast_rev]. rewrite Nat.eqb_refl.
  cbn [slices1 fst snd]. rewrite !Nat.min_l by lia.
  replace (n0 self + n1 self - n0 self)%nat with (n1 self) by lia.
  destruct (Nat.eqb_spec nw 1) as [->|Hne];
    cbn [option_map rev app Nat.eqb];
    (eexists; eexists; split; [reflexivity|]); intros iw Hiw;
    unfold np.squeeze, np.amap, np.sum_axis0, np.broadcast_index;
    cbn [shape item filter Nat.eqb negb np.unsqueeze List.length Nat.sub
         skipn combine map fst snd nth].
  - replace iw with O by lia. split; f_equal; apply Csum_ext; intros m Hm.
    + apply Hit. lia.
    + destruct (Nat.eqb_spec (n0 self * n1 self) 1) as [HK1|_].
      * replace m with O by lia. rewrite Hit by lia. reflexivity.
      * rewrite Hit by lia. reflexivity.
  - destruct (Nat.eqb_spec nw 1) as [|_]; [lia|].
    cbn [negb filter np.unsqueeze item shape].
    destruct (Nat.eqb_spec nw 1) as [|_]; [lia|].
    cbn [shape item List.length Nat.sub skipn combine map fst snd nth
         Nat.eqb].
    split; f_equal; apply Csum_ext; intros m Hm.
    + apply Hit. exact Hiw.
    + destruct (Nat.eqb_spec nw 1) as [|_]; [lia|].
      destruct (Nat.eqb_spec (n0 self * n1 self) 1) as [HK1|_].
      * replace m with O by lia. rewrite Hit by lia. reflexivity.
      * rewrite Hit by lia. reflexivity.
Qed.

(** X1: with a single field amplitude [solve] returns, at each detuning, the
    real part of the sum of the excited populations, and twice the
    abundance times the sum of the ground-excited coherences of the upper
    triangle, each weighted with its own [dme / (E epsilon_0)]; the lower
    triangle is not read. *)
Theorem solve_single_amplitude
        linalg_solve (self : atomicSystem) (b : beam) (beams : list beam)
        A bv (e : R) :
  (1 <= n0 self)%nat -> (1 <= n1 self)%nat ->
  atleast_1d (E b) = [e] -> atleast_1d (w b) <> [] ->
  generate_linear_system self = Ok (A, bv) ->
  exists pop chi (coherence : nat -> nat),
    solve linalg_solve self (b :: beams) = Ok (pop, chi)
    /\ (forall j, (j < n1 self)%nat ->
          nth_error (r_list self) (n0 self + j)
          = Some ((n0 self + j)%nat, (n0 self + j)%nat))
    /\ (forall m, (m < n0 self * n1 self)%nat ->
          nth_error (r_list self) (coherence m)
          = Some ((m / n1 self)%nat, (n0 self + m mod n1 self)%nat))
    /\ forall iw, (iw < List.length (atleast_1d (w b)))%nat ->
         let x := linalg_solve (total_levels self * total_levels self)%nat
                    (A (nth iw (atleast_1d (w b)) 0) e) bv in
         let idx := if (List.length (atleast_1d (w b)) =? 1)%nat
                    then [] else [iw] in
         item pop idx = Re (Csum (n1 self) (fun j => x (n0 self + j)%nat))
         /\ item chi idx
            = (RtoC (abundance self * 2)
               * Csum (n0 self * n1 self)
                   (fun m => x (coherence m)
                             * RtoC (dme self (m / n1 self)%nat
                                         (m mod n1 self)%nat
                                     / e / c.epsilon_0)))%C.
Proof.
  intros Hn0 Hn1 HE Hw Hgls.
  assert (Hnw : (1 <= List.length (atleast_1d (w b)))%nat).
  { destruct (atleast_1d (w b)); [congruence|cbn; lia]. }
  unfold solve. rewrite Hgls, HE. cbn [fst snd].
  destruct (extract_line self e
              (solve_grid linalg_solve self A bv (atleast_1d (w b)) [e])
              (List.length (atleast_1d (w b))) Hn0 Hn1 Hnw eq_refl)
    as (pop & chi & Hex & Hitems).
  exists pop, chi, (fun m => nth m (np.nonzero (transition_list self)) O).
  split; [exact Hex|]. split; [|split].
  - intros j Hj. apply nth_error_matrix2list_diag. unfold total_levels. lia.
  - apply transition_coordinates.
  - intros iw Hiw. exact (Hitems iw Hiw).
Qed.

Lemma solve_single_amplitude_witness :
  exists pop chi (coherence : nat -> nat),
    solve (fun _ _ b => b) three_level
      [mkbeam (Array [0; 1]) "gaussian" (Scalar 1) (Scalar 1) (Scalar 1)
              (Scalar 1)]
    = Ok (pop, chi)
    /\ coherence O = 4%nat /\ coherence 1%nat = 5%nat.
Proof.
  destruct (generate_linear_system three_level) as [[A bv]|] eqn:Hgls;
    [|discriminate].
  destruct (solve_single_amplitude (fun _ _ b => b) three_level
              (mkbeam (Array [0; 1]) "gaussian" (Scalar 1) (Scalar 1)
                      (Scalar 1) (Scalar 1)) [] A bv 1
              ltac:(cbn; lia) ltac:(cbn; lia) eq_refl
              ltac:(cbn; discriminate) Hgls)
    as (pop & chi & coherence & Hsolve & _ & Hcoh & _).
  exists pop, chi, coherence. split; [exact Hsolve|].
  pose proof (Hcoh O ltac:(cbn; lia)) as H0.
  pose proof (Hcoh 1%nat ltac:(cbn; lia)) as H1.
  cbn in H0, H1. split.
  - destruct (coherence O) as [|[|[|[|[|[|[|[|[|k]]]]]]]]];
      cbn in H0; try discriminate; try (destruct k; discriminate);
      reflexivity.
  - destruct (coherence 1%nat) as [|[|[|[|[|[|[|[|[|k]]]]]]]]];
      cbn in H1; try discriminate; try (destruct k; discriminate);
      reflexivity.
Defined.

(** The susceptibility [extract] computes on [three_level] from any array
    of solutions for two detunings and two amplitudes. *)
Lemma three_level_grid_entry (res : ndarray C) (e0 e1 : R) pop chi
      (iw ie : nat) :
  shape res = [2; 2; 9; 1]%nat ->
  extract three_level [e0; e1] res = Ok (pop, chi) ->
  item chi [iw; ie]
  = (RtoC (abundance three_level * 2)
     * (RtoC 0
        + item res [iw; ie; 4%nat; O]
          * RtoC (dme_ravel three_level iw / nth ie [e0; e1] 0
                  / c.epsilon_0)%R
        + item res [iw; ie; 5%nat; O]
          * RtoC (dme_ravel three_level iw / nth ie [e0; e1] 0
                  / c.epsilon_0)%R))%C.
Proof.
  destruct res as [sh it]. cbn [shape]. intros -> Hex.
  eassert (Hev : extract three_level [e0; e1]
                   (mkarray [2; 2; 9; 1]%nat it) = Ok (_, _))
    by reflexivity.
  rewrite Hev in Hex. injection Hex as <- <-. reflexivity.
Qed.

(** On the grid of two detunings and two amplitudes, the susceptibility at
    the first detuning is not the sum of the coherences weighted each with
    its own dipole matrix element, as soon as the second coherence of the
    solution is not 0. *)
Lemma solve_grid_not_weighted
      linalg_solve (w0 w1 e0 e1 : R) (wv pv : num) (prof : string)
      (dv av : num) (beams : list beam) A b pop chi :
  generate_linear_system three_level = Ok (A, b) ->
  solve linalg_solve three_level
    (mkbeam (Array [w0; w1]) prof dv av pv (Array [e0; e1]) :: beams)
  = Ok (pop, chi) ->
  e0 <> 0 ->
  linalg_solve 9%nat (A w0 e0) b 5%nat <> RtoC 0 ->
  item chi [O; O]
  <> (RtoC (abundance three_level * 2)
      * (linalg_solve 9%nat (A w0 e0) b 4%nat
         * RtoC (dme three_level O O / e0 / c.epsilon_0)
         + linalg_solve 9%nat (A w0 e0) b 5%nat
           * RtoC (dme three_level 1%nat O / e0 / c.epsilon_0)))%C.
Proof.
  intros Hgls Hsolve He Hx.
  unfold solve in Hsolve. rewrite Hgls in Hsolve.
  cbn [fst snd atleast_1d E w] in Hsolve.
  rewrite (three_level_grid_entry
             (solve_grid linalg_solve three_level A b [w0; w1] [e0; e1])
             e0 e1 pop chi O O eq_refl Hsolve).
  clear Hsolve Hgls.
  cbn [item solve_grid nth dme_ravel three_level dme n1 abundance Nat.div
       Nat.modulo Nat.divmod fst snd Nat.eqb Nat.sub].
  destruct (linalg_solve _ (A w0 e0) b 4%nat) as [x4r x4i].
  destruct (linalg_solve _ (A w0 e0) b 5%nat) as [x5r x5i].
  pose proof epsilon_0_pos as Heps.
  assert (Hk : / e0 * / c.epsilon_0 <> 0).
  { apply Rmult_integral_contrapositive_currified;
      apply Rinv_neq_0_compat; lra. }
  intros Heq. apply Hx. unfold RtoC in *. csimpl.
  injection Heq as Hr Hi. unfold Rdiv in Hr, Hi.
  assert (Hr0 : x5r * (/ e0 * / c.epsilon_0) = 0) by lra.
  assert (Hi0 : x5i * (/ e0 * / c.epsilon_0) = 0) by lra.
  apply Rmult_integral in Hr0, Hi0.
  destruct Hr0 as [->|]; [|contradiction].
  destruct Hi0 as [->|]; [|contradiction]. reflexivity.
Qed.

(** With several detunings and several amplitudes the reshaped array has
    the coordinates on its first axis, then the detunings, then the
    amplitudes. *)
Lemma density_axis_first_grid (g : ndarray C) (nw nE NN : nat) :
  shape g = [nw; nE; NN; 1]%nat ->
  (2 <= nw)%nat -> (2 <= nE)%nat -> (2 <= NN)%nat ->
  shape (density_axis_first g) = [NN; nw; nE]
  /\ forall m iw ie,
       item (density_axis_first g) [m; iw; ie] = item g [iw; ie; m; O].
Proof.
  destruct g as [sh it]. cbn [shape item]. intros -> Hnw HnE HNN.
  unfold density_axis_first, np.squeeze, np.moveaxis_last_first, np.ndim,
    np.expand_dims_1.
  cbn [shape item filter np.unsqueeze Nat.eqb negb].
  destruct (Nat.eqb_spec nw 1), (Nat.eqb_spec nE 1), (Nat.eqb_spec NN 1);
    try lia; cbn.
  split; [reflexivity|]. intros m iw ie.
  destruct (Nat.eqb_spec nw 1), (Nat.eqb_spec nE 1), (Nat.eqb_spec NN 1);
    try lia. reflexivity.
Qed.

(** When there are as many detunings as transitions, and several
    amplitudes, [extract] multiplies every coherence at the detuning [iw]
    with the weight of the transition number [iw]. *)
Lemma extract_grid (self : atomicSystem) (E_list0 : list R) (g : ndarray C) :
  (1 <= n0 self)%nat -> (1 <= n1 self)%nat ->
  (2 <= n0 self * n1 self)%nat -> (2 <= List.length E_list0)%nat ->
  shape g = [(n0 self * n1 self)%nat; List.length E_list0;
             (total_levels self * total_levels self)%nat; 1%nat] ->
  exists pop chi,
    extract self E_list0 g = Ok (pop, chi)
    /\ forall iw ie,
         item pop [iw; ie]
         = Re (Csum (n1 self)
                 (fun j => item g [iw; ie; (n0 self + j)%nat; O]))
         /\ item chi [iw; ie]
            = (RtoC (abundance self * 2)
               * Csum (n0 self * n1 self)
                   (fun m =>
                      item g [iw; ie;
                              nth m (np.nonzero (transition_list self)) O; O]
                      * RtoC (dme_ravel self iw / nth ie E_list0 0
                              / c.epsilon_0)%R))%C.
Proof.
  intros Hn0 Hn1 HK2 HnE Hshape.
  destruct (transition_coordinates self) as [HK _].
  pose proof (length_matrix2list (total_levels self)
                (set_block (const false) (slices0 self) (slices1 self)
                           (const true))) as Hmask.
  fold (transition_list self) in Hmask.
  set (NN := (total_levels self * total_levels self)%nat) in *.
  set (K := (n0 self * n1 self)%nat) in *.
  set (nE := List.length E_list0) in *.
  assert (HNN : (n0 self + n1 self <= NN)%nat /\ (2 <= NN)%nat).
  { unfold NN, total_levels. nia. }
  destruct (density_axis_first_grid g K nE NN Hshape HK2 HnE (proj2 HNN))
    as [Hsh Hit].
  unfold extract. set (r := density_axis_first g) in *.
  unfold np.getmask, np.getslice. rewrite Hsh, Hmask, Nat.eqb_refl.
  unfold np.multiply, k_alt. cbn [shape List.length].
  rewrite HK. fold K nE. unfold np.broadcast_shapes.
  cbn [rev app np.broadcast_rev]. rewrite !Nat.eqb_refl.
  cbn [option_map rev app].
  cbn [slices1 fst snd]. rewrite !Nat.min_l by lia.
  replace (n0 self + n1 self - n0 self)%nat with (n1 self) by lia.
  eexists; eexists; split; [reflexivity|]. intros iw ie.
  unfold np.squeeze, np.amap, np.sum_axis0, np.broadcast_index.
  cbn [shape item filter].
  destruct (Nat.eqb_spec K 1) as [|_]; [lia|].
  destruct (Nat.eqb_spec nE 1) as [|_]; [lia|].
  cbn [negb filter np.unsqueeze item shape].
  destruct (Nat.eqb_spec K 1) as [|_]; [lia|].
  destruct (Nat.eqb_spec nE 1) as [|_]; [lia|].
  cbn [shape item List.length Nat.sub skipn combine map fst snd nth Nat.eqb].
  split; f_equal; apply Csum_ext; intros m Hm.
  - apply Hit.
  - destruct (Nat.eqb_spec K 1) as [|_]; [lia|].
    destruct (Nat.eqb_spec nE 1) as [|_]; [lia|].
    rewrite Hit. reflexivity.
Qed.

(** C3: with as many detunings as ground-excited transitions and more than
    one amplitude, the susceptibility [solve] returns at the detuning [iw]
    and the amplitude [ie] is twice the abundance times the sum of the
    upper-triangle ground-excited coherences, all of them weighted with the
    dipole matrix element number [iw] over [E epsilon_0], and not each with
    its own: the product [res[transition_list[0]] * k_alt[0]] aligns the
    detuning axis of [res] with the transition axis of [k_alt]. *)
Theorem solve_grid_weights
        linalg_solve (self : atomicSystem) (b : beam) (beams : list beam)
        A bv :
  (1 <= n0 self)%nat -> (1 <= n1 self)%nat ->
  (2 <= n0 self * n1 self)%nat ->
  List.length (atleast_1d (w b)) = (n0 self * n1 self)%nat ->
  (2 <= List.length (atleast_1d (E b)))%nat ->
  generate_linear_system self = Ok (A, bv) ->
  exists pop chi (coherence : nat -> nat),
    solve linalg_solve self (b :: beams) = Ok (pop, chi)
    /\ (forall m, (m < n0 self * n1 self)%nat ->
          nth_error (r_list self) (coherence m)
          = Some ((m / n1 self)%nat, (n0 self + m mod n1 self)%nat))
    /\ forall iw ie,
         let E_ie := nth ie (atleast_1d (E b)) 0 in
         let x := linalg_solve (total_levels self * total_levels self)%nat
                    (A (nth iw (atleast_1d (w b)) 0) E_ie) bv in
         item chi [iw; ie]
         = (RtoC (abundance self * 2)
            * Csum (n0 self * n1 self)
                (fun m => x (coherence m)
                          * RtoC (dme self (iw / n1 self)%nat
                                      (iw mod n1 self)%nat
                                  / E_ie / c.epsilon_0)))%C.
Proof.
  intros Hn0 Hn1 HK Hnw HnE Hgls.
  unfold solve. rewrite Hgls. cbn [fst snd].
  destruct (extract_grid self (atleast_1d (E b))
              (solve_grid linalg_solve self A bv (atleast_1d (w b))
                          (atleast_1d (E b)))
              Hn0 Hn1 HK HnE)
    as (pop & chi & Hex & Hitems).
  { cbn [shape solve_grid]. rewrite Hnw. reflexivity. }
  exists pop, chi, (fun m => nth m (np.nonzero (transition_list self)) O).
  split; [exact Hex|]. split; [apply transition_coordinates|].
  intros iw ie. exact (proj2 (Hitems iw ie)).
Qed.

Lemma solve_grid_weights_witness :
  exists pop chi,
    solve (fun _ _ b => b) three_level
      [mkbeam (Array [0; 1]) "gaussian" (Scalar 1) (Scalar 1) (Array [1; 2])
              (Array [1; 2])]
    = Ok (pop, chi).
Proof.
  destruct (generate_linear_system three_level) as [[A bv]|] eqn:Hgls;
    [|discriminate].
  destruct (solve_grid_weights (fun _ _ b => b) three_level
              (mkbeam (Array [0; 1]) "gaussian" (Scalar 1) (Scalar 1)
                      (Array [1; 2]) (Array [1; 2])) [] A bv
              ltac:(cbn; lia) ltac:(cbn; lia) ltac:(cbn; lia) eq_refl
              ltac:(cbn; lia) Hgls)
    as (pop & chi & _ & Hsolve & _).
  exists pop, chi. exact Hsolve.
Defined.

(** * Further properties of the code *)

(** ** Keyword arguments of a beam *)

(** X2: [beam.__init__] raises [KeyError] for the first key it needs and does
    not find: ['w'], then ['A'] when ['D'] is absent too, then ['P'] when
    ['E'] is absent too.  Nothing is logged before the error on ['w']. *)
Theorem beam_init_missing_keys (kw : kwargs) (tr : list event) :
  (kw_w kw = None -> beam_init kw tr = (Raise (KeyError "w"), tr))
  /\ (kw_w kw <> None -> kw_D kw = None -> kw_A kw = None ->
      exists tr', beam_init kw tr = (Raise (KeyError "A"), tr'))
  /\ (kw_w kw <> None -> (kw_D kw <> None \/ kw_A kw <> None) ->
      kw_E kw = None -> kw_P kw = None ->
      exists tr', beam_init kw tr = (Raise (KeyError "P"), tr')).
Proof.
  unfold beam_init, bind. repeat split.
  - intros ->. reflexivity.
  - intros Hw -> ->. destruct (kw_w kw) as [wv|]; [|congruence]. cbn.
    destruct (kw_profile kw); cbn; eexists; reflexivity.
  - intros Hw HDA -> ->. destruct (kw_w kw) as [wv|]; [|congruence]. cbn.
    destruct (kw_profile kw); cbn;
      (destruct (kw_D kw); cbn;
       [|destruct (kw_A kw); cbn; [|destruct HDA; congruence]]);
      eexists; reflexivity.
Qed.

Lemma beam_init_missing_keys_witness :
  beam_init (mkkwargs None None None None None None) []
  = (Raise (KeyError "w"), [])
  /\ (exists tr',
        beam_init (mkkwargs (Some (Scalar 0)) None None None None None) []
        = (Raise (KeyError "A"), tr'))
  /\ (exists tr',
        beam_init (mkkwargs (Some (Scalar 0)) None (Some (Scalar 1)) None
                     None None) []
        = (Raise (KeyError "P"), tr')).
Proof.
  split; [|split].
  - apply (beam_init_missing_keys (mkkwargs None None None None None None) []).
    reflexivity.
  - apply (beam_init_missing_keys
             (mkkwargs (Some (Scalar 0)) None None None None None) []);
      [discriminate|reflexivity|reflexivity].
  - apply (beam_init_missing_keys
             (mkkwargs (Some (Scalar 0)) None (Some (Scalar 1)) None None
                None) []);
      [discriminate|left; discriminate|reflexivity|reflexivity].
Defined.

(** X3: the profile is checked on the power path only: with a profile that is
    neither ['flat'] nor ['gaussian'], a beam built from a field amplitude is
    accepted (and a power given beside the amplitude is not read), while
    the same beam built from a power raises [KeyError], and so does [setP]
    on the accepted beam. *)
Theorem beam_profile_checked_with_power_only
        (wv : num) (prof : string) (d e p : R) (kwA kwP : option num) tr :
  prof <> "flat"%string -> prof <> "gaussian"%string ->
  (exists b,
      beam_init (mkkwargs (Some wv) (Some prof) (Some (Scalar d)) kwA
                   (Some (Scalar e)) kwP) tr
      = (Ok b, tr)
      /\ profile b = prof /\ E b = Scalar e
      /\ P b = Scalar (c.pi * d ^ 2 / 4 / 4 * c.c * c.epsilon_0 * e ^ 2)
      /\ fst (setP b (Scalar p) tr)
         = Raise (KeyError "no beam profile specified"))
  /\ fst (beam_init (mkkwargs (Some wv) (Some prof) (Some (Scalar d)) kwA
                       None (Some (Scalar p))) tr)
     = Raise (KeyError "no beam profile specified").
Proof.
  intros Hf Hg.
  apply String.eqb_neq in Hf. apply String.eqb_neq in Hg.
  split.
  - eexists. split; [reflexivity|]. repeat split.
    unfold setP, bind, log_info, emit. cbn. rewrite Hf, Hg. reflexivity.
  - unfold beam_init, setP, bind, log_info, emit. cbn.
    rewrite Hf, Hg. reflexivity.
Qed.

Lemma beam_profile_checked_with_power_only_witness :
  (exists b,
      beam_init (mkkwargs (Some (Scalar 0)) (Some "tophat"%string)
                   (Some (Scalar 1)) None (Some (Scalar 1)) None) []
      = (Ok b, [])
      /\ profile b = "tophat"%string /\ E b = Scalar 1
      /\ P b = Scalar (c.pi * 1 ^ 2 / 4 / 4 * c.c * c.epsilon_0 * 1 ^ 2)
      /\ fst (setP b (Scalar 1) [])
         = Raise (KeyError "no beam profile specified"))
  /\ fst (beam_init (mkkwargs (Some (Scalar 0)) (Some "tophat"%string)
                       (Some (Scalar 1)) None None (Some (Scalar 1))) [])
     = Raise (KeyError "no beam profile specified").
Proof.
  apply (beam_profile_checked_with_power_only (Scalar 0) "tophat" 1 1 1
           None None []); discriminate.
Defined.

(** X4: the diameter and the area of a beam: a beam built from a diameter
    [d >= 0] has the area [pi d^2 / 4] (an area given beside it is not
    read), and a beam built from that area has the diameter [d] again. *)
Theorem beam_diameter_area_roundtrip
        (wv : num) (d e : R) (kwA : option num) tr :
  0 <= d ->
  exists b1 b2 tr1 tr2,
    beam_init (mkkwargs (Some wv) None (Some (Scalar d)) kwA
                 (Some (Scalar e)) None) tr = (Ok b1, tr1)
    /\ A b1 = Scalar (c.pi * d ^ 2 / 4)
    /\ beam_init (mkkwargs (Some wv) None None (Some (A b1))
                    (Some (Scalar e)) None) tr1 = (Ok b2, tr2)
    /\ D b2 = Scalar d /\ A b2 = A b1 /\ P b2 = P b1.
Proof.
  intros Hd. do 4 eexists. split; [reflexivity|]. split; [reflexivity|].
  split; [reflexivity|]. cbn. repeat split. f_equal.
  replace (c.pi * (d * (d * 1)) / 4 / c.pi) with ((d / 2) * (d / 2)).
  - rewrite sqrt_square by lra. lra.
  - unfold c.pi. field. apply PI_neq0.
Qed.

Lemma beam_diameter_area_roundtrip_witness :
  exists b1 b2 tr1 tr2,
    beam_init (mkkwargs (Some (Scalar 0)) None (Some (Scalar 2)) None
                 (Some (Scalar 1)) None) [] = (Ok b1, tr1)
    /\ A b1 = Scalar (c.pi * 2 ^ 2 / 4)
    /\ beam_init (mkkwargs (Some (Scalar 0)) None None (Some (A b1))
                    (Some (Scalar 1)) None) tr1 = (Ok b2, tr2)
    /\ D b2 = Scalar 2 /\ A b2 = A b1 /\ P b2 = P b1.
Proof.
  apply (beam_diameter_area_roundtrip (Scalar 0) 2 1 None []). lra.
Defined.

(** X5: from an amplitude [e >= 0] to the power and back, the gaussian profile
    returns [e] and the flat profile [sqrt (e^2 / 2)]. *)
Theorem amplitude_roundtrip_profiles (wv : num) (a e : R) (tr : list event) :
  0 < a -> 0 <= e ->
  fst (amplitude_roundtrip "gaussian" wv (Scalar a) (Scalar e) tr)
  = Ok (Scalar e)
  /\ fst (amplitude_roundtrip "flat" wv (Scalar a) (Scalar e) tr)
     = Ok (Scalar (sqrt (e ^ 2 / 2))).
Proof.
  intros Ha He.
  pose proof c_pos as Hc. pose proof epsilon_0_pos as Heps.
  split; cbn; do 2 f_equal.
  - replace (2 * (2 * (a / 4 * c.c * c.epsilon_0 * (e * (e * 1))) / a)
             / c.c / c.epsilon_0) with (e * e) by (field; lra).
    apply sqrt_square. exact He.
  - f_equal. field. lra.
Qed.

Lemma amplitude_roundtrip_profiles_witness :
  fst (amplitude_roundtrip "gaussian" (Scalar 0) (Scalar 1) (Scalar 2) [])
  = Ok (Scalar 2)
  /\ fst (amplitude_roundtrip "flat" (Scalar 0) (Scalar 1) (Scalar 2) [])
     = Ok (Scalar (sqrt (2 ^ 2 / 2))).
Proof.
  apply (amplitude_roundtrip_profiles (Scalar 0) 1 2 []); lra.
Defined.

(** ** Element names and states *)

Lemma lower_ascii_idempotent (a : ascii) :
  lower_ascii (lower_ascii a) = lower_ascii a.
Proof. destruct a as [[] [] [] [] [] [] [] []]; reflexivity. Qed.

Lemma lower_idempotent (s : string) : lower (lower s) = lower s.
Proof.
  induction s as [|a s IH]; cbn; [reflexivity|].
  rewrite lower_ascii_idempotent, IH. reflexivity.
Qed.

(** X6: an element name of ASCII characters is read without regard to
    case, and [ValueError] is raised exactly for the names outside the
    supported ones, whatever the dictionary holds. *)
Theorem select_atom_ValueError_iff (element : string) (p : p_dict) tr :
  is_ascii element = true ->
  select_atom (lower element) p tr = select_atom element p tr
  /\ (fst (select_atom element p tr) = Raise (ValueError "")
      <-> str_in (lower element) supported_elements = false).
Proof.
  intros _. split.
  - unfold select_atom. rewrite lower_idempotent. reflexivity.
  - unfold select_atom, str_in, supported_elements. cbn [existsb].
    generalize (lower element). intros e.
    destruct (String.eqb e "li6"), (String.eqb e "lithium6"),
      (String.eqb e "li7"), (String.eqb e "lithium7"),
      (String.eqb e "na"), (String.eqb e "na23"),
      (String.eqb e "sodium"), (String.eqb e "sodium23");
      cbn; try (split; discriminate).
    destruct (String.eqb e "k39"), (String.eqb e "potassium39"),
      (String.eqb e "k40"), (String.eqb e "potassium40"),
      (String.eqb e "k41"), (String.eqb e "potassium41");
      cbn; unfold bind;
      try (destruct (K40frac p); cbn; try destruct (K41frac p); cbn;
           split; discriminate);
      try (destruct (K41frac p); cbn; split; discriminate).
    destruct (String.eqb e "rb85"), (String.eqb e "rubidium85"),
      (String.eqb e "rb87"), (String.eqb e "rubidium87");
      cbn; unfold bind;
      try (destruct (rb85frac p); cbn; split; discriminate).
    destruct (String.eqb e "cs"), (String.eqb e "cs133"),
      (String.eqb e "caesium"), (String.eqb e "caesium133");
      cbn; try (split; discriminate).
    split; reflexivity.
Qed.

Lemma select_atom_ValueError_iff_witness :
  select_atom (lower "RB87") (mkp_dict None None (Some 72) None) []
  = select_atom "RB87" (mkp_dict None None (Some 72) None) []
  /\ (fst (select_atom "RB87" (mkp_dict None None (Some 72) None) [])
      = Raise (ValueError "")
      <-> str_in (lower "RB87") supported_elements = false).
Proof.
  exact (select_atom_ValueError_iff "RB87"
           (mkp_dict None None (Some 72) None) [] eq_refl).
Defined.

(** X7: the branch on [states]: a custom list with fewer than two states raises
    [IndexError] after the warning; without custom states a missing
    ['Dline'] raises [KeyError], and a result is a ground state with
    [l = 0], [j = 1/2] and an excited state with [l = 1] and [j] 1/2 or
    3/2, with the dictionary unchanged and nothing logged. *)
Theorem select_states_edges gsN atom (p : p_dict) tr :
  (forall states, (List.length states < 2)%nat ->
     select_states gsN atom p (Some states) tr
     = (Raise (IndexError "list index out of range"), tr ++ [states_warning]))
  /\ (Dline p = None ->
      select_states gsN atom p None tr = (Raise (KeyError "Dline"), tr))
  /\ (forall sts p' tr',
        select_states gsN atom p None tr = (Ok (sts, p'), tr') ->
        p' = p /\ tr' = tr
        /\ exists j, (j = 1 / 2 \/ j = 3 / 2)
             /\ sts = [mkstate (gsN atom) 0 (1 / 2) None;
                       mkstate (gsN atom) 1 j None]).
Proof.
  split; [|split].
  - intros [|s0 [|s1 rest]] Hlen; cbn in Hlen; try lia; reflexivity.
  - intros Hd. unfold select_states. rewrite Hd. reflexivity.
  - intros sts p' tr' H.
    unfold select_states, bind, getitem, ret, raise in H.
    destruct (Dline p) as [d|]; [|discriminate].
    destruct (String.eqb d "D1").
    { injection H as <- <- <-. repeat split.
      exists (1 / 2). split; [left|]; reflexivity. }
    destruct (String.eqb d "D2"); [|discriminate].
    injection H as <- <- <-. repeat split.
    exists (3 / 2). split; [right|]; reflexivity.
Qed.

Lemma select_states_edges_witness :
  select_states (fun _ => 5%nat) Rubidium87
    (mkp_dict None None None None) (Some [mkstate 5 0 (1 / 2) None]) []
  = (Raise (IndexError "list index out of range"), [] ++ [states_warning])
  /\ select_states (fun _ => 5%nat) Rubidium87
       (mkp_dict None None None None) None []
     = (Raise (KeyError "Dline"), []).
Proof.
  destruct (select_states_edges (fun _ => 5%nat) Rubidium87
              (mkp_dict None None None None) []) as (Hshort & Hkey & _).
  split.
  - apply Hshort. cbn. lia.
  - apply Hkey. reflexivity.
Defined.

(** ** The linear system is defined or the construction fails *)



(** ** The raw master equation *)

Lemma Csum_add (n : nat) (f g : nat -> C) :
  Csum n (fun k => (f k + g k)%C) = (Csum n f + Csum n g)%C.
Proof. induction n as [|n IH]; cbn; [|rewrite IH]; ring. Qed.

Lemma Csum_sub (n : nat) (f g : nat -> C) :
  Csum n (fun k => (f k - g k)%C) = (Csum n f - Csum n g)%C.
Proof. induction n as [|n IH]; cbn; [|rewrite IH]; ring. Qed.

Lemma Csum_mul_l (n : nat) (z : C) (f : nat -> C) :
  Csum n (fun k => (z * f k)%C) = (z * Csum n f)%C.
Proof. induction n as [|n IH]; cbn; [|rewrite IH]; ring. Qed.

Lemma Csum_mul_r (n : nat) (z : C) (f : nat -> C) :
  Csum n (fun k => (f k * z)%C) = (Csum n f * z)%C.
Proof. induction n as [|n IH]; cbn; [|rewrite IH]; ring. Qed.

Lemma Csum_swap (n m : nat) (f : nat -> nat -> C) :
  Csum n (fun i => Csum m (fun j => f i j))
  = Csum m (fun j => Csum n (fun i => f i j)).
Proof.
  induction n as [|n IH]; cbn.
  - symmetry. apply Csum_zero. reflexivity.
  - rewrite IH, <- Csum_add. reflexivity.
Qed.

Lemma trace_Mmul_comm (N : nat) (a b : Mat) :
  trace N (Mmul N a b) = trace N (Mmul N b a).
Proof.
  unfold trace, Mmul. rewrite Csum_swap.
  apply Csum_ext. intros i _. apply Csum_ext. intros k _. ring.
Qed.

Lemma trace_coherent (self : atomicSystem) (wL Efield : R) (r : Mat) :
  trace (total_levels self) (coherent self wL Efield r) = RtoC 0.
Proof.
  unfold coherent, Mscale, Msub.
  change (trace (total_levels self)
            (fun i j => (- Ci * (Mmul (total_levels self) (H self wL Efield) r i j
                                 - Mmul (total_levels self) r
                                     (H self wL Efield) i j))%C))
    with (Csum (total_levels self)
            (fun i => (- Ci * (Mmul (total_levels self) (H self wL Efield) r i i
                               - Mmul (total_levels self) r
                                   (H self wL Efield) i i))%C)).
  rewrite Csum_mul_l, Csum_sub.
  change (Csum (total_levels self)
            (fun k => Mmul (total_levels self) (H self wL Efield) r k k))
    with (trace (total_levels self)
            (Mmul (total_levels self) (H self wL Efield) r)).
  change (Csum (total_levels self)
            (fun k => Mmul (total_levels self) r (H self wL Efield) k k))
    with (trace (total_levels self)
            (Mmul (total_levels self) r (H self wL Efield))).
  rewrite trace_Mmul_comm. ring.
Qed.

Lemma trace_Lindblad_decay (self : atomicSystem) (r : Mat) (rates : RMat) :
  trace (total_levels self) (Lindblad_decay self r rates) = RtoC 0.
Proof.
  unfold trace.
  rewrite (Csum_ext _ _
             (fun i => (Csum (total_levels self)
                          (fun j => RtoC (rates j i) * r j j)
                        - Csum (total_levels self)
                            (fun j => RtoC (rates i j) * r i i))%C)).
  - rewrite Csum_sub, Csum_swap. ring.
  - intros i Hi. rewrite Lindblad_decay_entry.
    destruct (Nat.ltb_spec i (total_levels self)); [|lia].
    rewrite Nat.eqb_refl. unfold population_flow. apply Csum_sub.
Qed.

Lemma trace_Lindblad_dephase (self : atomicSystem) (r : Mat) (rates : RMat) :
  trace (total_levels self) (Lindblad_dephase self r rates) = RtoC 0.
Proof.
  apply Csum_zero. intros i _. rewrite Lindblad_dephase_entry.
  rewrite Nat.eqb_refl, andb_false_r. reflexivity.
Qed.

Lemma trace_Msub (N : nat) (a b : Mat) :
  trace N (Msub a b) = (trace N a - trace N b)%C.
Proof. unfold trace, Msub. apply Csum_sub. Qed.

(** X9: the diagonal entries of the master equation sum to 0 at every density
    matrix, for both collision models: one of its equations follows from
    the others, the one [__init__] overwrites with the trace condition. *)
Theorem master_equation_traceless
        (self : atomicSystem) (me : SMat) (wL Efield tau_t : R) (r : Mat) :
  master_equation self = Some me ->
  trace (total_levels self) (me wL Efield tau_t r) = RtoC 0.
Proof.
  unfold master_equation.
  destruct (String.eqb (collisions_or_default self) "decay").
  - intros [= <-].
    rewrite trace_Msub, trace_coherent, trace_Lindblad_decay. ring.
  - destruct (String.eqb (collisions_or_default self) "dephase");
      [|discriminate].
    intros [= <-].
    rewrite !trace_Msub, trace_coherent, trace_Lindblad_decay,
      trace_Lindblad_dephase.
    ring.
Qed.

Lemma master_equation_traceless_witness :
  exists me,
    master_equation two_level = Some me
    /\ trace (total_levels two_level) (me 0 1 1 excited_state) = RtoC 0.
Proof.
  eexists. split; [reflexivity|].
  apply (master_equation_traceless two_level _ 0 1 1 excited_state).
  reflexivity.
Defined.

(** ** The list of symbols *)

Lemma map_add_seq (a s n : nat) :
  map (fun j => (a + j)%nat) (seq s n) = seq (a + s) n.
Proof.
  revert s. induction n as [|n IH]; intros s; cbn; [reflexivity|].
  rewrite IH, Nat.add_succ_r. reflexivity.
Qed.

Lemma all_pairs_rows (N n : nat) :
  map (fun s => (fst s * N + snd s)%nat)
      (flat_map (fun i => map (fun j => (i, j)) (seq 0 N)) (seq 0 n))
  = seq 0 (n * N).
Proof.
  induction n as [|n IH]; [reflexivity|].
  rewrite seq_S, flat_map_app, map_app, IH. cbn [flat_map Nat.add].
  rewrite app_nil_r, map_map. cbn [fst snd].
  rewrite (map_add_seq (n * N) 0 N), Nat.add_0_r.
  replace (S n * N)%nat with (n * N + N)%nat by lia.
  rewrite seq_app. reflexivity.
Qed.

Lemma all_pairs_NoDup (N : nat) : NoDup (all_pairs N).
Proof.
  apply NoDup_map_inv with (f := fun s : nat * nat => (fst s * N + snd s)%nat).
  unfold all_pairs. rewrite all_pairs_rows. apply seq_NoDup.
Qed.

Lemma in_matrix2list_pairs (N i j : nat) :
  In (i, j) (matrix2list N (fun i j => (i, j))) <-> (i < N)%nat /\ (j < N)%nat.
Proof.
  unfold matrix2list. rewrite !in_app_iff, in_map_iff, !in_flat_map.
  split.
  - intros [(k & [= <- <-] & Hk)|[(k & Hk & Hin)|(k & Hk & Hin)]].
    + apply in_seq in Hk. lia.
    + apply in_map_iff in Hin. destruct Hin as (k' & [= <- <-] & Hk').
      apply in_seq in Hk, Hk'. lia.
    + apply in_map_iff in Hin. destruct Hin as (k' & [= <- <-] & Hk').
      apply in_seq in Hk, Hk'. lia.
  - intros [Hi Hj]. destruct (Nat.lt_trichotomy i j) as [Hlt|[->|Hgt]].
    + right. left. exists i. split; [apply in_seq; lia|].
      apply in_map_iff. exists j. split; [reflexivity|apply in_seq; lia].
    + left. exists j. split; [reflexivity|apply in_seq; lia].
    + right. right. exists j. split; [apply in_seq; lia|].
      apply in_map_iff. exists i. split; [reflexivity|apply in_seq; lia].
Qed.

Lemma r_list_NoDup (self : atomicSystem) : NoDup (r_list self).
Proof.
  apply NoDup_incl_NoDup with (l := all_pairs (total_levels self)).
  - apply all_pairs_NoDup.
  - unfold r_list, all_pairs. rewrite length_matrix2list.
    rewrite (length_rows _ (total_levels self))
      by (intros; rewrite length_map, length_seq; reflexivity).
    lia.
  - intros [i j] Hin. apply in_matrix2list_pairs.
    unfold all_pairs in Hin. apply in_flat_map in Hin.
    destruct Hin as (k & Hk & Hin). apply in_map_iff in Hin.
    destruct Hin as (k' & [= <- <-] & Hk'). apply in_seq in Hk, Hk'. lia.
Qed.

(** X10: [matrix2list] lists every entry of the matrix exactly once: the list
    of symbols has [N * N] entries without repetition, and a symbol is in
    it exactly when its two indices are levels. *)
Theorem r_list_enumerates (self : atomicSystem) :
  List.length (r_list self) = (total_levels self * total_levels self)%nat
  /\ NoDup (r_list self)
  /\ forall i j, In (i, j) (r_list self)
                 <-> (i < total_levels self)%nat /\ (j < total_levels self)%nat.
Proof.
  split; [apply length_matrix2list|]. split; [apply r_list_NoDup|].
  intros i j. apply in_matrix2list_pairs.
Qed.

(** ** The compiled matrix represents the system *)

Lemma linear_combination (F : Mat -> Mat) (n : nat) (x : nat -> C)
      (U : nat -> Mat) (i j : nat) :
  additive F -> homogeneous F -> (forall i j, F zeros i j = RtoC 0) ->
  F (fun i j => Csum n (fun c => (x c * U c i j)%C)) i j
  = Csum n (fun c => (x c * F (U c) i j)%C).
Proof.
  intros Hadd Hhom Hzero. revert i j. induction n as [|n IH]; intros i j.
  - apply Hzero.
  - cbn [Csum].
    change (fun i j => (Csum n (fun c => x c * U c i j) + x n * U n i j)%C)
      with (Madd (fun i j => Csum n (fun c => (x c * U c i j)%C))
                 (Mscale (x n) (U n))).
    rewrite Hadd, Hhom, IH. reflexivity.
Qed.

Lemma Mmul_linear_r (N : nat) (a : Mat) :
  additive (Mmul N a) /\ homogeneous (Mmul N a)
  /\ forall i j, Mmul N a zeros i j = RtoC 0.
Proof.
  unfold additive, homogeneous, Mmul, Madd, Mscale, zeros. repeat split.
  - intros r s i j. rewrite <- Csum_add. apply Csum_ext. intros; ring.
  - intros z r i j. rewrite <- Csum_mul_l. apply Csum_ext. intros; ring.
  - intros i j. apply Csum_zero. intros; ring.
Qed.

Lemma Mmul_linear_l (N : nat) (b : Mat) :
  additive (fun r => Mmul N r b) /\ homogeneous (fun r => Mmul N r b)
  /\ forall i j, Mmul N zeros b i j = RtoC 0.
Proof.
  unfold additive, homogeneous, Mmul, Madd, Mscale, zeros. repeat split.
  - intros r s i j. rewrite <- Csum_add. apply Csum_ext. intros; ring.
  - intros z r i j. rewrite <- Csum_mul_l. apply Csum_ext. intros; ring.
  - intros i j. apply Csum_zero. intros; ring.
Qed.

Lemma coherent_linear (self : atomicSystem) (wL Efield : R) :
  additive (coherent self wL Efield)
  /\ homogeneous (coherent self wL Efield)
  /\ forall i j, coherent self wL Efield zeros i j = RtoC 0.
Proof.
  destruct (Mmul_linear_r (total_levels self) (H self wL Efield))
    as (Ha1 & Hh1 & Hz1).
  destruct (Mmul_linear_l (total_levels self) (H self wL Efield))
    as (Ha2 & Hh2 & Hz2).
  assert (Hscale : forall (a : Mat) i j,
             Mscale (- Ci)%C a i j = (- Ci * a i j)%C) by reflexivity.
  unfold additive, homogeneous, coherent in *. repeat split.
  - intros r s i j. rewrite !Hscale. unfold Msub.
    rewrite Ha1, (Ha2 r s). ring.
  - intros z r i j. rewrite !Hscale. unfold Msub.
    rewrite Hh1, (Hh2 z r). ring.
  - intros i j. rewrite !Hscale. unfold Msub. rewrite Hz1, Hz2. ring.
Qed.

Lemma population_flow_linear (N : nat) (rates : RMat) (a : nat) :
  (forall r s, Csum N (population_flow (Madd r s) rates a)
               = (Csum N (population_flow r rates a)
                  + Csum N (population_flow s rates a))%C)
  /\ (forall z r, Csum N (population_flow (Mscale z r) rates a)
                  = (z * Csum N (population_flow r rates a))%C)
  /\ Csum N (population_flow zeros rates a) = RtoC 0.
Proof.
  unfold population_flow, Madd, Mscale, zeros. repeat split.
  - intros r s. rewrite <- Csum_add. apply Csum_ext. intros; ring.
  - intros z r. rewrite <- Csum_mul_l. apply Csum_ext. intros; ring.
  - apply Csum_zero. intros; ring.
Qed.

Lemma coherence_loss_linear (self : atomicSystem) (rates : RMat) (a b : nat) :
  (forall r s, coherence_loss self (Madd r s) rates a b
               = (coherence_loss self r rates a b
                  + coherence_loss self s rates a b)%C)
  /\ (forall z r, coherence_loss self (Mscale z r) rates a b
                  = (z * coherence_loss self r rates a b)%C)
  /\ coherence_loss self zeros rates a b = RtoC 0.
Proof.
  unfold coherence_loss, Madd, Mscale, zeros. repeat split.
  - intros r s. rewrite <- Csum_add. apply Csum_ext. intros; ring.
  - intros z r. rewrite <- Csum_mul_l. apply Csum_ext. intros; ring.
  - apply Csum_zero. intros; ring.
Qed.

Lemma Lindblad_decay_linear (self : atomicSystem) (rates : RMat) :
  additive (fun r => Lindblad_decay self r rates)
  /\ homogeneous (fun r => Lindblad_decay self r rates)
  /\ forall i j, Lindblad_decay self zeros rates i j = RtoC 0.
Proof.
  unfold additive, homogeneous. repeat split.
  - intros r s i j. rewrite !Lindblad_decay_entry.
    destruct (population_flow_linear (total_levels self) rates i)
      as (-> & _ & _).
    destruct (coherence_loss_linear self rates i j) as (-> & _ & _).
    repeat match goal with
           | |- context [if ?c then _ else _] => destruct c
           end; ring.
  - intros z r i j. rewrite !Lindblad_decay_entry.
    destruct (population_flow_linear (total_levels self) rates i)
      as (_ & -> & _).
    destruct (coherence_loss_linear self rates i j) as (_ & -> & _).
    repeat match goal with
           | |- context [if ?c then _ else _] => destruct c
           end; ring.
  - intros i j. rewrite !Lindblad_decay_entry.
    destruct (population_flow_linear (total_levels self) rates i)
      as (_ & _ & ->).
    destruct (coherence_loss_linear self rates i j) as (_ & _ & ->).
    repeat match goal with
           | |- context [if ?c then _ else _] => destruct c
           end; ring.
Qed.

Lemma Lindblad_dephase_linear (self : atomicSystem) (rates : RMat) :
  additive (fun r => Lindblad_dephase self r rates)
  /\ homogeneous (fun r => Lindblad_dephase self r rates)
  /\ forall i j, Lindblad_dephase self zeros rates i j = RtoC 0.
Proof.
  unfold additive, homogeneous. repeat split; intros;
    rewrite !Lindblad_dephase_entry; unfold Madd, Mscale, zeros;
    destruct (_ && _); ring.
Qed.

(** The master equation is linear in the density matrix. *)
Lemma master_equation_linear (self : atomicSystem) (me : SMat)
      (wL Efield tau_t : R) :
  master_equation self = Some me ->
  additive (me wL Efield tau_t) /\ homogeneous (me wL Efield tau_t)
  /\ forall i j, me wL Efield tau_t zeros i j = RtoC 0.
Proof.
  unfold master_equation.
  destruct (coherent_linear self wL Efield) as (Hca & Hch & Hcz).
  destruct (String.eqb (collisions_or_default self) "decay").
  - intros [= <-].
    match goal with
    | |- context [Lindblad_decay self _ ?g] =>
        destruct (Lindblad_decay_linear self g) as (Hda & Hdh & Hdz)
    end.
    unfold additive, homogeneous in *. repeat split; intros; unfold Msub.
    + rewrite Hca, Hda. ring.
    + rewrite Hch, Hdh. ring.
    + rewrite Hcz, Hdz. ring.
  - destruct (String.eqb (collisions_or_default self) "dephase");
      [|discriminate].
    intros [= <-].
    match goal with
    | |- context [Lindblad_decay self _ ?g] =>
        destruct (Lindblad_decay_linear self g) as (Hda & Hdh & Hdz)
    end.
    match goal with
    | |- context [Lindblad_dephase self _ ?g] =>
        destruct (Lindblad_dephase_linear self g) as (Hpa & Hph & Hpz)
    end.
    unfold additive, homogeneous in *. repeat split; intros; unfold Msub.
    + rewrite Hca, Hda, Hpa. ring.
    + rewrite Hch, Hdh, Hph. ring.
    + rewrite Hcz, Hdz, Hpz. ring.
Qed.

Lemma trace_linear (N : nat) :
  (forall r s, trace N (Madd r s) = (trace N r + trace N s)%C)
  /\ (forall z r, trace N (Mscale z r) = (z * trace N r)%C).
Proof.
  unfold trace, Madd, Mscale. split; intros.
  - apply Csum_add.
  - apply Csum_mul_l.
Qed.

(** The system matrix less its value at 0 is linear in the density
    matrix. *)
Lemma system_matrix_linear (self : atomicSystem) sm (wL Efield : R) :
  system_matrix self = Ok sm ->
  let L := fun r i j => (sm wL Efield r i j - sm wL Efield zeros i j)%C in
  additive L /\ homogeneous L /\ forall i j, L zeros i j = RtoC 0.
Proof.
  unfold system_matrix.
  destruct (master_equation self) as [me|] eqn:Hme; [|discriminate].
  destruct (total_levels self =? 0)%nat; [discriminate|].
  intros [= <-].
  destruct (master_equation_linear self me wL Efield (transit_time self) Hme)
    as (Ha & Hh & Hz).
  destruct (trace_linear (total_levels self)) as [Hta Hth].
  unfold additive, homogeneous in *. cbv zeta. unfold set_entry.
  repeat split; intros;
    destruct ((_ =? 0)%nat && (_ =? 0)%nat);
    rewrite ?Hta, ?Hth, ?Ha, ?Hh, ?Hz, ?trace_zeros; ring.
Qed.

Lemma system_matrix_at_zero (self : atomicSystem) sm (wL Efield : R)
      (row : nat) :
  system_matrix self = Ok sm ->
  (- sm wL Efield zeros (row / total_levels self)%nat
                        (row mod total_levels self)%nat)%C
  = if (row =? 0)%nat then RtoC 1 else RtoC 0.
Proof.
  unfold system_matrix.
  destruct (master_equation self) as [me|] eqn:Hme; [|discriminate].
  destruct (Nat.eqb_spec (total_levels self) 0) as [|HN]; [discriminate|].
  intros [= <-].
  destruct (master_equation_linear self me wL Efield (transit_time self) Hme)
    as (_ & _ & Hz).
  unfold set_entry. rewrite trace_zeros, Hz.
  destruct (Nat.eqb_spec row 0) as [->|Hrow].
  - rewrite Nat.Div0.div_0_l, Nat.Div0.mod_0_l. cbn. cring.
  - destruct (Nat.eqb_spec (row / total_levels self) 0) as [Hd|_];
      [|cbn; cring].
    destruct (Nat.eqb_spec (row mod total_levels self) 0) as [Hm|_];
      [|cbn; cring].
    exfalso. apply Hrow.
    rewrite (Nat.div_mod_eq row (total_levels self)), Hd, Hm. lia.
Qed.

(** X11: the vector that [linear_eq_to_matrix] returns and the code discards is
    the vector [b] the code writes by hand: 1 in the first row and 0 in
    the others. *)
Theorem symbolic_b_is_b (self : atomicSystem) A b sm (wL Efield : R)
        (row : nat) :
  generate_linear_system self = Ok (A, b) ->
  system_matrix self = Ok sm ->
  snd (linear_eq_to_matrix (total_levels self) (sm wL Efield) (r_list self))
      row
  = b row.
Proof.
  intros Hgls Hsm. cbn [snd linear_eq_to_matrix].
  rewrite (system_matrix_at_zero self sm wL Efield row Hsm).
  unfold generate_linear_system in Hgls. rewrite Hsm in Hgls.
  injection Hgls as _ <-. reflexivity.
Qed.

Lemma symbolic_b_is_b_witness :
  exists A b sm,
    generate_linear_system two_level = Ok (A, b)
    /\ snd (linear_eq_to_matrix (total_levels two_level) (sm 0 1)
              (r_list two_level)) 3%nat
       = b 3%nat.
Proof.
  do 3 eexists. split; [reflexivity|].
  eapply (symbolic_b_is_b two_level); reflexivity.
Defined.

Lemma Csum_single (n c : nat) (f : nat -> C) :
  (c < n)%nat -> (forall k, (k < n)%nat -> k <> c -> f k = RtoC 0) ->
  Csum n f = f c.
Proof.
  intros Hc Hf. induction n as [|n IH]; [lia|]. cbn.
  destruct (Nat.eq_dec c n) as [->|Hne].
  - rewrite Csum_zero by (intros; apply Hf; lia). ring.
  - rewrite IH by (try lia; intros; apply Hf; lia).
    rewrite (Hf n) by lia. ring.
Qed.

(** The entry of [density_of x] at the symbol number [c] is [x c]. *)
Lemma density_of_coordinate (self : atomicSystem) (x : nat -> C)
      (c i j : nat) :
  nth_error (r_list self) c = Some (i, j) ->
  density_of self x i j = x c.
Proof.
  intros Hc. unfold density_of.
  assert (Hlt : (c < total_levels self * total_levels self)%nat).
  { rewrite <- (length_matrix2list (total_levels self) (fun i j => (i, j))).
    apply nth_error_Some. unfold r_list in Hc. congruence. }
  rewrite (Csum_single _ c); [|exact Hlt|].
  - unfold symbol_at. rewrite Hc. unfold unit_at. cbn [fst snd].
    rewrite !Nat.eqb_refl. cbn. cring.
  - intros k Hk Hne. unfold symbol_at.
    destruct (nth_error (r_list self) k) as [[i' j']|] eqn:Hk';
      [|unfold zeros; cring].
    unfold unit_at. cbn [fst snd].
    destruct (Nat.eqb_spec i i') as [->|]; [|cbn; cring].
    destruct (Nat.eqb_spec j j') as [->|]; [|cbn; cring].
    exfalso. apply Hne.
    apply (proj1 (NoDup_nth_error (r_list self)) (r_list_NoDup self)).
    + apply nth_error_Some. congruence.
    + congruence.
Qed.

Lemma linear_system_row (self : atomicSystem) A b sm (wL Efield : R)
      (x : nat -> C) (row : nat) :
  generate_linear_system self = Ok (A, b) ->
  system_matrix self = Ok sm ->
  (Csum (total_levels self * total_levels self)
     (fun c => A wL Efield row c * x c) - b row)%C
  = sm wL Efield (density_of self x) (row / total_levels self)%nat
       (row mod total_levels self)%nat.
Proof.
  intros Hgls Hsm.
  pose proof (system_matrix_at_zero self sm wL Efield row Hsm) as Hzero.
  destruct (system_matrix_linear self sm wL Efield Hsm) as (Ha & Hh & Hz).
  pose proof (linear_combination _ (total_levels self * total_levels self)
                x (symbol_at self) (row / total_levels self)
                (row mod total_levels self) Ha Hh Hz) as Hcomb.
  cbv beta in Hcomb. fold (density_of self x) in Hcomb.
  unfold generate_linear_system in Hgls. rewrite Hsm in Hgls.
  injection Hgls as <- <-. cbn [fst linear_eq_to_matrix].
  rewrite <- Hzero.
  rewrite (Csum_ext _ _
             (fun c => (x c * (sm wL Efield (symbol_at self c)
                                 (row / total_levels self)%nat
                                 (row mod total_levels self)%nat
                               - sm wL Efield zeros
                                   (row / total_levels self)%nat
                                   (row mod total_levels self)%nat))%C)).
  - rewrite <- Hcomb. ring.
  - intros c _. unfold symbol_at.
    destruct (nth_error (r_list self) c); ring.
Qed.

(** X12: [A] represents the system matrix: [A x - b], row by row, is the system
    matrix at the density matrix with the coordinates [x], so that [x]
    solves [A x = b] exactly when every entry of the system matrix is 0
    there. *)
Theorem linear_system_represents
        (self : atomicSystem) A b sm (wL Efield : R) (x : nat -> C) :
  generate_linear_system self = Ok (A, b) ->
  system_matrix self = Ok sm ->
  (forall c i j, nth_error (r_list self) c = Some (i, j) ->
                 density_of self x i j = x c)
  /\ (solves (total_levels self * total_levels self) (A wL Efield) b x
      <-> forall i j, (i < total_levels self)%nat ->
                      (j < total_levels self)%nat ->
                      sm wL Efield (density_of self x) i j = RtoC 0).
Proof.
  intros Hgls Hsm. split; [apply density_of_coordinate|].
  pose proof (fun row => linear_system_row self A b sm wL Efield x row
                          Hgls Hsm) as Hrow.
  unfold solves. split.
  - intros Hsol i j Hi Hj.
    specialize (Hrow (i * total_levels self + j)%nat).
    rewrite Nat.div_add_l, Nat.div_small, Nat.add_0_r in Hrow by lia.
    rewrite Nat.add_comm, Nat.Div0.mod_add, Nat.mod_small in Hrow by lia.
    rewrite <- Hrow, Hsol by nia. ring.
  - intros Hzero row Hlt.
    assert (HN : total_levels self <> O) by nia.
    specialize (Hrow row).
    rewrite Hzero in Hrow.
    + assert (Heq : forall a b0 : C, (a - b0)%C = RtoC 0 -> a = b0).
      { intros a b0 Hab. replace a with ((a - b0) + b0)%C by ring.
        rewrite Hab. ring. }
      apply Heq. exact Hrow.
    + apply Nat.Div0.div_lt_upper_bound. lia.
    + apply Nat.mod_upper_bound. exact HN.
Qed.

Lemma linear_system_represents_witness :
  exists A b sm,
    generate_linear_system two_level = Ok (A, b)
    /\ system_matrix two_level = Ok sm
    /\ (solves (total_levels two_level * total_levels two_level) (A 0 0) b
               ground_population
        <-> forall i j, (i < total_levels two_level)%nat ->
                        (j < total_levels two_level)%nat ->
                        sm 0 0 (density_of two_level ground_population) i j
                        = RtoC 0).
Proof.
  do 3 eexists. split; [reflexivity|]. split; [reflexivity|].
  exact (proj2 (linear_system_represents two_level _ _ _ 0 0
                  ground_population eq_refl eq_refl)).
Defined.

(** ** The two transition masks *)

Lemma transition_mask2_spec (self : atomicSystem) (i j : nat) :
  transition_mask2 self (i, j)
  = ((n0 self <=? i)%nat && (i <? n0 self + n1 self)%nat) && (j <? n0 self)%nat.
Proof.
  unfold transition_mask2, set_block, const, in_slice, slices0, slices1.
  cbn [fst snd]. destruct (_ && _); reflexivity.
Qed.

Lemma transition_filter2 (self : atomicSystem) :
  filter (transition_mask2 self) (r_list self)
  = flat_map (fun i => map (fun j => (j, i)) (seq (n0 self) (n1 self)))
             (seq 0 (n0 self)).
Proof.
  unfold r_list, matrix2list, total_levels. rewrite !filter_app.
  rewrite (filter_none _ (map _ _)).
  2:{ intros [i j] Hin. apply in_map_iff in Hin.
      destruct Hin as (k & [= <- <-] & _).
      rewrite transition_mask2_spec. nat_cases; reflexivity. }
  rewrite (filter_none _ (flat_map (fun i => map (fun j => (i, j)) _) _)).
  2:{ intros [i j] Hin. apply in_flat_map in Hin.
      destruct Hin as (k & _ & Hin). apply in_map_iff in Hin.
      destruct Hin as (k' & [= <- <-] & Hk'). apply in_seq in Hk'.
      rewrite transition_mask2_spec. nat_cases; reflexivity. }
  cbn [app].
  rewrite filter_flat_map, seq_app, flat_map_app. cbn [Nat.add].
  rewrite (flat_map_nil _ (seq (n0 self) (n1 self))).
  2:{ intros i Hi. apply in_seq in Hi. apply filter_none.
      intros [i' j] Hin. apply in_map_iff in Hin.
      destruct Hin as (k & [= <- <-] & _).
      rewrite transition_mask2_spec. nat_cases; reflexivity. }
  rewrite app_nil_r. apply flat_map_ext_In. intros i Hi.
  apply in_seq in Hi. rewrite filter_map_comm. f_equal.
  replace (n0 self + n1 self - (i + 1))%nat
    with ((n0 self - (i + 1)) + n1 self)%nat by lia.
  rewrite seq_app, filter_app.
  replace (i + 1 + (n0 self - (i + 1)))%nat with (n0 self) by lia.
  rewrite filter_none, filter_all; [reflexivity| |].
  - intros j Hj. apply in_seq in Hj. rewrite transition_mask2_spec.
    nat_cases; reflexivity.
  - intros j Hj. apply in_seq in Hj. rewrite transition_mask2_spec.
    nat_cases; reflexivity.
Qed.

Lemma transition_coordinates2 (self : atomicSystem) :
  List.length (np.nonzero (transition_list2 self)) = (n0 self * n1 self)%nat
  /\ forall m, (m < n0 self * n1 self)%nat ->
       nth_error (r_list self) (nth m (np.nonzero (transition_list2 self)) O)
       = Some ((n0 self + m mod n1 self)%nat, (m / n1 self)%nat).
Proof.
  pose proof (nonzero_filter (transition_mask2 self) (r_list self)) as Hnz.
  assert (Hl : transition_list2 self
               = map (transition_mask2 self) (r_list self)).
  { unfold transition_list2, r_list, transition_mask2.
    rewrite <- matrix2list_map. reflexivity. }
  rewrite <- Hl, transition_filter2 in Hnz.
  assert (Hlen : List.length (np.nonzero (transition_list2 self))
                 = (n0 self * n1 self)%nat).
  { apply (f_equal (@List.length _)) in Hnz. rewrite !length_map in Hnz.
    rewrite Hnz. apply length_rows.
    intros i. rewrite length_map, length_seq. reflexivity. }
  split; [exact Hlen|]. intros m Hm.
  apply (f_equal (fun l => nth_error l m)) in Hnz.
  rewrite !nth_error_map in Hnz.
  rewrite (nth_error_rows _ (n1 self)) in Hnz;
    [|intros; rewrite length_map, length_seq; reflexivity|exact Hm].
  assert (Hn1 : (0 < n1 self)%nat) by nia.
  rewrite nth_error_map, nth_error_seq in Hnz.
  destruct (Nat.ltb_spec (m mod n1 self) (n1 self)) as [_|Hbad];
    [|pose proof (Nat.mod_upper_bound m (n1 self)); lia].
  rewrite (nth_error_nth' _ O) in Hnz by (rewrite Hlen; exact Hm).
  cbn in Hnz. injection Hnz as Hnz. exact Hnz.
Qed.

(** X13: the two masks of [generate_linear_system] keep as many coordinates as
    there are ground-excited transitions, in the same order: the
    coordinate number [m] of [transition_list2] is the symbol transposed
    to the coordinate number [m] of [transition_list], the one of the
    ground sublevel [m / n1] and the excited sublevel [m mod n1]. *)
Theorem transition_lists_transposed (self : atomicSystem) :
  List.length (np.nonzero (transition_list self)) = (n0 self * n1 self)%nat
  /\ List.length (np.nonzero (transition_list2 self))
     = (n0 self * n1 self)%nat
  /\ forall m, (m < n0 self * n1 self)%nat ->
       let g := (m / n1 self)%nat in
       let e := (n0 self + m mod n1 self)%nat in
       nth_error (r_list self) (nth m (np.nonzero (transition_list self)) O)
       = Some (g, e)
       /\ nth_error (r_list self)
                    (nth m (np.nonzero (transition_list2 self)) O)
          = Some (e, g)
       /\ nth m (np.nonzero (transition_list self)) O
          <> nth m (np.nonzero (transition_list2 self)) O.
Proof.
  destruct (transition_coordinates self) as [Hl1 Hc1].
  destruct (transition_coordinates2 self) as [Hl2 Hc2].
  split; [exact Hl1|]. split; [exact Hl2|].
  intros m Hm g e. specialize (Hc1 m Hm). specialize (Hc2 m Hm).
  split; [exact Hc1|]. split; [exact Hc2|].
  intros Heq. rewrite Heq, Hc2 in Hc1. injection Hc1 as H1 H2.
  assert (m / n1 self < n0 self)%nat
    by (apply Nat.Div0.div_lt_upper_bound; lia).
  lia.
Qed.

Lemma transition_lists_transposed_witness :
  nth_error (r_list three_level)
            (nth 1 (np.nonzero (transition_list three_level)) O)
  = Some (1%nat, 2%nat)
  /\ nth_error (r_list three_level)
               (nth 1 (np.nonzero (transition_list2 three_level)) O)
     = Some (2%nat, 1%nat).
Proof.
  destruct (transition_lists_transposed three_level) as (_ & _ & Hm).
  destruct (Hm 1%nat ltac:(cbn; lia)) as (H1 & H2 & _).
  split; [exact H1|exact H2].
Defined.

(** ** Errors of solve and solve_w_doppler *)

(** X14: [solve] fails before any linear system is solved when the list of
    beams is empty or the linear system was not generated; and on a grid
    of several detunings and several amplitudes whose number of detunings
    is not the number of ground-excited transitions, the product of the
    coherences and the weights raises [ValueError], whatever the solver
    returns. *)
Theorem solve_errors
        linalg_solve (self : atomicSystem) (b : beam) (beams : list beam) :
  solve linalg_solve self []
  = Raise (ValueError "not enough values to unpack (expected 3, got 0)")
  /\ (forall e, generate_linear_system self = Raise e ->
        solve linalg_solve self (b :: beams) = Raise e)
  /\ (forall Ab, generate_linear_system self = Ok Ab ->
        (1 <= n0 self)%nat -> (1 <= n1 self)%nat ->
        (2 <= n0 self * n1 self)%nat ->
        (2 <= List.length (atleast_1d (w b)))%nat ->
        (2 <= List.length (atleast_1d (E b)))%nat ->
        List.length (atleast_1d (w b)) <> (n0 self * n1 self)%nat ->
        solve linalg_solve self (b :: beams)
        = Raise (ValueError "operands could not be broadcast together")).
Proof.
  split; [reflexivity|]. split.
  - intros e He. unfold solve. rewrite He. reflexivity.
  - intros [A bv] Hgls Hn0 Hn1 HK Hnw HnE Hne.
    unfold solve. rewrite Hgls. cbn [fst snd].
    destruct (transition_coordinates self) as [HKlen _].
    pose proof (length_matrix2list (total_levels self)
                  (set_block (const false) (slices0 self) (slices1 self)
                             (const true))) as Hmask.
    fold (transition_list self) in Hmask.
    set (NN := (total_levels self * total_levels self)%nat) in *.
    set (nw := List.length (atleast_1d (w b))) in *.
    set (nE := List.length (atleast_1d (E b))) in *.
    assert (HNN : (2 <= NN)%nat) by (unfold NN, total_levels; nia).
    destruct (density_axis_first_grid
                (solve_grid linalg_solve self A bv (atleast_1d (w b))
                            (atleast_1d (E b)))
                nw nE NN eq_refl Hnw HnE HNN) as [Hsh _].
    unfold extract. unfold np.getmask. rewrite Hsh, Hmask, Nat.eqb_refl.
    unfold np.multiply, k_alt. cbn [shape List.length].
    rewrite HKlen. fold nE. unfold np.broadcast_shapes.
    cbn [rev app np.broadcast_rev]. rewrite Nat.eqb_refl.
    destruct (Nat.eqb_spec nw (n0 self * n1 self)) as [|_]; [contradiction|].
    destruct (Nat.eqb_spec nw 1) as [|_]; [lia|].
    destruct (Nat.eqb_spec (n0 self * n1 self) 1) as [|_]; [lia|].
    reflexivity.
Qed.

Lemma solve_errors_witness :
  solve (fun _ _ b => b) three_level
    [mkbeam (Array [0; 1; 2]) "gaussian" (Scalar 1) (Scalar 1)
            (Array [1; 2]) (Array [1; 2])]
  = Raise (ValueError "operands could not be broadcast together").
Proof.
  destruct (generate_linear_system three_level) as [Ab|] eqn:Hgls;
    [|discriminate].
  destruct (solve_errors (fun _ _ b => b) three_level
              (mkbeam (Array [0; 1; 2]) "gaussian" (Scalar 1) (Scalar 1)
                      (Array [1; 2]) (Array [1; 2])) [])
    as (_ & _ & H).
  apply (H Ab Hgls); cbn; lia.
Defined.

(** X15: [solve_w_doppler] fails without a call of the solver on an empty list
    of beams ([IndexError]), on an empty array of detunings ([ValueError]
    of [min]) and, when there is a power, on a beam whose profile [setP]
    does not know ([KeyError] from the construction of the first grid
    beam); an exception of the solver ends the loop after one call. *)
Theorem solve_w_doppler_errors
        (self : atomicSystem) solve1 (beam_ge : beam) (beams : list beam)
        (tr : list event) :
  solve_w_doppler self solve1 [] tr
  = (Raise (IndexError "list index out of range"), tr)
  /\ (atleast_1d (w beam_ge) = [] ->
      solve_w_doppler self solve1 (beam_ge :: beams) tr
      = (Raise (ValueError "zero-size array to reduction operation minimum"),
         tr))
  /\ (atleast_1d (w beam_ge) <> [] -> atleast_1d (P beam_ge) <> [] ->
      profile beam_ge <> "flat"%string ->
      profile beam_ge <> "gaussian"%string ->
      exists tr',
        solve_w_doppler self solve1 (beam_ge :: beams) tr
        = (Raise (KeyError "no beam profile specified"), tr')
        /\ solve_calls tr' = solve_calls tr)
  /\ (atleast_1d (w beam_ge) <> [] -> atleast_1d (P beam_ge) <> [] ->
      profile beam_ge = "flat"%string \/ profile beam_ge = "gaussian"%string ->
      forall e, (forall bs, solve1 bs = Raise e) ->
      exists tr' bs,
        solve_w_doppler self solve1 (beam_ge :: beams) tr = (Raise e, tr')
        /\ solve_calls tr' = solve_calls tr ++ [bs]).
Proof.
  split; [reflexivity|]. split; [|split].
  - intros Hw. unfold solve_w_doppler, bind.
    cbn [list_getitem nth_error ret beam_iter unpack3 fst snd].
    rewrite Hw. reflexivity.
  - intros Hw HP Hflat Hgauss.
    destruct (atleast_1d (w beam_ge)) as [|w0 ws] eqn:Hwge; [congruence|].
    destruct (atleast_1d (P beam_ge)) as [|p ps] eqn:HPge; [congruence|].
    unfold solve_w_doppler, bind.
    cbn [list_getitem nth_error ret beam_iter unpack3 fst snd].
    rewrite Hwge, HPge. cbn [amin amax ret enumerate List.length seq combine].
    cbn [foldM]. unfold bind, doppler_step, bind.
    unfold beam_init, bind. cbn [getitem kw_w kw_profile kw_D kw_E kw_P ret].
    unfold setP, bind, log_info, emit. cbn [profile A].
    apply String.eqb_neq in Hflat, Hgauss. rewrite Hflat, Hgauss.
    unfold raise. eexists. split; [reflexivity|].
    rewrite solve_calls_app. cbn. apply app_nil_r.
  - intros Hw HP Hprofile e Hsolve.
    destruct (atleast_1d (w beam_ge)) as [|w0 ws] eqn:Hwge; [congruence|].
    destruct (atleast_1d (P beam_ge)) as [|p ps] eqn:HPge; [congruence|].
    unfold solve_w_doppler, bind.
    cbn [list_getitem nth_error ret beam_iter unpack3 fst snd].
    rewrite Hwge, HPge. cbn [amin amax ret enumerate List.length seq combine].
    cbn [foldM]. unfold bind at 1.
    unfold doppler_step. cbn [fst snd]. unfold bind at 1.
    rewrite grid_beam_init by exact Hprofile.
    unfold call_solve, bind, emit, lift. rewrite Hsolve.
    eexists; eexists. split; [reflexivity|].
    rewrite !solve_calls_app. cbn. rewrite app_nil_r. reflexivity.
Qed.

Lemma solve_w_doppler_errors_witness :
  (exists tr',
     solve_w_doppler two_level (fun _ => Ok ([], []))
       [mkbeam (Array [0]) "round" (Scalar 1) (Scalar 1) (Scalar 1)
               (Scalar 1)] []
     = (Raise (KeyError "no beam profile specified"), tr')
     /\ solve_calls tr' = [])
  /\ solve_w_doppler two_level (fun _ => Ok ([], []))
       [mkbeam (Array []) "flat" (Scalar 1) (Scalar 1) (Scalar 1)
               (Scalar 1)] []
     = (Raise (ValueError "zero-size array to reduction operation minimum"),
        []).
Proof.
  destruct (solve_w_doppler_errors two_level (fun _ => Ok ([], []))
              (mkbeam (Array [0]) "round" (Scalar 1) (Scalar 1) (Scalar 1)
                      (Scalar 1)) [] [])
    as (_ & _ & H & _).
  destruct (solve_w_doppler_errors two_level (fun _ => Ok ([], []))
              (mkbeam (Array []) "flat" (Scalar 1) (Scalar 1) (Scalar 1)
                      (Scalar 1)) [] [])
    as (_ & H' & _).
  split.
  - apply H; cbn; discriminate.
  - apply H'. reflexivity.
Defined.

(** ** The Hamiltonian and Hermitian density matrices *)

Lemma Cconj_add (a b : C) : Cconj (a + b)%C = (Cconj a + Cconj b)%C.
Proof. apply C_eq; unfold Cconj; csimpl; ring. Qed.

Lemma Cconj_sub (a b : C) : Cconj (a - b)%C = (Cconj a - Cconj b)%C.
Proof. apply C_eq; unfold Cconj; csimpl; ring. Qed.

Lemma Cconj_mul (a b : C) : Cconj (a * b)%C = (Cconj a * Cconj b)%C.
Proof. apply C_eq; unfold Cconj; csimpl; ring. Qed.

Lemma Cconj_opp (a : C) : Cconj (- a)%C = (- Cconj a)%C.
Proof. apply C_eq; unfold Cconj; csimpl; ring. Qed.

Lemma Cconj_RtoC (x : R) : Cconj (RtoC x) = RtoC x.
Proof. apply C_eq; unfold Cconj; csimpl; ring. Qed.

Lemma Cconj_Csum (n : nat) (f : nat -> C) :
  Cconj (Csum n f) = Csum n (fun k => Cconj (f k)).
Proof.
  induction n as [|n IH]; cbn [Csum].
  - apply Cconj_RtoC.
  - rewrite Cconj_add, IH. reflexivity.
Qed.

Lemma H_rabi_entry (self : atomicSystem) (Efield : R) (i j : nat) :
  H_rabi self Efield i j
  = if ((i <? n0 self)%nat && ((n0 self <=? j)%nat
                               && (j <? n0 self + n1 self)%nat))
    then RtoC (0.5e-6 / c.h * dme self i (j - n0 self)%nat * Efield)
    else if ((j <? n0 self)%nat && ((n0 self <=? i)%nat
                                    && (i <? n0 self + n1 self)%nat))
         then RtoC (0.5e-6 / c.h * dme self j (i - n0 self)%nat * Efield)
         else RtoC 0.
Proof.
  unfold H_rabi, Madd, transpose, set_block, in_slice, slices0, slices1,
    zeros.
  cbn [fst snd]. rewrite !Nat.sub_0_r.
  nat_cases; cring.
Qed.

Lemma H_symmetric (self : atomicSystem) (wL Efield : R) (i j : nat) :
  H self wL Efield i j = H self wL Efield j i.
Proof.
  unfold H, Madd. rewrite !H_rabi_entry. unfold H_energylevels.
  nat_cases; reflexivity.
Qed.

Lemma H_real (self : atomicSystem) (wL Efield : R) (i j : nat) :
  Cconj (H self wL Efield i j) = H self wL Efield i j.
Proof.
  unfold H, Madd. rewrite Cconj_add, H_rabi_entry. unfold H_energylevels.
  nat_cases; rewrite !Cconj_RtoC; reflexivity.
Qed.

(** X16: the Hamiltonian [generateMatrices] builds is a real symmetric matrix:
    the Rabi term [0.5e-6 / h * dme * Efield] couples the ground sublevel
    [i] and the excited sublevel [n0 + j] in both directions, there is no
    coupling inside the ground or the excited manifold, and the diagonal
    holds minus the ground energies and the detuning less the excited
    energies. *)
Theorem Hamiltonian_real_symmetric
        (self : atomicSystem) (wL Efield : R) :
  List.length (energySeparation0 self) = n0 self ->
  (forall i j, H self wL Efield i j = H self wL Efield j i
               /\ Im (H self wL Efield i j) = 0)
  /\ (forall i j, (i < n0 self)%nat -> (j < n1 self)%nat ->
        H self wL Efield i (n0 self + j)%nat
        = RtoC (0.5e-6 / c.h * dme self i j * Efield))
  /\ (forall i j, i <> j ->
        ((i < n0 self)%nat /\ (j < n0 self)%nat)
        \/ ((n0 self <= i)%nat /\ (n0 self <= j)%nat) ->
        H self wL Efield i j = RtoC 0)
  /\ (forall i, (i < n0 self)%nat ->
        H self wL Efield i i = RtoC (- nth i (energySeparation0 self) 0))
  /\ (forall j, (j < List.length (energySeparation1 self))%nat ->
        H self wL Efield (n0 self + j)%nat (n0 self + j)%nat
        = RtoC (wL - nth j (energySeparation1 self) 0)).
Proof.
  intros Hlen. split; [|split; [|split; [|split]]].
  - intros i j. split; [apply H_symmetric|].
    pose proof (H_real self wL Efield i j) as Hr.
    apply (f_equal snd) in Hr. unfold Cconj, Im in *. cbn [snd] in Hr. lra.
  - intros i j Hi Hj. unfold H, Madd. rewrite H_rabi_entry.
    unfold H_energylevels.
    replace (n0 self + j - n0 self)%nat with j by lia.
    nat_cases; cring.
  - intros i j Hij Hblock. unfold H, Madd. rewrite H_rabi_entry.
    unfold H_energylevels.
    destruct Hblock as [[Hi Hj]|[Hi Hj]]; nat_cases; cring.
  - intros i Hi. unfold H, Madd. rewrite H_rabi_entry.
    unfold H_energylevels, detunings. rewrite Nat.eqb_refl.
    rewrite app_nth1 by (rewrite length_map, Hlen; exact Hi).
    rewrite (nth_indep _ 0 (- 0)) by (rewrite length_map, Hlen; exact Hi).
    rewrite map_nth.
    nat_cases; cring.
  - intros j Hj. unfold H, Madd. rewrite H_rabi_entry.
    unfold H_energylevels, detunings. rewrite Nat.eqb_refl.
    rewrite app_nth2 by (rewrite length_map, Hlen; lia).
    rewrite length_map, Hlen.
    replace (n0 self + j - n0 self)%nat with j by lia.
    rewrite (nth_indep _ 0 ((fun e => wL - e) 0))
      by (rewrite length_map; exact Hj).
    rewrite (map_nth (fun e => wL - e)).
    nat_cases; cring.
Qed.

Lemma Hamiltonian_real_symmetric_witness :
  H three_level 5 2 O 2%nat = RtoC (0.5e-6 / c.h * 1 * 2)
  /\ H three_level 5 2 2%nat O = RtoC (0.5e-6 / c.h * 1 * 2)
  /\ H three_level 5 2 2%nat 2%nat = RtoC (5 - 0).
Proof.
  destruct (Hamiltonian_real_symmetric three_level 5 2 eq_refl)
    as (Hsym & Hrabi & _ & _ & Hdiag).
  split; [|split].
  - exact (Hrabi O O ltac:(cbn; lia) ltac:(cbn; lia)).
  - rewrite (proj1 (Hsym 2%nat O)).
    exact (Hrabi O O ltac:(cbn; lia) ltac:(cbn; lia)).
  - exact (Hdiag O ltac:(cbn; lia)).
Defined.

Lemma coherent_hermitian (self : atomicSystem) (wL Efield : R) (r : Mat) :
  hermitian (total_levels self) r ->
  hermitian (total_levels self) (coherent self wL Efield r).
Proof.
  intros Hr i j Hi Hj. unfold coherent, Mscale, Msub, Mmul.
  rewrite Cconj_mul, Cconj_sub, !Cconj_Csum.
  rewrite (Csum_ext _ (fun k => Cconj (H self wL Efield j k * r k i)%C)
             (fun k => (r i k * H self wL Efield k j)%C)).
  2:{ intros k Hk. rewrite Cconj_mul, H_real, <- (Hr i k Hi Hk).
      rewrite (H_symmetric self wL Efield j k). ring. }
  rewrite (Csum_ext _ (fun k => Cconj (r j k * H self wL Efield k i)%C)
             (fun k => (H self wL Efield i k * r k j)%C)).
  2:{ intros k Hk. rewrite Cconj_mul, H_real, <- (Hr k j Hk Hj).
      rewrite (H_symmetric self wL Efield k i). ring. }
  apply C_eq; unfold Cconj; csimpl; ring.
Qed.

Lemma Lindblad_decay_hermitian (self : atomicSystem) (r : Mat)
      (rates : RMat) :
  hermitian (total_levels self) r ->
  hermitian (total_levels self) (Lindblad_decay self r rates).
Proof.
  intros Hr i j Hi Hj. rewrite !Lindblad_decay_entry.
  destruct (Nat.ltb_spec i (total_levels self)); [|lia].
  destruct (Nat.ltb_spec j (total_levels self)); [|lia].
  destruct (Nat.eqb_spec j i) as [->|Hne].
  - rewrite Nat.eqb_refl, Cconj_Csum. apply Csum_ext. intros k Hk.
    unfold population_flow.
    rewrite Cconj_sub, !Cconj_mul, !Cconj_RtoC.
    rewrite <- (Hr k k Hk Hk), <- (Hr i i Hi Hi). reflexivity.
  - destruct (Nat.eqb_spec i j) as [|_]; [congruence|].
    unfold coherence_loss. rewrite Cconj_opp, Cconj_Csum. f_equal.
    apply Csum_ext. intros k Hk.
    rewrite Cconj_mul, Cconj_RtoC, <- (Hr i j Hi Hj).
    rewrite (Rplus_comm (rates j k)). reflexivity.
Qed.

Lemma Lindblad_dephase_hermitian (self : atomicSystem) (r : Mat)
      (rates : RMat) :
  (forall a b, rates a b = rates b a) ->
  hermitian (total_levels self) r ->
  hermitian (total_levels self) (Lindblad_dephase self r rates).
Proof.
  intros Hsym Hr i j Hi Hj. rewrite !Lindblad_dephase_entry.
  destruct (Nat.ltb_spec i (total_levels self)); [|lia].
  destruct (Nat.ltb_spec j (total_levels self)); [|lia].
  cbn [andb].
  destruct (Nat.eqb_spec j i) as [->|Hne].
  - rewrite Nat.eqb_refl. cbn [negb]. rewrite Cconj_RtoC. reflexivity.
  - destruct (Nat.eqb_spec i j) as [|_]; [congruence|]. cbn [negb].
    rewrite Cconj_opp, Cconj_mul, Cconj_RtoC, <- (Hr i j Hi Hj).
    rewrite (Hsym j i). reflexivity.
Qed.

Lemma Msub_hermitian (N : nat) (a b : Mat) :
  hermitian N a -> hermitian N b -> hermitian N (Msub a b).
Proof.
  intros Ha Hb i j Hi Hj. unfold Msub.
  rewrite Cconj_sub, <- (Ha i j Hi Hj), <- (Hb i j Hi Hj). reflexivity.
Qed.

(** X17: at a Hermitian density matrix the master equation is Hermitian, for
    both collision models: the equation of the coherence [r[j,i]] is the
    conjugate of the equation of [r[i,j]]. *)
Theorem master_equation_hermitian
        (self : atomicSystem) (me : SMat) (wL Efield tau_t : R) (r : Mat) :
  master_equation self = Some me ->
  hermitian (total_levels self) r ->
  hermitian (total_levels self) (me wL Efield tau_t r).
Proof.
  unfold master_equation.
  destruct (String.eqb (collisions_or_default self) "decay").
  - intros [= <-] Hr.
    apply Msub_hermitian;
      [apply coherent_hermitian|apply Lindblad_decay_hermitian]; exact Hr.
  - destruct (String.eqb (collisions_or_default self) "dephase");
      [|discriminate].
    intros [= <-] Hr.
    apply Msub_hermitian; [apply Msub_hermitian|];
      [apply coherent_hermitian|apply Lindblad_decay_hermitian
       |apply Lindblad_dephase_hermitian]; try exact Hr.
    intros a b. unfold set_block, in_slice, slices0, slices1, const, Rzeros.
    cbn [fst snd]. nat_cases; reflexivity.
Qed.

Lemma master_equation_hermitian_witness :
  exists me,
    master_equation two_level = Some me
    /\ hermitian (total_levels two_level) (me 0 1 1 excited_state).
Proof.
  eexists. split; [reflexivity|].
  apply (master_equation_hermitian two_level _ 0 1 1 excited_state).
  - reflexivity.
  - intros i j Hi Hj. unfold excited_state, unit_at, Cconj. cbn [fst snd].
    destruct ((i =? 1)%nat && (j =? 1)%nat) eqn:Hij,
             ((j =? 1)%nat && (i =? 1)%nat) eqn:Hji;
      try (apply C_eq; csimpl; ring);
      rewrite andb_comm in Hij; congruence.
Defined.

(** ** Temperatures and the transit time *)

(** X18: the temperatures are set exactly when the keys ['T'], ['Constrain'] and
    ['laserWaist'] are there, and ['DoppTemp'] unless the Doppler
    temperature is constrained, in which case that key is not read; 0
    degrees Celsius are 273.15 K, and nothing is logged. *)
Theorem set_thermal_defined (p : thermal_dict) (tr : list event) :
  (forall T0 d, pd_T p = Some T0 -> pd_Constrain p = Some true ->
      pd_laserWaist p = Some d ->
      set_thermal p tr
      = (Ok (mkthermal (T0 + 273.15) (T0 + 273.15) d), tr))
  /\ (forall T0 TD d, pd_T p = Some T0 -> pd_Constrain p = Some false ->
        pd_DoppTemp p = Some TD -> pd_laserWaist p = Some d ->
        set_thermal p tr
        = (Ok (mkthermal (T0 + 273.15) (TD + 273.15) d), tr))
  /\ ((exists th tr', set_thermal p tr = (Ok th, tr'))
      <-> pd_T p <> None /\ pd_laserWaist p <> None
          /\ (pd_Constrain p = Some true
              \/ (pd_Constrain p = Some false /\ pd_DoppTemp p <> None)))
  /\ (pd_T p = None -> set_thermal p tr = (Raise (KeyError "T"), tr)).
Proof.
  destruct p as [[T0|] [[|]|] [TD|] [d|] g];
    unfold set_thermal, bind, getitem, ret, raise;
    cbn [pd_T pd_Constrain pd_DoppTemp pd_laserWaist];
    (split; [intros T0' d' H1 H2 H3|
     split; [intros T0' TD' d' H1 H2 H3 H4|
     split; [split;
             [intros (th & tr' & Heq)
             |intros (H1 & H2 & [H3|[H3 H4]])]
            |intros H1]]]);
    try discriminate; try congruence;
    try (injection H1 as <-); try (injection H3 as <-);
    try (injection H4 as <-); try reflexivity;
    try (eexists; eexists; reflexivity);
    repeat split; try discriminate; auto;
    try (right; split; [reflexivity|discriminate]).
Qed.

Lemma set_thermal_defined_witness :
  set_thermal (mkthermal_dict (Some 20) (Some true) None (Some 5e-3) None) []
  = (Ok (mkthermal (20 + 273.15) (20 + 273.15) 5e-3), []).
Proof.
  destruct (set_thermal_defined
              (mkthermal_dict (Some 20) (Some true) None (Some 5e-3) None) [])
    as (H & _).
  apply H; reflexivity.
Defined.

Lemma transit_speed_pos (mass DoppT : R) :
  0 < mass -> 0 < DoppT -> 0 < PI * c.k * DoppT / 2 / mass.
Proof.
  intros Hm HT. pose proof PI_RGT_0 as Hpi.
  assert (Hk : 0 < c.k) by (unfold c.k; lra).
  apply Rdiv_lt_0_compat; [|exact Hm].
  apply Rdiv_lt_0_compat; [|lra].
  apply Rmult_lt_0_compat; [|exact HT].
  apply Rmult_lt_0_compat; assumption.
Qed.

(** X19: the transit time is the mean path [pi / 4 * beam_diameter] over the
    absolute value of the speed: a speed and its opposite give the same
    time, positive for a positive diameter.  With the default speed, for
    a positive mass and Doppler temperature, it is
    [beam_diameter / 4 * sqrt(2 pi mass / (k DoppT))]. *)
Theorem getTransitTime_values (mass DoppT d : R) :
  (forall v, v <> 0 ->
     getTransitTime mass DoppT d (Some (- v))
     = getTransitTime mass DoppT d (Some v)
     /\ getTransitTime mass DoppT d (Some v) * Rabs v = PI / 4 * d
     /\ (0 < d -> 0 < getTransitTime mass DoppT d (Some v)))
  /\ (0 < mass -> 0 < DoppT ->
      getTransitTime mass DoppT d None
      = d / 4 * sqrt (2 * PI * mass / (c.k * DoppT))).
Proof.
  pose proof PI_RGT_0 as Hpi. split.
  - intros v Hv. unfold getTransitTime.
    assert (Habs : 0 < Rabs v) by (apply Rabs_pos_lt; exact Hv).
    split; [rewrite Rabs_Ropp; reflexivity|]. split.
    + field. lra.
    + intros Hd. apply Rdiv_lt_0_compat; [|exact Habs].
      apply Rmult_lt_0_compat; lra.
  - intros Hm HT. unfold getTransitTime.
    assert (Hk : 0 < c.k) by (unfold c.k; lra).
    pose proof (transit_speed_pos mass DoppT Hm HT) as Ha.
    set (a := PI * c.k * DoppT / 2 / mass) in *.
    assert (Hs : 0 < sqrt a) by (apply sqrt_lt_R0; exact Ha).
    rewrite (Rabs_pos_eq (sqrt a)) by lra.
    assert (Heq : 2 * PI * mass / (c.k * DoppT) = PI * PI / a).
    { unfold a. field. repeat split; lra. }
    rewrite Heq, sqrt_div_alt by exact Ha.
    rewrite sqrt_square by lra. field. lra.
Qed.

Lemma getTransitTime_values_witness :
  getTransitTime 1 300 2 (Some (- (1)))
  = getTransitTime 1 300 2 (Some 1)
  /\ getTransitTime 1 300 2 None
     = 2 / 4 * sqrt (2 * PI * 1 / (c.k * 300)).
Proof.
  destruct (getTransitTime_values 1 300 2) as [Hv Hd].
  split.
  - apply (Hv 1). lra.
  - apply Hd; lra.
Defined.

(** X20: [__init__] stores the transit time multiplied by [1e6], or
    [p_dict['Gammat'] * 1e6] when that key is there; [update] with the same
    dictionary sets the same temperatures and diameter, but stores the
    transit time without the factor [1e6], and does not read
    ['Gammat']. *)
Theorem update_transit_time_units
        (mass : R) (p : thermal_dict) (tr tr' : list event)
        (th : thermal) (t : R) :
  init_thermal mass p tr = (Ok (th, t), tr') ->
  exists t',
    update mass p tr = (Ok (th, t'), tr')
    /\ t' = getTransitTime mass (th_DoppT th) (th_beam_diameter th) None
    /\ match pd_Gammat p with
       | None => t = t' * 1e6
       | Some g => t = g * 1e6
       end.
Proof.
  unfold init_thermal, update, bind.
  destruct (set_thermal p tr) as [[th0|e] tr0]; [|discriminate].
  unfold ret. intros [= <- <- <-].
  eexists. split; [reflexivity|]. split; [reflexivity|].
  unfold init_transit_time. destruct (pd_Gammat p); reflexivity.
Qed.

Lemma update_transit_time_units_witness :
  exists t',
    update 1 (mkthermal_dict (Some 20) (Some true) None (Some 5e-3) None) []
    = (Ok (mkthermal (20 + 273.15) (20 + 273.15) 5e-3, t'), [])
    /\ init_thermal 1
         (mkthermal_dict (Some 20) (Some true) None (Some 5e-3) None) []
       = (Ok (mkthermal (20 + 273.15) (20 + 273.15) 5e-3, t' * 1e6), []).
Proof.
  destruct (update_transit_time_units 1
              (mkthermal_dict (Some 20) (Some true) None (Some 5e-3) None)
              [] [] _ _ eq_refl)
    as (t' & Hup & Ht' & Hunits).
  exists t'. split; [exact Hup|].
  cbv beta iota delta [pd_Gammat] in Hunits. rewrite <- Hunits. reflexivity.
Defined.

(** ** update_transit *)

(** X21: [update_transit] stores the new transit time; the matrix [A] it
    compiles is the one a construction with the new transit time gives
    when ['symbolic_transit'] is in [p_dict], and without that key it is
    the matrix [A] already stored: the master equation it starts from
    holds the transit time of the construction as a number. *)
Theorem update_transit_effect
        (self : atomicSystem) (d : R) (inst : instance) (mean_speed : R) :
  init_matrices self d = Ok inst ->
  let t := getTransitTime (mass self) (DoppT self) d (Some mean_speed)
           * 1e6 in
  exists inst',
    update_transit inst mean_speed = Ok inst'
    /\ attrs inst' = set_transit_time self t
    /\ stored_b inst' = stored_b inst
    /\ (symbolic_transit self = false -> stored_A inst' = stored_A inst)
    /\ (symbolic_transit self = true ->
        generate_linear_system (set_transit_time self t)
        = Ok (stored_A inst', stored_b inst')).
Proof.
  unfold init_matrices, generate_linear_system, system_matrix.
  destruct (master_equation self) as [me|] eqn:Hme; [|discriminate].
  destruct (Nat.eqb_spec (total_levels self) 0) as [|HN]; [discriminate|].
  cbn [fst snd]. intros [= <-].
  set (t := getTransitTime (mass self) (DoppT self) d (Some mean_speed)
            * 1e6).
  unfold update_transit.
  cbn [attrs beam_diameter stored_master_equation stored_A stored_b].
  fold t.
  change (total_levels (set_transit_time self t)) with (total_levels self).
  destruct (Nat.eqb_spec (total_levels self) 0) as [|_]; [contradiction|].
  eexists. split; [reflexivity|].
  cbn [attrs stored_A stored_b].
  split; [reflexivity|]. split; [reflexivity|]. split.
  - intros Hsym. unfold master_equation in Hme.
    unfold g_transit in Hme. rewrite Hsym in Hme.
    destruct (String.eqb (collisions_or_default self) "decay");
      [injection Hme as <-; reflexivity|].
    destruct (String.eqb (collisions_or_default self) "dephase");
      [injection Hme as <-; reflexivity|discriminate].
  - intros Hsym.
    assert (Hme' : master_equation (set_transit_time self t) = Some me).
    { rewrite <- Hme. unfold master_equation, g_transit.
      change (symbolic_transit (set_transit_time self t))
        with (symbolic_transit self).
      rewrite Hsym. reflexivity. }
    rewrite Hme'.
    change (total_levels (set_transit_time self t)) with (total_levels self).
    destruct (Nat.eqb_spec (total_levels self) 0) as [|_]; [contradiction|].
    reflexivity.
Qed.

Lemma update_transit_effect_witness :
  exists inst inst',
    init_matrices two_level 2 = Ok inst
    /\ update_transit inst 5 = Ok inst'
    /\ stored_A inst' = stored_A inst
    /\ transit_time (attrs inst') = PI / 4 * 2 / Rabs 5 * 1e6.
Proof.
  destruct (init_matrices two_level 2) as [inst|] eqn:Hinit;
    [|discriminate].
  destruct (update_transit_effect two_level 2 inst 5 Hinit)
    as (inst' & Hup & Hattrs & _ & Hstale & _).
  exists inst, inst'. split; [reflexivity|]. split; [exact Hup|].
  split; [apply Hstale; reflexivity|].
  rewrite Hattrs. reflexivity.
Defined.

(** ** Velocity distributions *)

Lemma exp_le_mono (a b : R) : a <= b -> exp a <= exp b.
Proof.
  intros [Hlt| ->]; [left; apply exp_increasing; exact Hlt|right; reflexivity].
Qed.

Lemma k_pos : 0 < c.k.
Proof. unfold c.k; lra. Qed.

Lemma thermal_scale_pos (T : R) :
  0 < T -> 0 < 2 * c.k * T /\ 0 < 2 * c.pi * c.k * T.
Proof.
  intros HT. pose proof k_pos as Hk. pose proof PI_RGT_0 as Hpi.
  unfold c.pi. split.
  - apply Rmult_lt_0_compat; [lra|exact HT].
  - apply Rmult_lt_0_compat; [|exact HT].
    apply Rmult_lt_0_compat; lra.
Qed.

(** X22: for a positive mass and Doppler temperature the Maxwell-Boltzmann
    density [v_dist] is never negative, it is even, and it does not grow
    with the absolute value of the velocity: it is largest at 0, where it
    is [sqrt(mass / (2 pi k DoppT))]. *)
Theorem v_dist_bell (self : atomicSystem) :
  0 < mass self -> 0 < DoppT self ->
  v_dist self 0 = sqrt (mass self / (2 * c.pi * c.k * DoppT self))
  /\ forall u v,
       0 <= v_dist self v
       /\ v_dist self (- v) = v_dist self v
       /\ (Rabs u <= Rabs v -> v_dist self v <= v_dist self u).
Proof.
  intros Hm HT. pose proof k_pos as Hk. pose proof PI_RGT_0 as Hpi.
  assert (Ha : 0 < mass self / (2 * c.pi * c.k * DoppT self)).
  { apply Rdiv_lt_0_compat; [exact Hm|].
    apply (thermal_scale_pos _ HT). }
  assert (Hs : 0 < sqrt (mass self / (2 * c.pi * c.k * DoppT self)))
    by (apply sqrt_lt_R0; exact Ha).
  split.
  - unfold v_dist.
    replace (- mass self * 0 ^ 2 / (2 * c.k * DoppT self)) with 0
      by (field; lra).
    rewrite exp_0. ring.
  - intros u v. unfold v_dist. split; [|split].
    + left. apply Rmult_lt_0_compat; [exact Hs|apply exp_pos].
    + replace ((- v) ^ 2) with (v ^ 2) by ring. reflexivity.
    + intros Huv. apply Rmult_le_compat_l; [lra|]. apply exp_le_mono.
      assert (Hsq : u ^ 2 <= v ^ 2).
      { rewrite <- (pow2_abs u), <- (pow2_abs v).
        pose proof (Rabs_pos u). pose proof (Rabs_pos v). nra. }
      assert (Hden : 0 < 2 * c.k * DoppT self)
        by apply (thermal_scale_pos _ HT).
      unfold Rdiv. apply Rmult_le_compat_r.
      * left. apply Rinv_0_lt_compat. exact Hden.
      * nra.
Qed.

Lemma v_dist_bell_witness :
  v_dist two_level (- (3)) = v_dist two_level 3
  /\ v_dist two_level 3 <= v_dist two_level 0.
Proof.
  destruct (v_dist_bell two_level ltac:(cbn; lra) ltac:(cbn; lra))
    as [_ H].
  destruct (H 0 3) as (_ & Heven & Hmax).
  split; [exact Heven|]. apply Hmax.
  rewrite Rabs_R0. apply Rabs_pos.
Defined.

(** X23: [rayleigh] is the density of the speed in the plane when the two
    velocity components follow [v_dist]: at a speed [v] with
    [v^2 = vx^2 + vy^2] it is [2 pi v] times the product of the two
    densities.  It is odd in [v], and 0 at rest. *)
Theorem rayleigh_polar (self : atomicSystem) (vx vy v : R) :
  0 < mass self -> 0 < DoppT self ->
  v ^ 2 = vx ^ 2 + vy ^ 2 ->
  rayleigh self v = 2 * c.pi * v * (v_dist self vx * v_dist self vy)
  /\ rayleigh self (- v) = - rayleigh self v
  /\ rayleigh self 0 = 0.
Proof.
  intros Hm HT Hv. pose proof k_pos as Hk. pose proof PI_RGT_0 as Hpi.
  assert (Ha : 0 <= mass self / (2 * c.pi * c.k * DoppT self)).
  { left. apply Rdiv_lt_0_compat; [exact Hm|].
    apply (thermal_scale_pos _ HT). }
  split; [|split].
  - unfold rayleigh, v_dist.
    set (s := sqrt (mass self / (2 * c.pi * c.k * DoppT self))).
    assert (Hss : s * s = mass self / (2 * c.pi * c.k * DoppT self))
      by (apply sqrt_sqrt; exact Ha).
    replace (- mass self * v ^ 2 / (2 * c.k * DoppT self))
      with (- mass self * vx ^ 2 / (2 * c.k * DoppT self)
            + - mass self * vy ^ 2 / (2 * c.k * DoppT self))
      by (rewrite Hv; field; lra).
    rewrite exp_plus.
    replace (s * exp (- mass self * vx ^ 2 / (2 * c.k * DoppT self))
             * (s * exp (- mass self * vy ^ 2 / (2 * c.k * DoppT self))))
      with (s * s * (exp (- mass self * vx ^ 2 / (2 * c.k * DoppT self))
                     * exp (- mass self * vy ^ 2 / (2 * c.k * DoppT self))))
      by ring.
    rewrite Hss. unfold c.pi in *. field. repeat split; lra.
  - unfold rayleigh. replace ((- v) ^ 2) with (v ^ 2) by ring. ring.
  - unfold rayleigh. ring.
Qed.

Lemma rayleigh_polar_witness :
  rayleigh two_level 5
  = 2 * c.pi * 5 * (v_dist two_level 3 * v_dist two_level 4).
Proof.
  apply (rayleigh_polar two_level 3 4 5); cbn; lra.
Defined.

(** X24: [cdf] and [cdfinv] use the same scale [sqrt(k DoppT / mass) sqrt(2)]
    and inverse affine maps: whenever [erfinv] inverts [erf], [cdfinv]
    inverts [cdf], for a positive mass and Doppler temperature. *)
Theorem cdfinv_cdf (erf erfinv : R -> R) (self : atomicSystem) (v : R) :
  (forall x, erfinv (erf x) = x) ->
  0 < mass self -> 0 < DoppT self ->
  cdfinv erfinv self (cdf erf self v) = v.
Proof.
  intros Hinv Hm HT. pose proof k_pos as Hk.
  unfold cdfinv, cdf.
  set (o := sqrt (c.k * DoppT self / mass self) * sqrt 2).
  assert (Ho : 0 < o).
  { unfold o. apply Rmult_lt_0_compat; apply sqrt_lt_R0; [|lra].
    apply Rdiv_lt_0_compat; [|exact Hm].
    apply Rmult_lt_0_compat; assumption. }
  replace (2 * (0.5 * (1 + erf (v / o))) - 1) with (erf (v / o)) by lra.
  rewrite Hinv. field. lra.
Qed.

Lemma cdfinv_cdf_witness :
  cdfinv (fun y => y) two_level (cdf (fun x => x) two_level 3) = 3.
Proof.
  apply (cdfinv_cdf (fun x => x) (fun y => y) two_level 3).
  - reflexivity.
  - cbn; lra.
  - cbn; lra.
Defined.

(** ** get_spectra: the isotopes *)

Lemma isotope_table_merged (Elem : string) (p : p_dict) (tr : list event) :
  exists t, isotope_table Elem (merge_defaults p) tr = (Ok t, tr).
Proof.
  unfold isotope_table, bind, merge_defaults, getitem, ret.
  cbn [K40frac K41frac rb85frac].
  repeat match goal with
         | |- context [String.eqb Elem ?s] => destruct (String.eqb Elem s)
         end; eexists; reflexivity.
Qed.

Ltac elem_cases Elem :=
  destruct (String.eqb_spec Elem "Li") as [->|HLi];
  [|destruct (String.eqb_spec Elem "Na") as [->|HNa];
    [|destruct (String.eqb_spec Elem "K") as [->|HK];
      [|destruct (String.eqb_spec Elem "Rb") as [->|HRb];
        [|destruct (String.eqb_spec Elem "Cs") as [->|HCs]]]]].

Lemma spectra_isotopes_select (Elem : string) (p : p_dict)
      (tr : list event) (l : list (string * R)) (name : string) (a : R) :
  spectra_isotopes Elem p tr = (Ok (Some l), tr) ->
  In (name, a) l ->
  0 < a
  /\ exists atom ab,
       select_atom name (merge_defaults p) tr = (Ok (atom, ab), tr)
       /\ (ab = None \/ ab = Some a).
Proof.
  unfold spectra_isotopes, isotope_table, bind, merge_defaults, getitem, ret.
  cbn [K40frac K41frac rb85frac].
  set (k40 := match K40frac p with Some x => x | None => 0.01 end).
  set (k41 := match K41frac p with Some x => x | None => 6.73 end).
  set (f85 := match rb85frac p with Some x => x | None => 72.17 end).
  elem_cases Elem; cbn [String.eqb Ascii.eqb Bool.eqb option_map fst snd];
    try discriminate;
    intros [= <-];
    cbn [combine filter map fst snd];
    repeat match goal with
           | |- context [Rlt_dec 0 ?x] => destruct (Rlt_dec 0 x)
           end;
    cbn [map fst snd In];
    intros Hin;
    repeat match type of Hin with
           | _ \/ _ => destruct Hin as [Hin|Hin]
           | False => destruct Hin
           end;
    injection Hin as <- <-;
    (split; [lra|]);
    eexists; eexists;
    (split; [reflexivity|]);
    try (left; reflexivity);
    right; f_equal; cbn [K40frac K41frac rb85frac]; fold k40 k41 f85; lra.
Qed.

(** X25: [get_spectra] binds its isotope table exactly for the element names
    ['Li'], ['Na'], ['K'], ['Rb'] and ['Cs'], as written; and every name
    it then passes to [atomicSystem] is one the constructor accepts,
    without an exception and without a log record; where the constructor
    sets an abundance itself, it is the one [get_spectra] assigns
    afterwards. *)
Theorem get_spectra_isotopes_supported
        (Elem : string) (p : p_dict) (tr : list event) :
  exists t,
    spectra_isotopes Elem p tr = (Ok t, tr)
    /\ (t = None <-> ~ In Elem ["Li"; "Na"; "K"; "Rb"; "Cs"]%string)
    /\ forall l name a, t = Some l -> In (name, a) l ->
         0 < a
         /\ exists atom ab,
              select_atom name (merge_defaults p) tr = (Ok (atom, ab), tr)
              /\ (ab = None \/ ab = Some a).
Proof.
  destruct (isotope_table_merged Elem p tr) as (t0 & Ht0).
  assert (Hs : exists t, spectra_isotopes Elem p tr = (Ok t, tr)
                         /\ (t = None <-> t0 = None)).
  { unfold spectra_isotopes, bind. rewrite Ht0. unfold ret.
    eexists. split; [reflexivity|].
    destruct t0; cbn [option_map]; split; intros; congruence. }
  destruct Hs as (t & Hs & Hnone). exists t.
  split; [exact Hs|]. split.
  - rewrite Hnone. revert Ht0.
    unfold isotope_table, bind, merge_defaults, getitem, ret.
    cbn [K40frac K41frac rb85frac].
    elem_cases Elem; cbn [String.eqb Ascii.eqb Bool.eqb]; intros [= <-].
    1-5: split; [discriminate|intros Hn; exfalso; apply Hn; cbn; tauto].
    split; [|reflexivity].
    intros _ [H|[H|[H|[H|[H|[]]]]]]; congruence.
  - intros l name a -> Hin.
    exact (spectra_isotopes_select Elem p tr l name a Hs Hin).
Qed.

Lemma get_spectra_isotopes_supported_witness :
  exists atom ab,
    select_atom "Rb87" (merge_defaults (mkp_dict None None None None)) []
    = (Ok (atom, ab), [])
    /\ (ab = None \/ ab = Some ((100 - 72.17) / 100)).
Proof.
  destruct (get_spectra_isotopes_supported "Rb"
              (mkp_dict None None None None) [])
    as (t & Ht & _ & Hall).
  unfold spectra_isotopes, isotope_table, bind, merge_defaults, getitem, ret
    in Ht.
  cbn [String.eqb Ascii.eqb Bool.eqb option_map fst snd K40frac K41frac
       rb85frac combine filter map] in Ht.
  destruct (Rlt_dec 0 72.17) as [_|Hn]; [|exfalso; lra].
  destruct (Rlt_dec 0 (100 - 72.17)) as [_|Hn]; [|exfalso; lra].
  cbn [map fst snd] in Ht. injection Ht as <-.
  destruct (Hall _ "Rb87"%string ((100 - 72.17) / 100) eq_refl
              (or_intror (or_introl eq_refl)))
    as (_ & atom & ab & H1 & H2).
  exists atom, ab. split; assumption.
Defined.

(** X26: when the fractions of the merged dictionary are percentages (none
    below 0, the rubidium 85 fraction at most 100, the two potassium
    fractions together at most 100), the abundances [get_spectra] assigns
    to the atoms it builds sum to 1: an isotope with the fraction 0 is
    left out. *)
Theorem get_spectra_abundances_sum
        (Elem : string) (p : p_dict) (tr : list event)
        (l : list (string * R)) :
  spectra_isotopes Elem p tr = (Ok (Some l), tr) ->
  (forall k40 k41,
     K40frac (merge_defaults p) = Some k40 ->
     K41frac (merge_defaults p) = Some k41 ->
     0 <= k40 /\ 0 <= k41 /\ k40 + k41 <= 100) ->
  (forall f, rb85frac (merge_defaults p) = Some f -> 0 <= f <= 100) ->
  Rlist_sum (map snd l) = 1.
Proof.
  unfold spectra_isotopes, isotope_table, bind, merge_defaults, getitem, ret.
  cbn [K40frac K41frac rb85frac].
  set (k40 := match K40frac p with Some x => x | None => 0.01 end).
  set (k41 := match K41frac p with Some x => x | None => 6.73 end).
  set (f85 := match rb85frac p with Some x => x | None => 72.17 end).
  intros Hl Hpot Hrub.
  specialize (Hpot k40 k41 eq_refl eq_refl). specialize (Hrub f85 eq_refl).
  revert Hl.
  elem_cases Elem; cbn [String.eqb Ascii.eqb Bool.eqb option_map fst snd];
    try discriminate;
    intros [= <-];
    cbn [combine filter map fst snd];
    repeat match goal with
           | |- context [Rlt_dec 0 ?x] => destruct (Rlt_dec 0 x)
           end;
    cbn [map fst snd Rlist_sum fold_right]; lra.
Qed.

Lemma get_spectra_abundances_sum_witness :
  exists l,
    spectra_isotopes "K" (mkp_dict None None None None) []
    = (Ok (Some l), [])
    /\ Rlist_sum (map snd l) = 1.
Proof.
  destruct (spectra_isotopes "K" (mkp_dict None None None None) [])
    as [[[l|]|e] tr] eqn:Hs.
  - assert (Htr : tr = []).
    { revert Hs.
      unfold spectra_isotopes, isotope_table, bind, merge_defaults, getitem,
        ret.
      cbn [String.eqb Ascii.eqb Bool.eqb option_map fst snd K40frac K41frac
           rb85frac].
      intros [= _ <-]. reflexivity. }
    subst tr. exists l. split; [reflexivity|].
    apply (get_spectra_abundances_sum "K" (mkp_dict None None None None)
             [] l Hs).
    + intros k40 k41 [= <-] [= <-]. lra.
    + intros f [= <-]. lra.
  - exfalso. revert Hs.
    unfold spectra_isotopes, isotope_table, bind, merge_defaults, getitem,
      ret.
    cbn [String.eqb Ascii.eqb Bool.eqb option_map fst snd K40frac K41frac
         rb85frac].
    discriminate.
  - exfalso. revert Hs.
    unfold spectra_isotopes, isotope_table, bind, merge_defaults, getitem,
      ret.
    cbn [String.eqb Ascii.eqb Bool.eqb option_map fst snd K40frac K41frac
         rb85frac].
    discriminate.
Defined.

(** X27: the defaults [get_spectra] merges hold no ['Dline']: when the caller's
    dictionary has none, every construction [get_spectra] starts raises
    [KeyError] for that key; with ['D1'] or ['D2'] the constructor passes
    its checks, with the ground and the excited level of that line. *)
Theorem get_spectra_needs_Dline
        (groundStateN : arc_atom -> nat) (Elem : string) (p : p_dict)
        (tr : list event) (l : list (string * R)) (name : string) (a : R) :
  spectra_isotopes Elem p tr = (Ok (Some l), tr) ->
  In (name, a) l ->
  (Dline p = None ->
   atomicSystem_init groundStateN name (merge_defaults p) None tr
   = (Raise (KeyError "Dline"), tr))
  /\ (forall d, Dline p = Some d -> d = "D1"%string \/ d = "D2"%string ->
      exists atom ab,
        atomicSystem_init groundStateN name (merge_defaults p) None tr
        = (Ok (atom, ab,
               [mkstate (groundStateN atom) 0 (1 / 2) None;
                mkstate (groundStateN atom) 1
                        (if String.eqb d "D1" then 1 / 2 else 3 / 2) None],
               merge_defaults p), tr)).
Proof.
  intros Hs Hin.
  destruct (spectra_isotopes_select Elem p tr l name a Hs Hin)
    as (_ & atom & ab & Hsel & _).
  unfold atomicSystem_init, bind. rewrite Hsel. cbn [fst snd].
  unfold select_states, bind, getitem. split.
  - intros Hd. change (Dline (merge_defaults p)) with (Dline p).
    rewrite Hd. reflexivity.
  - intros d Hd Hline. change (Dline (merge_defaults p)) with (Dline p).
    rewrite Hd. exists atom, ab.
    destruct Hline as [-> | ->]; reflexivity.
Qed.

Lemma get_spectra_needs_Dline_witness :
  atomicSystem_init (fun _ => 5%nat) "Cs133"
    (merge_defaults (mkp_dict None None None None)) None []
  = (Raise (KeyError "Dline"), []).
Proof.
  assert (Hs : spectra_isotopes "Cs" (mkp_dict None None None None) []
               = (Ok (Some [("Cs133"%string, 100 / 100)]), [])).
  { unfold spectra_isotopes, isotope_table, bind, merge_defaults, getitem,
      ret.
    cbn [String.eqb Ascii.eqb Bool.eqb option_map fst snd K40frac K41frac
         rb85frac combine filter].
    destruct (Rlt_dec 0 100) as [_|Hn]; [|exfalso; lra]. reflexivity. }
  apply (get_spectra_needs_Dline (fun _ => 5%nat) "Cs"
           (mkp_dict None None None None) [] _ "Cs133"%string (100 / 100) Hs);
    [left; reflexivity|reflexivity].
Defined.

(** ** From the susceptibility to the transmission *)

Lemma modulus_gt_re (a b : R) : b <> 0 -> a < sqrt (a ^ 2 + b ^ 2).
Proof.
  intros Hb. pose proof (sqrt_pos (a ^ 2 + b ^ 2)) as Hpos.
  destruct (Rlt_le_dec a 0) as [Ha|Ha]; [lra|].
  rewrite <- (sqrt_pow2 a Ha) at 1.
  apply sqrt_lt_1_alt. split; [apply pow2_ge_0|].
  assert (0 < b * b) by (destruct (Rtotal_order b 0) as [|[|]]; nra).
  nra.
Qed.

Lemma csqrt_im_sign (z : C) :
  (Im z < 0 -> Im (csqrt z) < 0)
  /\ (0 < Im z -> 0 < Im (csqrt z))
  /\ (Im z = 0 -> 0 <= Re z -> Im (csqrt z) = 0)
  /\ (Im z = 0 -> Re z < 0 -> 0 < Im (csqrt z)).
Proof.
  destruct z as [a b]. unfold csqrt, Im, Re. cbn [fst snd].
  split; [|split; [|split]].
  - intros Hb. destruct (Rle_dec 0 b) as [|_]; [lra|].
    assert (0 < sqrt ((sqrt (a ^ 2 + b ^ 2) - a) / 2)).
    { apply sqrt_lt_R0. pose proof (modulus_gt_re a b ltac:(lra)). lra. }
    lra.
  - intros Hb. destruct (Rle_dec 0 b) as [_|]; [|lra].
    assert (0 < sqrt ((sqrt (a ^ 2 + b ^ 2) - a) / 2)).
    { apply sqrt_lt_R0. pose proof (modulus_gt_re a b ltac:(lra)). lra. }
    lra.
  - intros -> Ha. destruct (Rle_dec 0 0) as [_|]; [|lra].
    replace (a ^ 2 + 0 ^ 2) with (a ^ 2) by ring.
    rewrite sqrt_pow2 by exact Ha.
    replace ((a - a) / 2) with 0 by lra. rewrite sqrt_0. ring.
  - intros -> Ha. destruct (Rle_dec 0 0) as [_|]; [|lra].
    assert (0 < sqrt ((sqrt (a ^ 2 + 0 ^ 2) - a) / 2)).
    { apply sqrt_lt_R0. pose proof (sqrt_pos (a ^ 2 + 0 ^ 2)). lra. }
    lra.
Qed.

(** X28: for a positive number density, resonance frequency and cell length,
    the transmission of an entry is never negative and the absorption
    never above 1.  A susceptibility with a negative imaginary part gives
    a transmission of at most 1, and only such a susceptibility gives one
    below 1; a positive imaginary part gives a transmission of at least
    1, and a real susceptibility with [1 + chi n] not negative gives
    1. *)
Theorem transmission_sign
        (self : atomicSystem) (n z : R) (chi : C) :
  0 < n -> 0 < f_resonance self -> 0 < z ->
  let T := transmission_entry (optical_depth_entry self n chi) z in
  0 <= T
  /\ absorption_entry (optical_depth_entry self n chi) z <= 1
  /\ (Im chi < 0 -> T <= 1)
  /\ (T < 1 -> Im chi < 0)
  /\ (0 < Im chi -> 1 <= T)
  /\ (Im chi = 0 -> 0 <= 1 + Re chi * n -> T = 1).
Proof.
  intros Hn Hf Hz T. subst T.
  unfold absorption_entry, transmission_entry, optical_depth_entry.
  set (w := (RtoC 1 + chi * RtoC n)%C).
  assert (Hw : Im w = Im chi * n /\ Re w = 1 + Re chi * n).
  { unfold w. destruct chi as [x y]. csimpl. split; ring. }
  destruct Hw as [Him Hre].
  destruct (csqrt_im_sign w) as (Hneg & Hpos & Hzero & Haxis).
  rewrite Him, Hre in *.
  pose proof PI_RGT_0 as Hpi. pose proof c_pos as Hc.
  assert (Hk : 0 < 4 * c.pi * f_resonance self / c.c).
  { unfold c.pi. apply Rdiv_lt_0_compat; [|exact Hc].
    apply Rmult_lt_0_compat; [lra|exact Hf]. }
  set (k := 4 * c.pi * f_resonance self / c.c) in *.
  set (s := Im (csqrt w)) in *.
  assert (Hlt : exp (k * s * z) < 1 <-> s < 0).
  { rewrite <- exp_0. split.
    - intros H. apply exp_lt_inv in H.
      destruct (Rlt_le_dec s 0) as [|Hs]; [assumption|].
      assert (0 <= k * s) by nra. nra.
    - intros H. apply exp_increasing.
      assert (k * s < 0) by nra. nra. }
  assert (Hgt : 0 < s -> 1 < exp (k * s * z)).
  { intros H. rewrite <- exp_0. apply exp_increasing.
    assert (0 < k * s) by nra. nra. }
  pose proof (exp_pos (k * s * z)) as HT.
  split; [lra|]. split; [lra|].
  split; [|split; [|split]].
  - intros Hchi. left. apply Hlt. apply Hneg. nra.
  - intros HT1. apply Hlt in HT1.
    destruct (Rtotal_order (Im chi) 0) as [Hchi|[Hchi|Hchi]];
      [exact Hchi| |].
    + destruct (Rlt_le_dec (1 + Re chi * n) 0) as [Hre0|Hre0].
      * assert (0 < s) by (apply Haxis; [rewrite Hchi; ring|exact Hre0]).
        lra.
      * assert (s = 0) by (apply Hzero; [rewrite Hchi; ring|exact Hre0]).
        lra.
    + assert (0 < s) by (apply Hpos; nra). lra.
  - intros Hchi. left. apply Hgt. apply Hpos. nra.
  - intros Hchi Hre0.
    assert (Hs0 : s = 0) by (apply Hzero; [rewrite Hchi; ring|exact Hre0]).
    rewrite Hs0, Rmult_0_r, Rmult_0_l. apply exp_0.
Qed.

Lemma transmission_sign_witness :
  transmission_entry (optical_depth_entry two_level 1 (0, - (1))) 1 <= 1.
Proof.
  destruct (transmission_sign two_level 1 1 (0, - (1)))
    as (_ & _ & H & _); [lra|cbn; lra|lra|].
  apply H. cbn. lra.
Defined.

(** ** What the buffer gas adds to the master equation *)

Lemma Csum_split (n m : nat) (f : nat -> C) :
  Csum (n + m) f = (Csum n f + Csum m (fun k => f (n + k)%nat))%C.
Proof.
  induction m as [|m IH].
  - rewrite Nat.add_0_r. cbn [Csum]. ring.
  - rewrite Nat.add_succ_r. cbn [Csum]. rewrite IH. ring.
Qed.

Lemma Rsum_add (n : nat) (f g : nat -> R) :
  Rsum n (fun k => f k + g k) = Rsum n f + Rsum n g.
Proof. induction n as [|n IH]; cbn; [|rewrite IH]; ring. Qed.

Lemma Rsum_const (n : nat) (x : R) : Rsum n (fun _ => x) = INR n * x.
Proof.
  induction n as [|n IH]; [cbn; ring|].
  cbn [Rsum]. rewrite IH, S_INR. ring.
Qed.

Lemma Rsum_below (N n : nat) (x : R) :
  (n <= N)%nat ->
  Rsum N (fun k => if (k <? n)%nat then x else 0) = INR n * x.
Proof.
  induction N as [|N IH]; intros Hn.
  - replace n with O by lia. cbn. ring.
  - cbn [Rsum]. destruct (Nat.ltb_spec N n) as [Hlt|Hge].
    + replace n with (S N) by lia.
      rewrite (Rsum_ext _ _ (fun _ => x)), Rsum_const, S_INR; [ring|].
      intros k Hk. destruct (Nat.ltb_spec k (S N)); [reflexivity|lia].
    + rewrite IH by lia. ring.
Qed.

Lemma Lindblad_decay_add_rates (self : atomicSystem) (r : Mat)
      (a b : RMat) (i j : nat) :
  Lindblad_decay self r (Radd a b) i j
  = (Lindblad_decay self r a i j + Lindblad_decay self r b i j)%C.
Proof.
  rewrite !Lindblad_decay_entry.
  destruct (Nat.ltb_spec i (total_levels self)); [|ring].
  destruct (Nat.eqb_spec j i) as [->|Hne].
  - rewrite <- Csum_add. apply Csum_ext. intros k _.
    unfold population_flow, Radd. cring.
  - destruct (Nat.ltb_spec j (total_levels self)); [|ring].
    unfold coherence_loss.
    rewrite !(Csum_scale _ 0.5 (fun k => _ i k + _ j k)).
    rewrite (Rsum_ext _ (fun k => Radd a b i k + Radd a b j k)
               (fun k => (a i k + a j k) + (b i k + b j k)))
      by (intros; unfold Radd; ring).
    rewrite Rsum_add. cring.
Qed.

Lemma Lindblad_decay_zero_rates (self : atomicSystem) (r : Mat)
      (rates : RMat) (i j : nat) :
  (forall a b, rates a b = 0) ->
  Lindblad_decay self r rates i j = RtoC 0.
Proof.
  intros Hz. rewrite Lindblad_decay_entry.
  destruct (Nat.ltb_spec i (total_levels self)); [|reflexivity].
  destruct (Nat.eqb_spec j i) as [->|Hne].
  - apply Csum_zero. intros k _. unfold population_flow.
    rewrite !Hz. cring.
  - destruct (Nat.ltb_spec j (total_levels self)); [|reflexivity].
    unfold coherence_loss. rewrite Csum_zero; [cring|].
    intros k _. rewrite !Hz. cring.
Qed.

(** The rate matrix [g_col] of the model ['decay']. *)
Lemma g_col_decay_entry (self : atomicSystem) (a b : nat) :
  set_block Rzeros (slices1 self) (slices0 self)
            (const (GammaBuf self / INR (n0 self))) a b
  = if (b <? n0 self)%nat
    then if ((n0 self <=? a)%nat && (a <? n0 self + n1 self)%nat)
         then GammaBuf self / INR (n0 self) else 0
    else 0.
Proof.
  unfold set_block, in_slice, slices0, slices1, const, Rzeros.
  cbn [fst snd Nat.leb].
  destruct ((n0 self <=? a)%nat && (a <? n0 self + n1 self)%nat),
           (b <? n0 self)%nat; reflexivity.
Qed.

Lemma g_col_decay_row (self : atomicSystem) (a : nat) :
  (0 < n0 self)%nat -> (a < total_levels self)%nat ->
  Rsum (total_levels self)
       (set_block Rzeros (slices1 self) (slices0 self)
                  (const (GammaBuf self / INR (n0 self))) a)
  = excited_rate self a.
Proof.
  intros Hn0 Ha. unfold total_levels in *.
  assert (HINR : INR (n0 self) <> 0) by (apply not_0_INR; lia).
  rewrite (Rsum_ext _ _ (fun k => if (k <? n0 self)%nat
                                  then excited_rate self a / INR (n0 self)
                                  else 0)).
  - rewrite Rsum_below by lia. field. exact HINR.
  - intros k _. rewrite g_col_decay_entry. unfold excited_rate.
    destruct (k <? n0 self)%nat; [|reflexivity].
    destruct (Nat.leb_spec (n0 self) a), (Nat.ltb_spec a (n0 self + n1 self));
      cbn [andb]; try lia; try reflexivity.
    unfold Rdiv. ring.
Qed.

Lemma decay_collisions_entry (self : atomicSystem) (r : Mat) (i j : nat) :
  (0 < n0 self)%nat ->
  (i < total_levels self)%nat -> (j < total_levels self)%nat ->
  Lindblad_decay self r
    (set_block Rzeros (slices1 self) (slices0 self)
               (const (GammaBuf self / INR (n0 self)))) i j
  = if (i =? j)%nat then
      if (n0 self <=? i)%nat then (- (RtoC (GammaBuf self) * r i i))%C
      else (RtoC (GammaBuf self / INR (n0 self))
            * Csum (n1 self) (fun e => r (n0 self + e)%nat (n0 self + e)%nat))%C
    else (- (RtoC (0.5 * (excited_rate self i + excited_rate self j))
             * r i j))%C.
Proof.
  intros Hn0 Hi Hj.
  set (g := set_block Rzeros (slices1 self) (slices0 self)
              (const (GammaBuf self / INR (n0 self)))).
  rewrite Lindblad_decay_entry.
  destruct (Nat.ltb_spec i (total_levels self)); [|lia].
  destruct (Nat.ltb_spec j (total_levels self)); [|lia].
  destruct (Nat.eqb_spec j i) as [->|Hne].
  - rewrite Nat.eqb_refl. unfold population_flow.
    rewrite Csum_sub.
    rewrite (Csum_ext _ (fun k => (RtoC (g i k) * r i i)%C)
               (fun k => (RtoC (1 * g i k) * r i i)%C))
      by (intros; rewrite Rmult_1_l; reflexivity).
    rewrite (Csum_scale _ 1 (g i)). unfold g at 2.
    rewrite g_col_decay_row by assumption.
    unfold total_levels. rewrite Csum_split.
    rewrite (Csum_zero (n0 self)).
    2:{ intros k Hk. unfold g. rewrite g_col_decay_entry.
        destruct (Nat.leb_spec (n0 self) k); [lia|]. cbn [andb].
        destruct (i <? n0 self)%nat; cring. }
    unfold excited_rate.
    destruct (Nat.leb_spec (n0 self) i) as [Hexc|Hgr].
    + rewrite Csum_zero; [cring|].
      intros k Hk. unfold g. rewrite g_col_decay_entry.
      destruct (Nat.ltb_spec i (n0 self)); [lia|]. cring.
    + rewrite (Csum_ext _ _
                 (fun e => (RtoC (GammaBuf self / INR (n0 self))
                            * r (n0 self + e)%nat (n0 self + e)%nat)%C)).
      * rewrite Csum_mul_l. cring.
      * intros k Hk. unfold g. rewrite g_col_decay_entry.
        destruct (Nat.ltb_spec i (n0 self)); [|lia].
        destruct (Nat.leb_spec (n0 self) (n0 self + k)); [|lia].
        destruct (Nat.ltb_spec (n0 self + k) (n0 self + n1 self)); [|lia].
        reflexivity.
  - destruct (Nat.eqb_spec i j) as [|_]; [congruence|].
    unfold coherence_loss.
    rewrite (Csum_scale _ 0.5 (fun k => g i k + g j k)).
    rewrite Rsum_add. unfold g.
    rewrite !g_col_decay_row by assumption. reflexivity.
Qed.

(** X29: what [p_dict['GammaBuf']] adds to the master equation, entry by entry,
    against the same system without buffer gas.  The model ['decay'] adds
    [GammaBuf r[e,e]] to the equation of an excited population and takes
    [GammaBuf / n0] times the excited populations from the equation of a
    ground population; off the diagonal it adds [0.5 GammaBuf r[i,j]] for
    each of [i], [j] that is excited.  The model ['dephase'] adds
    [0.5 GammaBuf r[i,j]] to the ground-excited coherences and nothing
    else: the two models agree on the ground-excited coherences. *)
Theorem buffer_gas_terms
        (self : atomicSystem) (me me0 : SMat) (wL Efield tau_t : R)
        (r : Mat) (i j : nat) :
  (0 < n0 self)%nat ->
  (i < total_levels self)%nat -> (j < total_levels self)%nat ->
  master_equation self = Some me ->
  master_equation (set_GammaBuf self 0) = Some me0 ->
  (collisions_or_default self = "decay"%string ->
   me wL Efield tau_t r i j
   = (me0 wL Efield tau_t r i j
      + if (i =? j)%nat then
          if (n0 self <=? i)%nat then RtoC (GammaBuf self) * r i i
          else - (RtoC (GammaBuf self / INR (n0 self))
                  * Csum (n1 self)
                      (fun e => r (n0 self + e)%nat (n0 self + e)%nat))
        else RtoC (0.5 * (excited_rate self i + excited_rate self j))
             * r i j)%C)
  /\ (collisions_or_default self = "dephase"%string ->
      me wL Efield tau_t r i j
      = (me0 wL Efield tau_t r i j
         + if xorb (n0 self <=? i)%nat (n0 self <=? j)%nat
           then RtoC (0.5 * GammaBuf self) * r i j
           else RtoC 0)%C).
Proof.
  intros Hn0 Hi Hj Hme Hme0. unfold master_equation in Hme, Hme0.
  change (collisions_or_default (set_GammaBuf self 0))
    with (collisions_or_default self) in Hme0.
  split; intros Hmodel; rewrite Hmodel in Hme, Hme0;
    cbn [String.eqb Ascii.eqb Bool.eqb] in Hme, Hme0;
    injection Hme as <-; injection Hme0 as <-.
  - unfold Msub.
    change (coherent (set_GammaBuf self 0)) with (coherent self).
    change (Lindblad_decay (set_GammaBuf self 0)) with (Lindblad_decay self).
    change (g_dec (set_GammaBuf self 0)) with (g_dec self).
    change (g_transit (set_GammaBuf self 0)) with (g_transit self).
    cbn [slices0 slices1 n0 n1 GammaBuf set_GammaBuf].
    fold (slices0 self) (slices1 self).
    rewrite !Lindblad_decay_add_rates.
    rewrite (Lindblad_decay_zero_rates self r
               (set_block Rzeros (slices1 self) (slices0 self)
                          (const (0 / INR (n0 self))))).
    2:{ intros a b. unfold set_block, const, Rzeros.
        destruct (_ && _); [unfold Rdiv; ring|reflexivity]. }
    rewrite decay_collisions_entry by assumption.
    destruct (i =? j)%nat; [destruct (n0 self <=? i)%nat|]; ring.
  - unfold Msub.
    change (coherent (set_GammaBuf self 0)) with (coherent self).
    change (Lindblad_decay (set_GammaBuf self 0)) with (Lindblad_decay self).
    change (Lindblad_dephase (set_GammaBuf self 0))
      with (Lindblad_dephase self).
    change (g_dec (set_GammaBuf self 0)) with (g_dec self).
    change (g_transit (set_GammaBuf self 0)) with (g_transit self).
    cbn [slices0 slices1 n0 n1 GammaBuf set_GammaBuf].
    fold (slices0 self) (slices1 self).
    rewrite (Lindblad_dephase_zero_rates self r
               (set_block
                  (set_block Rzeros (slices1 self) (slices0 self) (const 0))
                  (slices0 self) (slices1 self) (const 0))).
    2:{ intros a b. unfold set_block, const, Rzeros.
        repeat destruct (_ && _); reflexivity. }
    rewrite Lindblad_dephase_entry.
    unfold set_block, in_slice, slices0, slices1, const, Rzeros.
    cbn [fst snd]. unfold total_levels in *.
    nat_cases; cbn [xorb]; cring.
Qed.

Lemma buffer_gas_terms_witness :
  exists me me0,
    master_equation (set_GammaBuf two_level 3) = Some me
    /\ master_equation (set_GammaBuf two_level 0) = Some me0
    /\ me 0 1 1 excited_state 1%nat 1%nat
       = (me0 0%R 1%R 1%R excited_state 1%nat 1%nat
          + RtoC 3 * excited_state 1%nat 1%nat)%C.
Proof.
  eexists. eexists. split; [reflexivity|]. split; [reflexivity|].
  destruct (buffer_gas_terms (set_GammaBuf two_level 3) _ _ 0 1 1
              excited_state 1%nat 1%nat
              ltac:(cbn; lia) ltac:(cbn; lia) ltac:(cbn; lia)
              eq_refl eq_refl)
    as [Hdecay _].
  exact (Hdecay eq_refl).
Defined.
